(** * Multi search engine: aggregation, cache and retry policy

    A shallow embedding of [js/searchCache.js], [js/errorHandler.js] and the
    aggregation part of [js/searchManager.js], with the properties of the
    aggregation-cache-resilience engine stated over it, followed by the code
    the adapters share, the helpers of the video adapter and the search
    handler of the application.

    Conventions of the embedding.
    - A JavaScript string is the list of its UTF-16 code units.
    - [Date.now()] is an explicit argument [now] of every cache operation; the
      readings taken inside one synchronous method body are one value.
    - A JavaScript [Map] keeps insertion order, which [evictLRU] observes, so
      the cache store is an insertion-ordered association list; the retry
      counters, whose order is never observed, are a [gmap].
    - Effects of the manager are explicit state passing over [mstate]; what
      the manager does to the outside world is appended to a trace. *)

From Stdlib Require Import ZArith QArith Lia List Ascii String Sorted.
From stdpp Require Import base option list gmap.

Local Open Scope Z_scope.

(* ================================================================== *)
(** ** JavaScript strings *)
(* ================================================================== *)

Module JsString.

(** A string is its sequence of UTF-16 code units. *)
Definition jsstring : Type := list N.

(** Literal with code units below 128. *)
Definition js (s : string) : jsstring :=
  List.map N_of_ascii (list_ascii_of_string s).

Definition eqb (a b : jsstring) : bool := bool_decide (a = b).

(** [if (s)]: a string is truthy unless it is empty. *)
Definition truthy (s : jsstring) : bool :=
  match s with [] => false | _ :: _ => true end.

(** White space and line terminators stripped by [String.prototype.trim]. *)
Definition isWhiteSpace (c : N) : bool :=
  ((9 <=? c) && (c <=? 13) || (c =? 32) || (c =? 160) || (c =? 5760)
   || (8192 <=? c) && (c <=? 8202) || (c =? 8232) || (c =? 8233)
   || (c =? 8239) || (c =? 8287) || (c =? 12288) || (c =? 65279))%N.

Fixpoint trimStart (s : jsstring) : jsstring :=
  match s with
  | c :: s' => if isWhiteSpace c then trimStart s' else s
  | [] => []
  end.

Definition trimEnd (s : jsstring) : jsstring := rev (trimStart (rev s)).

Definition trim (s : jsstring) : jsstring := trimEnd (trimStart s).

(** [String.prototype.toLowerCase] on strings of code units below 256 (Basic
    Latin and Latin-1), where it maps A-Z and the capitals U+00C0..U+00DE
    except the multiplication sign U+00D7, unit by unit.  On other strings the
    code's function also maps the capitals of every other script, which this
    definition leaves as they are: what is stated below about the case of a
    query is stated for strings of code units below 256. *)
Definition lowerUnit (c : N) : N :=
  (if (65 <=? c) && (c <=? 90) then c + 32
   else if (192 <=? c) && (c <=? 222) && negb (c =? 215) then c + 32
   else c)%N.

Definition toLowerCase (s : jsstring) : jsstring := List.map lowerUnit s.

Fixpoint startsWith (s p : jsstring) : bool :=
  match p, s with
  | [], _ => true
  | _ :: _, [] => false
  | x :: p', y :: s' => (x =? y)%N && startsWith s' p'
  end.

(** [s.includes(needle)]. *)
Fixpoint includes (s needle : jsstring) : bool :=
  startsWith s needle ||
  match s with
  | [] => false
  | _ :: s' => includes s' needle
  end.

(** [s.split(sep)] for a separator of one code unit. *)
Fixpoint split (sep : N) (s : jsstring) : list jsstring :=
  match s with
  | [] => [[]]
  | c :: s' =>
      if (c =? sep)%N then [] :: split sep s'
      else match split sep s' with
           | p :: ps => (c :: p) :: ps
           | [] => [[c]]
           end
  end.

(** [s.replace(/\s+/g, ' ')]: every maximal run of white space becomes one
    space.  [inRun] tells that the unit before was white space. *)
Fixpoint collapseFrom (inRun : bool) (s : jsstring) : jsstring :=
  match s with
  | [] => []
  | c :: s' =>
      if isWhiteSpace c then
        if inRun then collapseFrom true s' else 32%N :: collapseFrom true s'
      else c :: collapseFrom false s'
  end.

Definition collapseWhiteSpace (s : jsstring) : jsstring := collapseFrom false s.

(** [s.substring(0, n)] *)
Definition substring0 (n : nat) (s : jsstring) : jsstring := firstn n s.

End JsString.

Import JsString.

(* ================================================================== *)
(** ** An insertion-ordered [Map] *)
(* ================================================================== *)

Module JsMap.
Section JsMap.
Context {V : Type}.

Definition t : Type := list (jsstring * V).

Fixpoint get (k : jsstring) (m : t) : option V :=
  match m with
  | [] => None
  | (k', v) :: m' => if eqb k k' then Some v else get k m'
  end.

(** [Map.prototype.set]: an existing key keeps its position, a new key goes
    to the end. *)
Fixpoint set (k : jsstring) (v : V) (m : t) : t :=
  match m with
  | [] => [(k, v)]
  | (k', v') :: m' => if eqb k k' then (k', v) :: m' else (k', v') :: set k v m'
  end.

Fixpoint delete (k : jsstring) (m : t) : t :=
  match m with
  | [] => []
  | (k', v') :: m' => if eqb k k' then delete k m' else (k', v') :: delete k m'
  end.

Definition size (m : t) : Z := Z.of_nat (length m).

Definition keys (m : t) : list jsstring := List.map fst m.

Definition values (m : t) : list V := List.map snd m.

End JsMap.
Arguments t : clear implicits.
End JsMap.

(* ================================================================== *)
(** ** A plain object used as a table of counts *)
(* ================================================================== *)

(** The objects [stats.byEngine] and [stats.languageStats] start as [{}] and
    are only written by [o[name] = (o[name] || 0) + 1].  Such an object
    inherits from [Object.prototype], so that a name can be answered before
    it was ever written. *)
Module PlainObject.

(** The value of an own property: a number, or a string that does not read
    as a number (a function or an object, to which 1 was added). *)
Inductive value : Type :=
| Num (n : Z)
| Str.

(** The own properties, in the order of their creation. *)
Definition t : Type := JsMap.t value.

(** The properties of [Object.prototype]; all of them are truthy. *)
Definition inheritedNames : list jsstring :=
  [js "constructor"; js "__defineGetter__"; js "__defineSetter__";
   js "hasOwnProperty"; js "__lookupGetter__"; js "__lookupSetter__";
   js "isPrototypeOf"; js "propertyIsEnumerable"; js "toString";
   js "valueOf"; js "__proto__"; js "toLocaleString"].

Definition inherited (name : jsstring) : bool :=
  bool_decide (name ∈ inheritedNames).

(** [o[name] = (o[name] || 0) + 1].  A number goes up by one; a string stays
    a string.  A name that is not an own property is looked up in the
    prototype: an inherited function or object plus 1 is a string, which
    becomes an own property, except under [__proto__], whose setter ignores
    a string; any other name starts from 0. *)
Definition bump (name : jsstring) (o : t) : t :=
  match JsMap.get name o with
  | Some (Num n) => JsMap.set name (Num (n + 1)) o
  | Some Str => JsMap.set name Str o
  | None =>
      if inherited name then
        if eqb name (js "__proto__") then o else JsMap.set name Str o
      else JsMap.set name (Num 1) o
  end.

(** The number under an own property, 0 where there is none. *)
Definition count (name : jsstring) (o : t) : Z :=
  match JsMap.get name o with
  | Some (Num n) => n
  | _ => 0
  end.

Definition digit (c : N) : option N :=
  (if (48 <=? c) && (c <=? 57) then Some (c - 48) else None)%N.

Fixpoint digits (acc : N) (s : jsstring) : option N :=
  match s with
  | [] => Some acc
  | c :: s' =>
      match digit c with
      | Some d => digits (10 * acc + d) s'
      | None => None
      end
  end.

(** A property name that is an array index: the decimal text, without
    leading zeros, of an integer from 0 to 2^32 - 2. *)
Definition arrayIndex (name : jsstring) : option N :=
  match name with
  | [] => None
  | c :: rest =>
      if (c =? 48)%N && truthy rest then None
      else match digits 0 name with
           | Some n => if (n <? 4294967295)%N then Some n else None
           | None => None
           end
  end.

Fixpoint insertByIndex (x : N * (jsstring * value))
    (l : list (N * (jsstring * value))) : list (N * (jsstring * value)) :=
  match l with
  | [] => [x]
  | y :: l' =>
      if (fst x <=? fst y)%N then x :: y :: l' else y :: insertByIndex x l'
  end.

Definition indexed (o : t) : list (N * (jsstring * value)) :=
  fold_right (fun kv acc =>
                match arrayIndex (fst kv) with
                | Some i => insertByIndex (i, kv) acc
                | None => acc
                end) [] o.

Definition named (o : t) : t :=
  List.filter (fun kv => bool_decide (arrayIndex (fst kv) = None)) o.

(** [Object.entries(o)]: the array indices in ascending order, then the
    other names in the order of their creation. *)
Definition entries (o : t) : list (jsstring * value) :=
  List.map snd (indexed o) ++ named o.

End PlainObject.

(* ================================================================== *)
(** ** searchCache.js *)
(* ================================================================== *)

Module SearchCache.
Section SearchCache.
(** The cached payload and [calculateSize], which is
    [JSON.stringify(data).length] (or 1000 when serialisation throws). *)
Variable A : Type.
Variable calculateSize : A -> Z.

Record entry : Type := Entry {
  data : A;
  createdAt : Z;
  lastAccessed : Z;
  expiresAt : Z;
  size : Z
}.

Record t : Type := Cache {
  cache : JsMap.t entry;
  maxSize : Z;
  defaultTTL : Z
}.

Definition with_cache (f : JsMap.t entry -> JsMap.t entry) (c : t) : t :=
  {| cache := f (cache c); maxSize := maxSize c; defaultTTL := defaultTTL c |}.

(** The constructor: empty store, 100 entries, five minutes. *)
Definition new : t :=
  {| cache := []; maxSize := 100; defaultTTL := 5 * 60 * 1000 |}.

(** [generateCacheKey(engine, query, language)] *)
Definition generateCacheKey (engine query language : jsstring) : jsstring :=
  let normalizedQuery := trim (toLowerCase query) in
  engine ++ js ":" ++ language ++ js ":" ++ normalizedQuery.

Definition touch (now : Z) (e : entry) : entry :=
  {| data := data e; createdAt := createdAt e; lastAccessed := now;
     expiresAt := expiresAt e; size := size e |}.

(** [get(key)]: [None] is the [null] of a miss. *)
Definition get (now : Z) (key : jsstring) (c : t) : option A * t :=
  match JsMap.get key (cache c) with
  | None => (None, c)
  | Some e =>
      if now >? expiresAt e then (None, with_cache (JsMap.delete key) c)
      else (Some (data e), with_cache (JsMap.set key (touch now e)) c)
  end.

(** [ttl || this.defaultTTL] *)
Definition ttlOrDefault (ttl : option Z) (c : t) : Z :=
  match ttl with
  | Some x => if x =? 0 then defaultTTL c else x
  | None => defaultTTL c
  end.

(** [evictLRU()]: the scan starts from [Date.now()] and keeps the first
    entry that is strictly older than everything seen so far. *)
Definition lruStep (acc : option jsstring * Z) (ke : jsstring * entry)
  : option jsstring * Z :=
  if lastAccessed (snd ke) <? snd acc
  then (Some (fst ke), lastAccessed (snd ke))
  else acc.

Definition lruScan (now : Z) (m : JsMap.t entry) : option jsstring * Z :=
  fold_left lruStep m (None, now).

Definition evictLRU (now : Z) (c : t) : t :=
  match fst (lruScan now (cache c)) with
  | Some oldestKey =>
      if truthy oldestKey then with_cache (JsMap.delete oldestKey) c else c
  | None => c
  end.

(** [set(key, data, ttl = null)] *)
Definition set (now : Z) (key : jsstring) (d : A) (ttl : option Z) (c : t) : t :=
  let e := {| data := d; createdAt := now; lastAccessed := now;
              expiresAt := now + ttlOrDefault ttl c;
              size := calculateSize d |} in
  let c1 := if JsMap.size (cache c) >=? maxSize c then evictLRU now c else c in
  with_cache (JsMap.set key e) c1.

(** [delete(key)] *)
Definition delete (key : jsstring) (c : t) : bool * t :=
  (bool_decide (is_Some (JsMap.get key (cache c))),
   with_cache (JsMap.delete key) c).

(** [clear()] *)
Definition clear (c : t) : t := with_cache (fun _ => []) c.

(** [has(key)] *)
Definition has (now : Z) (key : jsstring) (c : t) : bool * t :=
  match JsMap.get key (cache c) with
  | None => (false, c)
  | Some e =>
      if now >? expiresAt e then (false, with_cache (JsMap.delete key) c)
      else (true, c)
  end.

Definition expired (now : Z) (e : entry) : bool := now >? expiresAt e.

(** [cleanup()]: every expired entry is deleted. *)
Definition cleanup (now : Z) (c : t) : t :=
  with_cache (List.filter (fun ke => negb (expired now (snd ke)))) c.

(** [calculateHitRate()]; the quotient is exact here, a double in the
    source. *)
Definition calculateHitRate (now : Z) (c : t) : Q :=
  let validEntries :=
    Z.of_nat (length (List.filter (fun e => now <=? expiresAt e)
                                  (JsMap.values (cache c)))) in
  if JsMap.size (cache c) >? 0
  then ((inject_Z validEntries / inject_Z (JsMap.size (cache c)))
        * inject_Z 100)%Q
  else 0%Q.

Record memoryUsage : Type := MemoryUsage {
  used : Z;
  percentage : Q
}.

(** [getMemoryUsage()] *)
Definition getMemoryUsage (c : t) : memoryUsage :=
  {| used := fold_left (fun acc e => acc + size e) (JsMap.values (cache c)) 0;
     percentage :=
       if maxSize c >? 0
       then ((inject_Z (JsMap.size (cache c)) / inject_Z (maxSize c))
             * inject_Z 100)%Q
       else 0%Q |}.

Record stats : Type := Stats {
  totalEntries : Z;
  validEntries : Z;
  expiredEntries : Z;
  totalSize : Z;
  statsMaxSize : Z;
  hitRate : Q;
  memory : memoryUsage
}.

(** The counting loop of [getStats()]: (totalSize, expiredCount, validCount). *)
Definition statsStep (now : Z) (acc : Z * Z * Z) (ke : jsstring * entry)
  : Z * Z * Z :=
  let '(totalSize, expiredCount, validCount) := acc in
  if now >? expiresAt (snd ke)
  then (totalSize + size (snd ke), expiredCount + 1, validCount)
  else (totalSize + size (snd ke), expiredCount, validCount + 1).

(** [getStats()] *)
Definition getStats (now : Z) (c : t) : stats :=
  let '(totalSize, expiredCount, validCount) :=
    fold_left (statsStep now) (cache c) (0, 0, 0) in
  {| totalEntries := JsMap.size (cache c);
     validEntries := validCount;
     expiredEntries := expiredCount;
     totalSize := totalSize;
     statsMaxSize := maxSize c;
     hitRate := calculateHitRate now c;
     memory := getMemoryUsage c |}.

(** [updateSettings(settings)], the two settings that concern the store. *)
Definition updateSettings (newMaxSize newDefaultTTL : option Z) (c : t) : t :=
  let keep (o : option Z) (old : Z) :=
    match o with
    | Some x => if (negb (x =? 0)) && (x >? 0) then x else old
    | None => old
    end in
  {| cache := cache c;
     maxSize := keep newMaxSize (maxSize c);
     defaultTTL := keep newDefaultTTL (defaultTTL c) |}.

Record exportedEntry : Type := Exported {
  x_key : jsstring;
  x_data : A;
  x_createdAt : Z;
  x_expiresAt : Z
}.

(** [export()]: the entries that are still valid. *)
Definition export (now : Z) (c : t) : list exportedEntry :=
  List.map (fun ke => {| x_key := fst ke; x_data := data (snd ke);
                         x_createdAt := createdAt (snd ke);
                         x_expiresAt := expiresAt (snd ke) |})
           (List.filter (fun ke => now <=? expiresAt (snd ke)) (cache c)).

(** [import(exportData)], for a well-formed [exportData.entries]: a valid
    entry goes straight into the store. *)
Definition importStep (now : Z) (acc : Z * t) (x : exportedEntry) : Z * t :=
  if now <=? x_expiresAt x then
    let e := {| data := x_data x; createdAt := x_createdAt x;
                lastAccessed := now; expiresAt := x_expiresAt x;
                size := calculateSize (x_data x) |} in
    (fst acc + 1, with_cache (JsMap.set (x_key x) e) (snd acc))
  else acc.

Definition import (now : Z) (entries : list exportedEntry) (c : t) : Z * t :=
  fold_left (importStep now) entries (0, c).

(** [clearEngine(engine)]: the keys that start with the engine and a colon
    go; the number of deleted entries is returned. *)
Definition ofEngine (engine : jsstring) (ke : jsstring * entry) : bool :=
  startsWith (fst ke) (engine ++ js ":").

Definition clearEngine (engine : jsstring) (c : t) : Z * t :=
  (Z.of_nat (length (List.filter (ofEngine engine) (cache c))),
   with_cache (List.filter (fun ke => negb (ofEngine engine ke))) c).

(** [clearLanguage(language)]: the keys whose second part, once split at the
    colons, is the language. *)
Definition ofLanguage (language : jsstring) (ke : jsstring * entry) : bool :=
  match split 58 (fst ke) with
  | _ :: part :: _ => eqb part language
  | _ => false
  end.

Definition clearLanguage (language : jsstring) (c : t) : Z * t :=
  (Z.of_nat (length (List.filter (ofLanguage language) (cache c))),
   with_cache (List.filter (fun ke => negb (ofLanguage language ke))) c).

(** [destroy()], the timer apart. *)
Definition destroy (c : t) : t := clear c.

(** The operations of the store, each with the clock reading it is run at. *)
Inductive op : Type :=
| OpSet (now : Z) (key : jsstring) (d : A) (ttl : option Z)
| OpGet (now : Z) (key : jsstring)
| OpHas (now : Z) (key : jsstring)
| OpDelete (key : jsstring)
| OpClear
| OpImport (now : Z) (entries : list exportedEntry)
| OpCleanup (now : Z).

Definition run (o : op) (c : t) : t :=
  match o with
  | OpSet now key d ttl => set now key d ttl c
  | OpGet now key => snd (get now key c)
  | OpHas now key => snd (has now key c)
  | OpDelete key => snd (delete key c)
  | OpClear => clear c
  | OpImport now entries => snd (import now entries c)
  | OpCleanup now => cleanup now c
  end.

Definition runAll (ops : list op) (c : t) : t :=
  fold_left (fun c o => run o c) ops c.

Definition holds (key : jsstring) (c : t) : bool :=
  bool_decide (is_Some (JsMap.get key (cache c))).

End SearchCache.

Arguments Entry {A}.
Arguments data {A}.
Arguments createdAt {A}.
Arguments lastAccessed {A}.
Arguments expiresAt {A}.
Arguments size {A}.
Arguments Cache {A}.
Arguments cache {A}.
Arguments maxSize {A}.
Arguments defaultTTL {A}.
Arguments with_cache {A}.
Arguments new {A}.
Arguments touch {A}.
Arguments get {A}.
Arguments ttlOrDefault {A}.
Arguments lruStep {A}.
Arguments lruScan {A}.
Arguments evictLRU {A}.
Arguments set {A}.
Arguments delete {A}.
Arguments clear {A}.
Arguments has {A}.
Arguments expired {A}.
Arguments cleanup {A}.
Arguments calculateHitRate {A}.
Arguments getMemoryUsage {A}.
Arguments getStats {A}.
Arguments updateSettings {A}.
Arguments export {A}.
Arguments import {A}.
Arguments holds {A}.
Arguments run {A}.
Arguments runAll {A}.
Arguments OpSet {A}.
Arguments OpGet {A}.
Arguments OpHas {A}.
Arguments OpDelete {A}.
Arguments OpClear {A}.
Arguments OpImport {A}.
Arguments OpCleanup {A}.
Arguments ofEngine {A}.
Arguments clearEngine {A}.
Arguments ofLanguage {A}.
Arguments clearLanguage {A}.
Arguments destroy {A}.
Arguments Exported {A}.
Arguments x_key {A}.
Arguments x_data {A}.
Arguments x_createdAt {A}.
Arguments x_expiresAt {A}.

End SearchCache.

(* ================================================================== *)
(** ** errorHandler.js *)
(* ================================================================== *)

(** A thrown [Error]: its [name], its [message] and the optional [status]
    ([None] when the property is absent).  What the adapters and [fetch]
    throw are [Error] objects, so a message is always there. *)
Module JsError.
Record t : Type := Err {
  name : jsstring;
  message : jsstring;
  status : option Z
}.

(** [new Error(msg)] *)
Definition Error (msg : jsstring) : t :=
  {| name := js "Error"; message := msg; status := None |}.
End JsError.

(** The [type] of an error record.  The source has no type called
    unavailable; its platform-level denial is [cors]. *)
Inductive errorType : Type :=
| network | api | parsing | cors | timeout | general.

Global Instance errorType_eq_dec : EqDecision errorType.
Proof. solve_decision. Defined.

(** The record built by the [handle...Error] methods.  [shouldRetry] is
    [false] and [retryDelay] is [None] while the properties are not set.
    The time stamp and the message shown to the user, which no decision of
    the engine reads, are left out. *)
Module ErrorInfo.
Record t : Type := Info {
  type : errorType;
  engine : jsstring;
  message : jsstring;
  statusCode : option Z;
  shouldRetry : bool;
  retryDelay : option Z
}.
End ErrorInfo.

Module ErrorHandler.

Record t : Type := Handler {
  errorLog : list ErrorInfo.t;
  maxLogSize : Z;
  retryAttempts : gmap jsstring nat;
  maxRetries : nat
}.

Definition new : t :=
  {| errorLog := []; maxLogSize := 100; retryAttempts := ∅; maxRetries := 3 |}.

Definition with_log (f : list ErrorInfo.t -> list ErrorInfo.t) (h : t) : t :=
  {| errorLog := f (errorLog h); maxLogSize := maxLogSize h;
     retryAttempts := retryAttempts h; maxRetries := maxRetries h |}.

Definition with_attempts (f : gmap jsstring nat -> gmap jsstring nat) (h : t) : t :=
  {| errorLog := errorLog h; maxLogSize := maxLogSize h;
     retryAttempts := f (retryAttempts h); maxRetries := maxRetries h |}.

(** [logError(errorInfo)]: push, then drop the oldest record when the log
    is over its size. *)
Definition logError (info : ErrorInfo.t) (h : t) : t :=
  with_log (fun l =>
    let l' := l ++ [info] in
    if Z.of_nat (length l') >? maxLogSize h then tl l' else l') h.

Definition plain (ty : errorType) (engine : jsstring) (error : JsError.t)
  : ErrorInfo.t :=
  {| ErrorInfo.type := ty; ErrorInfo.engine := engine;
     ErrorInfo.message := JsError.message error;
     ErrorInfo.statusCode := None;
     ErrorInfo.shouldRetry := false; ErrorInfo.retryDelay := None |}.

Definition handleNetworkError (error : JsError.t) (engine : jsstring) (h : t)
  : ErrorInfo.t * t :=
  let errorInfo := plain network engine error in
  (errorInfo, logError errorInfo h).

(** [error.status], when it is a truthy number. *)
Definition truthyStatus (error : JsError.t) : option Z :=
  match JsError.status error with
  | Some x => if x =? 0 then None else Some x
  | None => None
  end.

Definition handleAPIError (error : JsError.t) (engine : jsstring) (h : t)
  : ErrorInfo.t * t :=
  let errorInfo :=
    {| ErrorInfo.type := api; ErrorInfo.engine := engine;
       ErrorInfo.message := JsError.message error;
       ErrorInfo.statusCode := truthyStatus error;
       ErrorInfo.shouldRetry := false; ErrorInfo.retryDelay := None |} in
  (errorInfo, logError errorInfo h).

Definition handleParsingError (error : JsError.t) (engine : jsstring) (h : t)
  : ErrorInfo.t * t :=
  let errorInfo := plain parsing engine error in
  (errorInfo, logError errorInfo h).

Definition handleCORSError (error : JsError.t) (engine : jsstring) (h : t)
  : ErrorInfo.t * t :=
  let errorInfo := plain cors engine error in
  (errorInfo, logError errorInfo h).

Definition handleTimeoutError (error : JsError.t) (engine : jsstring) (h : t)
  : ErrorInfo.t * t :=
  let errorInfo := plain timeout engine error in
  (errorInfo, logError errorInfo h).

Definition handleGeneralError (error : JsError.t) (engine : jsstring) (h : t)
  : ErrorInfo.t * t :=
  let errorInfo :=
    {| ErrorInfo.type := general; ErrorInfo.engine := engine;
       ErrorInfo.message :=
         if truthy (JsError.message error) then JsError.message error
         else js "Unknown error";
       ErrorInfo.statusCode := None;
       ErrorInfo.shouldRetry := false; ErrorInfo.retryDelay := None |} in
  (errorInfo, logError errorInfo h).

(** [this.retryAttempts.get(engine) || 0] *)
Definition currentAttempts (engine : jsstring) (h : t) : nat :=
  default 0%nat (retryAttempts h !! engine).

Definition retryableErrors : list errorType := [network; timeout; api].

(** [shouldRetry(engine, errorType)] *)
Definition shouldRetry (engine : jsstring) (ty : errorType) (h : t) : bool :=
  if negb (bool_decide (ty ∈ retryableErrors)) then false
  else (currentAttempts engine h <? maxRetries h)%nat.

(** [recordRetryAttempt(engine)] *)
Definition recordRetryAttempt (engine : jsstring) (h : t) : t :=
  with_attempts (insert engine (currentAttempts engine h + 1)%nat) h.

(** [resetRetryAttempts(engine)] *)
Definition resetRetryAttempts (engine : jsstring) (h : t) : t :=
  with_attempts (base.delete engine) h.

(** The back-off after [attempts] recorded retries:
    [Math.min(1000 * Math.pow(2, attempts), 10000)]. *)
Definition backoff (attempts : nat) : Z :=
  Z.min (1000 * 2 ^ Z.of_nat attempts) 10000.

(** [getRetryDelay(engine)] *)
Definition getRetryDelay (engine : jsstring) (h : t) : Z :=
  backoff (currentAttempts engine h).

(** [clearErrorLog()] *)
Definition clearErrorLog (h : t) : t :=
  {| errorLog := []; maxLogSize := maxLogSize h;
     retryAttempts := ∅; maxRetries := maxRetries h |}.

(** The branch of [handleEngineError] an error falls into. *)
Definition classify (error : JsError.t) : errorType :=
  if eqb (JsError.name error) (js "AbortError")
     || includes (JsError.message error) (js "timeout") then timeout
  else if includes (JsError.message error) (js "CORS")
          || eqb (JsError.name error) (js "TypeError") then cors
  else if includes (JsError.message error) (js "Failed to fetch")
          || includes (JsError.message error) (js "Network") then network
  else if bool_decide (is_Some (truthyStatus error)) then api
  else general.

(** The record is the object that [logError] pushed: setting
    [shouldRetry] and [retryDelay] on it afterwards shows in the log too. *)
Fixpoint updateLast (info : ErrorInfo.t) (l : list ErrorInfo.t) : list ErrorInfo.t :=
  match l with
  | [] => []
  | [_] => [info]
  | x :: l' => x :: updateLast info l'
  end.

(** [handleEngineError(error, engine)] *)
Definition handleEngineError (error : JsError.t) (engine : jsstring) (h : t)
  : ErrorInfo.t * t :=
  let '(errorInfo, h1) :=
    match classify error with
    | timeout => handleTimeoutError error engine h
    | cors => handleCORSError error engine h
    | network => handleNetworkError error engine h
    | api => handleAPIError error engine h
    | _ => handleGeneralError error engine h
    end in
  if shouldRetry engine (ErrorInfo.type errorInfo) h1 then
    let marked :=
      {| ErrorInfo.type := ErrorInfo.type errorInfo;
         ErrorInfo.engine := ErrorInfo.engine errorInfo;
         ErrorInfo.message := ErrorInfo.message errorInfo;
         ErrorInfo.statusCode := ErrorInfo.statusCode errorInfo;
         ErrorInfo.shouldRetry := true;
         ErrorInfo.retryDelay := Some (getRetryDelay engine h1) |} in
    (marked, with_log (updateLast marked) h1)
  else (errorInfo, h1).

(** The counters of [getErrorStats]: [(stats.byType[t] || 0) + 1] and the
    same per engine. *)
Fixpoint bumpType (ty : errorType) (l : list (errorType * Z))
  : list (errorType * Z) :=
  match l with
  | [] => [(ty, 1)]
  | (ty', n) :: l' =>
      if bool_decide (ty' = ty) then (ty', n + 1) :: l'
      else (ty', n) :: bumpType ty l'
  end.

Fixpoint countOfType (ty : errorType) (l : list (errorType * Z)) : Z :=
  match l with
  | [] => 0
  | (ty', n) :: l' => if bool_decide (ty' = ty) then n else countOfType ty l'
  end.


(** [array.slice(-n)] *)
Definition lastN {X : Type} (n : nat) (l : list X) : list X :=
  skipn (length l - n) l.

Record errorStats : Type := ErrorStats {
  total : Z;
  byType : list (errorType * Z);
  byEngine : PlainObject.t;
  recent : list ErrorInfo.t
}.

Definition statsStep (acc : list (errorType * Z) * PlainObject.t)
    (error : ErrorInfo.t) : list (errorType * Z) * PlainObject.t :=
  (bumpType (ErrorInfo.type error) (fst acc),
   if truthy (ErrorInfo.engine error)
   then PlainObject.bump (ErrorInfo.engine error) (snd acc) else snd acc).

(** [getErrorStats()].  The keys of [byType] are the six type names, none of
    which is inherited, so it is kept as a list of counts in the order in
    which the types were first met; [byEngine], whose keys are engine names,
    is the plain object. *)
Definition getErrorStats (h : t) : errorStats :=
  let counts := fold_left statsStep (errorLog h) ([], []) in
  {| total := Z.of_nat (length (errorLog h));
     byType := fst counts;
     byEngine := snd counts;
     recent := lastN 10 (errorLog h) |}.

(** [getMostProblematicEngine(engineStats)]: the loop over
    [Object.entries(engineStats)].  A string is above no number
    ([count > maxErrors] is false for it). *)
Definition problematicStep (acc : Z * option jsstring)
    (ec : jsstring * PlainObject.value) : Z * option jsstring :=
  match snd ec with
  | PlainObject.Num count =>
      if count >? fst acc then (count, Some (fst ec)) else acc
  | PlainObject.Str => acc
  end.

Definition getMostProblematicEngine (engineStats : PlainObject.t)
  : option jsstring :=
  snd (fold_left problematicStep (PlainObject.entries engineStats) (0, None)).

Definition checkNetwork : jsstring :=
  [12493; 12483; 12488; 12527; 12540; 12463; 25509; 32154; 12434; 30906;
   35469; 12375; 12390; 12367; 12384; 12373; 12356]%N.

Definition considerProxy : jsstring :=
  [12503; 12525; 12461; 12471; 12469; 12540; 12496; 12540; 12398; 20351;
   29992; 12434; 26908; 35342; 12375; 12390; 12367; 12384; 12373; 12356]%N.

Definition adjustTimeout : jsstring :=
  [12479; 12452; 12512; 12450; 12454; 12488; 26178; 38291; 12398; 35519;
   25972; 12434; 26908; 35342; 12375; 12390; 12367; 12384; 12373; 12356]%N.

(** [getHealthRecommendations(stats)]; a type that was never counted is
    [undefined], which is above no threshold. *)
Definition getHealthRecommendations (stats : errorStats) : list jsstring :=
  (if countOfType network (byType stats) >? 5 then [checkNetwork] else [])
  ++ (if countOfType cors (byType stats) >? 3 then [considerProxy] else [])
  ++ (if countOfType timeout (byType stats) >? 3 then [adjustTimeout] else []).

Record health : Type := Health {
  healthy : bool;
  recentErrorCount : Z;
  totalErrorCount : Z;
  mostProblematicEngine : option jsstring;
  recommendations : list jsstring
}.

(** [performHealthCheck()] *)
Definition performHealthCheck (h : t) : health :=
  let stats := getErrorStats h in
  let recentErrors := Z.of_nat (length (recent stats)) in
  {| healthy := recentErrors <? 5;
     recentErrorCount := recentErrors;
     totalErrorCount := total stats;
     mostProblematicEngine := getMostProblematicEngine (byEngine stats);
     recommendations := getHealthRecommendations stats |}.

End ErrorHandler.


(* ================================================================== *)
(** ** JavaScript values, for the untyped part of the manager *)
(* ================================================================== *)

(** [processSearchResults] reads properties off whatever object it is handed;
    that part is modelled on untyped values. *)
Module JsVal.

#[warnings="-register-all"]
Inductive t : Type :=
| JUndefined
| JNull
| JBool (b : bool)
| JNum (z : Z)
| JStr (s : jsstring)
| JArr (items : list t)
| JObj (fields : list (string * t)).

Definition truthy (v : t) : bool :=
  match v with
  | JUndefined | JNull => false
  | JBool b => b
  | JNum z => negb (z =? 0)
  | JStr s => JsString.truthy s
  | JArr _ | JObj _ => true
  end.

Fixpoint lookup (p : string) (fields : list (string * t)) : t :=
  match fields with
  | [] => JUndefined
  | (p', v) :: fields' => if String.eqb p p' then v else lookup p fields'
  end.

(** [v.p]; only evaluated on objects by the code below. *)
Definition prop (v : t) (p : string) : t :=
  match v with
  | JObj fields => lookup p fields
  | _ => JUndefined
  end.

(** [a || b] and [a && b] *)
Definition or (a b : t) : t := if truthy a then a else b.
Definition and (a b : t) : t := if truthy a then b else a.

(** [v === 'text'] *)
Definition isStr (v : t) (s : jsstring) : bool :=
  match v with
  | JStr s' => eqb s' s
  | _ => false
  end.

(** [v.length] of an array. *)
Definition length (v : t) : Z :=
  match v with
  | JArr items => Z.of_nat (List.length items)
  | _ => 0
  end.

(** The key under which [obj[v] = ...] stores. *)
Definition toPropertyKey (v : t) : jsstring :=
  match v with
  | JStr s => s
  | JUndefined => js "undefined"
  | JNull => js "null"
  | _ => js "[object]"
  end.

Definition ofOption (o : option Z) : t :=
  match o with Some z => JNum z | None => JNull end.

End JsVal.

(* ================================================================== *)
(** ** searchManager.js *)
(* ================================================================== *)

(** What an adapter's [search] resolves with. *)
Module SearchResult.
Import JsVal.

Record item : Type := Item {
  title : jsstring;
  url : jsstring;
  snippet : jsstring;
  displayUrl : jsstring
}.

Record t : Type := Result {
  engine : jsstring;
  query : jsstring;
  language : jsstring;
  results : list item;
  totalResults : Z;
  responseTime : Z;
  status : jsstring
}.

Definition itemToJs (i : item) : JsVal.t :=
  JObj [("title"%string, JStr (title i)); ("url"%string, JStr (url i));
        ("snippet"%string, JStr (snippet i));
        ("displayUrl"%string, JStr (displayUrl i))].

Definition toJs (r : t) : JsVal.t :=
  JObj [("engine"%string, JStr (engine r)); ("query"%string, JStr (query r));
        ("language"%string, JStr (language r));
        ("results"%string, JArr (List.map itemToJs (results r)));
        ("totalResults"%string, JNum (totalResults r));
        ("responseTime"%string, JNum (responseTime r));
        ("status"%string, JStr (status r))].

End SearchResult.

Module SearchManager.
Import JsVal.

Definition errorTypeName (ty : errorType) : jsstring :=
  match ty with
  | network => js "network" | api => js "api" | parsing => js "parsing"
  | cors => js "cors" | timeout => js "timeout" | general => js "general"
  end.

Definition errorInfoToJs (i : ErrorInfo.t) : JsVal.t :=
  JObj ([("type"%string, JStr (errorTypeName (ErrorInfo.type i)));
         ("engine"%string, JStr (ErrorInfo.engine i));
         ("message"%string, JStr (ErrorInfo.message i))]
        ++ (if bool_decide (ErrorInfo.type i = api)
            then [("statusCode"%string, ofOption (ErrorInfo.statusCode i))]
            else [])
        ++ (if ErrorInfo.shouldRetry i
            then [("shouldRetry"%string, JBool true);
                  ("retryDelay"%string, ofOption (ErrorInfo.retryDelay i))]
            else [])).

(** What [searchEngineWithErrorHandling] returns: the object
    [{engine, status: 'fulfilled', value}] or [{engine, status: 'rejected',
    reason}]. *)
Inductive engineOutcome : Type :=
| Fulfilled (engine : jsstring) (value : SearchResult.t)
| Rejected (engine : jsstring) (reason : ErrorInfo.t).

Definition outcomeToJs (o : engineOutcome) : JsVal.t :=
  match o with
  | Fulfilled engine value =>
      JObj [("engine"%string, JStr engine);
            ("status"%string, JStr (js "fulfilled"));
            ("value"%string, SearchResult.toJs value)]
  | Rejected engine reason =>
      JObj [("engine"%string, JStr engine);
            ("status"%string, JStr (js "rejected"));
            ("reason"%string, errorInfoToJs reason)]
  end.

(** [Promise.allSettled] on a promise that resolved with [v].  The promises
    of [searchEngineWithErrorHandling] always resolve: its [catch] block
    returns an object or the promise of [retrySearch]. *)
Definition settledFulfilled (v : JsVal.t) : JsVal.t :=
  JObj [("status"%string, JStr (js "fulfilled")); ("value"%string, v)].

(** What the manager does to the outside world. *)
Inductive event : Type :=
| CacheLookup (engine key : jsstring)
| SearchInvoked (engine query language : jsstring)
| TimerSet (engine : jsstring) (delay : Z)
| DisplayResults (engine : jsstring) (r : SearchResult.t)
| DisplayError (engine : jsstring) (info : ErrorInfo.t).

Inductive searchOutcome : Type :=
| Resolved (r : SearchResult.t)
| Thrown (e : JsError.t).

(** A provider as the manager sees it during one resolution.  The optional
    [checkRateLimit] and [isAvailable] are absent when [None]; their answers
    and the outcome of [search] are given per attempt, numbered from 0, and
    [latency] is the time the [n]-th [search] takes to settle. *)
Record adapter : Type := Adapter {
  checkRateLimit : option (nat -> bool);
  isAvailable : option (nat -> bool);
  search : jsstring -> jsstring -> nat -> searchOutcome;
  latency : nat -> Z
}.

Record mstate : Type := MState {
  cache : SearchCache.t SearchResult.t;
  errorHandler : ErrorHandler.t;
  clock : Z;
  trace : list event
}.

Definition emit (ev : event) (s : mstate) : mstate :=
  {| cache := cache s; errorHandler := errorHandler s; clock := clock s;
     trace := trace s ++ [ev] |}.

Definition setCache (c : SearchCache.t SearchResult.t) (s : mstate) : mstate :=
  {| cache := c; errorHandler := errorHandler s; clock := clock s;
     trace := trace s |}.

Definition setHandler (h : ErrorHandler.t) (s : mstate) : mstate :=
  {| cache := cache s; errorHandler := h; clock := clock s; trace := trace s |}.

Definition tick (d : Z) (s : mstate) : mstate :=
  {| cache := cache s; errorHandler := errorHandler s; clock := clock s + d;
     trace := trace s |}.

(** Where a resolution stands when control goes back to the event loop. *)
Inductive suspended : Type :=
| Settled (o : engineOutcome)
| AwaitSearch
| AwaitTimer (delay : Z).

(** [retrySearch(engine, query, language, delay)] up to its [await]. *)
Definition retrySearch (engine : jsstring) (delay : Z) (s : mstate)
  : suspended * mstate :=
  let s1 := setHandler (ErrorHandler.recordRetryAttempt engine (errorHandler s)) s in
  (AwaitTimer delay, emit (TimerSet engine delay) s1).

(** The [catch] block of [searchEngineWithErrorHandling]. *)
Definition catchError (engine : jsstring) (error : JsError.t) (s : mstate)
  : suspended * mstate :=
  let '(errorInfo, h) :=
    ErrorHandler.handleEngineError error engine (errorHandler s) in
  let s1 := emit (DisplayError engine errorInfo) (setHandler h s) in
  if ErrorInfo.shouldRetry errorInfo then
    retrySearch engine (default 0 (ErrorInfo.retryDelay errorInfo)) s1
  else (Settled (Rejected engine errorInfo), s1).

Definition rateLimitMessage : jsstring :=
  [12524; 12540; 12488; 21046; 38480; 12395; 36948; 12375; 12414; 12375;
   12383]%N.

Definition unavailableMessage : jsstring :=
  [26908; 32034; 12456; 12531; 12472; 12531; 12364; 21033; 29992; 12391;
   12365; 12414; 12379; 12435]%N.

Definition emptyQueryMessage : jsstring :=
  [26908; 32034; 12463; 12456; 12522; 12364; 31354; 12391; 12377]%N.

(** [adapter.check && !adapter.check()] at attempt [n]. *)
Definition refuses (check : option (nat -> bool)) (n : nat) : bool :=
  match check with
  | Some f => negb (f n)
  | None => false
  end.

(** [searchEngineWithErrorHandling] from its entry to its first [await]:
    cache check, rate limit, availability, then the call of
    [adapter.search].  The engine is a key of [this.adapters], so the guard
    on a missing adapter is not taken; a cached result is an object, hence
    truthy. *)
Definition attemptSync (engine : jsstring) (ad : adapter)
    (query language : jsstring) (n : nat) (s : mstate) : suspended * mstate :=
  let cacheKey := SearchCache.generateCacheKey engine query language in
  let '(cachedResult, c) := SearchCache.get (clock s) cacheKey (cache s) in
  let s1 := emit (CacheLookup engine cacheKey) (setCache c s) in
  match cachedResult with
  | Some r =>
      (Settled (Fulfilled engine r), emit (DisplayResults engine r) s1)
  | None =>
      if refuses (checkRateLimit ad) n then
        catchError engine (JsError.Error rateLimitMessage) s1
      else if refuses (isAvailable ad) n then
        catchError engine (JsError.Error unavailableMessage) s1
      else (AwaitSearch, emit (SearchInvoked engine query language) s1)
  end.

(** How a call of an [async] function ends. *)
Inductive completion (R : Type) : Type :=
| Returned (r : R)
| Raised (e : JsError.t).
Arguments Returned {R}.
Arguments Raised {R}.

Section Manager.

Variable calculateSize : SearchResult.t -> Z.

(** The rest of the [try] block once [adapter.search] has settled. *)
Definition afterSearch (engine : jsstring) (ad : adapter)
    (query language : jsstring) (n : nat) (s : mstate) : suspended * mstate :=
  match search ad query language n with
  | Resolved result =>
      let cacheKey := SearchCache.generateCacheKey engine query language in
      let s1 :=
        setCache (SearchCache.set calculateSize (clock s) cacheKey result None
                                  (cache s)) s in
      let s2 :=
        setHandler (ErrorHandler.resetRetryAttempts engine (errorHandler s1)) s1 in
      (Settled (Fulfilled engine result), emit (DisplayResults engine result) s2)
  | Thrown error => catchError engine error s
  end.

(** One resolution, from a suspension point to its settlement.  While the
    task waits, time passes and the rest of the program runs: [env k] is what
    it does to the state during the [k]-th wait. *)
Fixpoint resume (fuel : nat) (env : nat -> mstate -> mstate)
    (engine : jsstring) (ad : adapter) (query language : jsstring)
    (n k : nat) (p : suspended) (s : mstate) : option (engineOutcome * mstate) :=
  match p with
  | Settled o => Some (o, s)
  | AwaitSearch =>
      match fuel with
      | O => None
      | S fuel' =>
          let '(p', s') :=
            afterSearch engine ad query language n (env k (tick (latency ad n) s)) in
          resume fuel' env engine ad query language n (S k) p' s'
      end
  | AwaitTimer delay =>
      match fuel with
      | O => None
      | S fuel' =>
          let '(p', s') :=
            attemptSync engine ad query language (S n) (env k (tick delay s)) in
          resume fuel' env engine ad query language (S n) (S k) p' s'
      end
  end.

(** [searchEngineWithErrorHandling(engine, query, language, searchId)] *)
Definition searchEngineWithErrorHandling (fuel : nat)
    (env : nat -> mstate -> mstate) (engine : jsstring) (ad : adapter)
    (query language : jsstring) (s : mstate) : option (engineOutcome * mstate) :=
  let '(p, s') := attemptSync engine ad query language 0 s in
  resume fuel env engine ad query language 0 0 p s'.

(** The object returned by [processSearchResults]; the time stamp is left
    out. *)
Record engineSlot : Type := Slot {
  status : jsstring;
  data : JsVal.t;
  error : JsVal.t;
  resultCount : Z;
  responseTime : JsVal.t
}.

Record summaryCounts : Type := Summary {
  total : Z;
  successful : Z;
  failed : Z;
  totalResults : Z
}.

Record processedResults : Type := Processed {
  query : jsstring;
  language : jsstring;
  totalTime : Z;
  engines : gmap jsstring engineSlot;
  summary : summaryCounts
}.

(** The body of [results.forEach(result => ...)]. *)
Definition processResult (acc : processedResults) (result : JsVal.t)
  : processedResults :=
  let engine :=
    or (prop result "engine")
       (and (prop result "value") (prop (prop result "value") "engine")) in
  if isStr (prop result "status") (js "fulfilled")
     && JsVal.truthy (prop result "value") then
    let value := prop result "value" in
    let count :=
      if JsVal.truthy (prop value "results")
      then JsVal.length (prop value "results") else 0 in
    {| query := query acc; language := language acc; totalTime := totalTime acc;
       engines :=
         <[toPropertyKey engine :=
             {| status := js "success"; data := value; error := JUndefined;
                resultCount := count;
                responseTime := or (prop value "responseTime") (JNum 0) |}]>
           (engines acc);
       summary :=
         {| total := total (summary acc);
            successful := successful (summary acc) + 1;
            failed := failed (summary acc);
            totalResults := totalResults (summary acc) + count |} |}
  else
    {| query := query acc; language := language acc; totalTime := totalTime acc;
       engines :=
         <[toPropertyKey engine :=
             {| status := js "error"; data := JUndefined;
                error := or (prop result "reason") (prop result "error");
                resultCount := 0; responseTime := JNum 0 |}]>
           (engines acc);
       summary :=
         {| total := total (summary acc);
            successful := successful (summary acc);
            failed := failed (summary acc) + 1;
            totalResults := totalResults (summary acc) |} |}.

(** [processSearchResults(results, query, language, totalTime)] *)
Definition processSearchResults (results : list JsVal.t)
    (q lang : jsstring) (time : Z) : processedResults :=
  fold_left processResult results
    {| query := q; language := lang; totalTime := time; engines := ∅;
       summary := {| total := Z.of_nat (List.length results); successful := 0;
                     failed := 0; totalResults := 0 |} |}.

(** [Object.keys(this.adapters).map(engine =>
    this.searchEngineWithErrorHandling(...))]: each call runs up to its
    first [await] before the next one starts. *)
Fixpoint fanOut (adapters : list (jsstring * adapter)) (q lang : jsstring)
    (s : mstate) : list (jsstring * adapter * suspended) * mstate :=
  match adapters with
  | [] => ([], s)
  | (engine, ad) :: rest =>
      let '(p, s1) := attemptSync engine ad q lang 0 s in
      let '(ps, s2) := fanOut rest q lang s1 in
      ((engine, ad, p) :: ps, s2)
  end.

(** Nothing else runs while a resolution waits. *)
Definition still : nat -> mstate -> mstate := fun _ s => s.

(** [await Promise.allSettled(searchPromises)], under the schedule in which
    the pending resolutions run to their settlement one after the other, in
    the order of the adapters.  The code lets them wait at the same time:
    what each resolution does and returns is the same, but the clock at the
    end, and with it [totalTime], is the one of this schedule, and nothing is
    stated below about either. *)
Fixpoint settleAll (fuel : nat) (pending : list (jsstring * adapter * suspended))
    (q lang : jsstring) (s : mstate) : option (list engineOutcome * mstate) :=
  match pending with
  | [] => Some ([], s)
  | (engine, ad, p) :: rest =>
      match resume fuel still engine ad q lang 0 0 p s with
      | None => None
      | Some (o, s1) =>
          match settleAll fuel rest q lang s1 with
          | None => None
          | Some (os, s2) => Some (o :: os, s2)
          end
      end
  end.

(** [searchAll(query, language)].  The bookkeeping of [activeSearches], the
    search history and the header links, which the result does not depend
    on, is left out.  [fuel] bounds the steps of each resolution. *)
Definition searchAll (fuel : nat) (adapters : list (jsstring * adapter))
    (q lang : jsstring) (s : mstate)
  : option (completion processedResults * mstate) :=
  if negb (JsString.truthy q) || eqb (trim q) [] then
    Some (Raised (JsError.Error emptyQueryMessage), s)
  else
    let startTime := clock s in
    let '(pending, s1) := fanOut adapters q lang s in
    match settleAll fuel pending q lang s1 with
    | None => None
    | Some (outcomes, s2) =>
        let results := List.map (fun o => settledFulfilled (outcomeToJs o)) outcomes in
        let time := clock s2 - startTime in
        Some (Returned (processSearchResults results q lang time), s2)
    end.

(** The state of a manager that has just been constructed. *)
Definition initial (now : Z) : mstate :=
  {| cache := SearchCache.new; errorHandler := ErrorHandler.new; clock := now;
     trace := [] |}.

(** Counting in a trace. *)
Definition isSearchOf (engine : jsstring) (ev : event) : bool :=
  match ev with
  | SearchInvoked e _ _ => eqb e engine
  | _ => false
  end.

Definition searchCount (engine : jsstring) (tr : list event) : nat :=
  List.length (List.filter (isSearchOf engine) tr).

Fixpoint delaysOf (engine : jsstring) (tr : list event) : list Z :=
  match tr with
  | [] => []
  | TimerSet e d :: tr' =>
      if eqb e engine then d :: delaysOf engine tr' else delaysOf engine tr'
  | _ :: tr' => delaysOf engine tr'
  end.

End Manager.

(** One line of [this.searchHistory]; the time stamp is left out. *)
Module History.
Record entry : Type := Entry {
  query : jsstring;
  language : jsstring;
  totalTime : Z;
  successfulEngines : Z;
  totalResults : Z
}.
End History.

(** [array.slice(0, n)]; a negative [n] counts from the end. *)
Definition slice0 {X : Type} (n : Z) (l : list X) : list X :=
  if n <? 0 then firstn (List.length l - Z.to_nat (- n)) l
  else firstn (Z.to_nat n) l.

Definition isSuccess (slot : engineSlot) : bool := eqb (status slot) (js "success").

(** [addToHistory(query, language, results, totalTime)] *)
Definition addToHistory (maxHistorySize : Z) (q lang : jsstring)
    (results : processedResults) (time : Z) (searchHistory : list History.entry)
  : list History.entry :=
  let historyEntry :=
    {| History.query := q; History.language := lang; History.totalTime := time;
       History.successfulEngines :=
         Z.of_nat (List.length
                     (List.filter (fun kv => isSuccess (snd kv))
                                  (map_to_list (engines results))));
       History.totalResults := totalResults (summary results) |} in
  let searchHistory := historyEntry :: searchHistory in
  if Z.of_nat (List.length searchHistory) >? maxHistorySize
  then slice0 maxHistorySize searchHistory
  else searchHistory.

Record engineStat : Type := EngineStat {
  successCount : Z;
  totalAttempts : Z;
  engineAverageResponseTime : Z
}.

Record searchStats : Type := SearchStats {
  totalSearches : Z;
  averageResponseTime : Z;
  engineStats : list (jsstring * engineStat);
  languageStats : PlainObject.t;
  recentSearches : list History.entry
}.

(** [Math.round(a / b)] for integers and [b] positive, the quotient taken
    exactly. *)
Definition roundedQuotient (a b : Z) : Z := (2 * a + b) / (2 * b).

Definition bumpLanguage (acc : PlainObject.t) (e : History.entry)
  : PlainObject.t :=
  PlainObject.bump (History.language e) acc.

(** [getSearchStats()]; [languageStats] is a plain object, as [byEngine] is
    in [getErrorStats]. *)
Definition getSearchStats (adapters : list (jsstring * adapter))
    (searchHistory : list History.entry) : searchStats :=
  if Z.of_nat (List.length searchHistory) >? 0 then
    let sum := fold_left (fun acc e => acc + History.totalTime e) searchHistory 0 in
    {| totalSearches := Z.of_nat (List.length searchHistory);
       averageResponseTime :=
         roundedQuotient sum (Z.of_nat (List.length searchHistory));
       engineStats :=
         List.map (fun a => (fst a, {| successCount := 0; totalAttempts := 0;
                                       engineAverageResponseTime := 0 |}))
                  adapters;
       languageStats := fold_left bumpLanguage searchHistory [];
       recentSearches := slice0 10 searchHistory |}
  else
    {| totalSearches := 0; averageResponseTime := 0; engineStats := [];
       languageStats := []; recentSearches := slice0 10 searchHistory |}.

End SearchManager.

(* ================================================================== *)
(** ** The adapters *)
(* ================================================================== *)

(** The code that the adapters share word for word: [checkRateLimit] and
    the error path of [search] in all six, [cleanText] in four of them. *)
Module SearchAdapter.

Definition requestKey (name : jsstring) : jsstring := name ++ js "_last_request".

(** [checkRateLimit()].  The item of [localStorage] is the decimal text of a
    clock reading, written with [now.toString()] and read back with
    [parseInt]; it is kept here as the number.  Such a text is not empty, so
    [lastRequest &&] holds whenever the item is there. *)
Definition checkRateLimit (name : jsstring) (now : Z) (storage : gmap jsstring Z)
  : bool * gmap jsstring Z :=
  match storage !! requestKey name with
  | Some lastRequest =>
      if now - lastRequest <? 1000 then (false, storage)
      else (true, <[requestKey name := now]> storage)
  | None => (true, <[requestKey name := now]> storage)
  end.

(** What happens inside the [try] block of [search]: the page is fetched and
    parsed, or an error is thrown on the way. *)
Inductive fetched : Type :=
| Parsed (results : list SearchResult.item) (responseTime : Z)
| Failed (error : JsError.t).

(** The error thrown for a response that is not [ok]; [status] is the decimal
    text of [response.status]. *)
Definition httpError (status statusText : jsstring) : JsError.t :=
  JsError.Error (js "HTTP " ++ status ++ js ": " ++ statusText).

Section Search.
(** The table of mock results of the adapter. *)
Variable getMockResults : jsstring -> jsstring -> SearchResult.t.

(** [search(query, language)], given what happened inside its [try] block. *)
Definition search (name query language : jsstring) (inner : fetched)
  : SearchManager.searchOutcome :=
  match inner with
  | Parsed results responseTime =>
      SearchManager.Resolved
        {| SearchResult.engine := name; SearchResult.query := query;
           SearchResult.language := language; SearchResult.results := results;
           SearchResult.totalResults := Z.of_nat (length results);
           SearchResult.responseTime := responseTime;
           SearchResult.status := js "success" |}
  | Failed error =>
      if includes (JsError.message error) (js "CORS")
         || eqb (JsError.name error) (js "TypeError")
      then SearchManager.Resolved (getMockResults query language)
      else SearchManager.Thrown error
  end.
End Search.

(** [cleanText(text)] of the Google, Bing and DuckDuckGo adapters (limit 200)
    and of the YouTube adapter (limit 100).  The Yahoo and Baidu adapters
    have variants with more replacements, which are not this function. *)
Definition cleanText (limit : nat) (text : jsstring) : jsstring :=
  if negb (truthy text) then []
  else substring0 limit (collapseWhiteSpace (trim text)).

End SearchAdapter.

Module YouTubeSearchAdapter.

Definition isDelimiter (c : N) : bool := ((c =? 63) || (c =? 38))%N.

(** The longest prefix without an ampersand: what [([^&]+)] captures. *)
Fixpoint untilAmpersand (s : jsstring) : jsstring :=
  match s with
  | [] => []
  | c :: s' => if (c =? 38)%N then [] else c :: untilAmpersand s'
  end.

(** [url.match(/[?&]v=([^&]+)/)]: the capture of the leftmost match, or the
    empty string when there is none. *)
Fixpoint firstVideoId (url : jsstring) : jsstring :=
  match url with
  | [] => []
  | c :: rest =>
      if isDelimiter c && startsWith rest (js "v=")
         && truthy (untilAmpersand (skipn 2 rest))
      then untilAmpersand (skipn 2 rest)
      else firstVideoId rest
  end.

(** [extractVideoId(url)] *)
Definition extractVideoId (url : jsstring) : jsstring :=
  if negb (truthy url) then [] else firstVideoId url.

(** [buildVideoUrl(videoId)] *)
Definition buildVideoUrl (videoId : jsstring) : jsstring :=
  if truthy videoId then js "https://www.youtube.com/watch?v=" ++ videoId else [].

(** [getDefaultThumbnail(videoId)] *)
Definition getDefaultThumbnail (videoId : jsstring) : jsstring :=
  if truthy videoId
  then js "https://img.youtube.com/vi/" ++ videoId ++ js "/mqdefault.jpg"
  else [].

End YouTubeSearchAdapter.

(* ================================================================== *)
(** ** The application *)
(* ================================================================== *)

Module MultiSearchApp.
Import SearchManager.

(** How [handleSearch] ends: the alert for an empty field, the result of the
    search, or the error record of its [catch] block. *)
Inductive handled : Type :=
| Alerted
| Completed (results : processedResults)
| Caught (info : ErrorInfo.t).

Section App.
Variable calculateSize : SearchResult.t -> Z.

(** [handleSearch()] on the text of the search field.  The calls into the
    user interface are left out; [handleGeneralError(error)] is called
    without an engine, which is the empty name here. *)
Definition handleSearch (fuel : nat) (adapters : list (jsstring * adapter))
    (field currentLanguage : jsstring) (s : mstate) : option (handled * mstate) :=
  let query := trim field in
  if negb (truthy query) then Some (Alerted, s)
  else
    match searchAll calculateSize fuel adapters query currentLanguage s with
    | None => None
    | Some (Returned results, s') => Some (Completed results, s')
    | Some (Raised error, s') =>
        let '(info, h) :=
          ErrorHandler.handleGeneralError error [] (errorHandler s') in
        Some (Caught info, setHandler h s')
    end.
End App.

End MultiSearchApp.

(* ================================================================== *)
(** ** Vocabulary of the properties *)
(* ================================================================== *)

Section Vocabulary.
Import ErrorHandler SearchManager.

(** An entry that has not expired at [now], and the number of such entries. *)
Definition validAt {A : Type} (now : Z) (e : SearchCache.entry A) : bool :=
  now <=? SearchCache.expiresAt e.

Definition validCount {A : Type} (now : Z) (m : JsMap.t (SearchCache.entry A)) : Z :=
  Z.of_nat (length (List.filter (validAt now) (JsMap.values m))).

(** The retry counter of a provider and the retry limit, in a manager state. *)
Definition attemptsOf (engine : jsstring) (s : mstate) : nat :=
  currentAttempts engine (errorHandler s).

Definition limitOf (s : mstate) : nat := maxRetries (errorHandler s).

(** The provider an event belongs to. *)
Definition eventEngine (ev : event) : jsstring :=
  match ev with
  | CacheLookup e _ | SearchInvoked e _ _ | TimerSet e _
  | DisplayResults e _ | DisplayError e _ => e
  end.

Definition outcomeEngine (o : engineOutcome) : jsstring :=
  match o with Fulfilled e _ | Rejected e _ => e end.

(** What the rest of the program may not do while a resolution of [engine]
    waits: touch the retry counter of [engine] or the retry limit, or act in
    the name of [engine]. *)
Definition sameView (engine : jsstring) (s s' : mstate) : Prop :=
  attemptsOf engine s' = attemptsOf engine s
  /\ limitOf s' = limitOf s
  /\ searchCount engine (trace s') = searchCount engine (trace s)
  /\ delaysOf engine (trace s') = delaysOf engine (trace s).

Definition foreign (env : nat -> mstate -> mstate) (engine : jsstring) : Prop :=
  forall k s, sameView engine s (env k s).

(** The steps a resolution still needs from a suspension point. *)
Definition need (engine : jsstring) (p : suspended) (s : mstate) : nat :=
  match p with
  | Settled _ => 0
  | AwaitSearch => 2 * (limitOf s - attemptsOf engine s) + 1
  | AwaitTimer _ => 2 * (limitOf s - attemptsOf engine s) + 2
  end.

Definition pendingSearch (p : suspended) : nat :=
  match p with AwaitTimer _ => 1 | _ => 0 end.

(** The cache holds nothing under the key of this provider and query. *)
Definition miss (engine query language : jsstring) (s : mstate) : Prop :=
  JsMap.get (SearchCache.generateCacheKey engine query language)
            (SearchCache.cache (cache s)) = None.

(** Every [search] of the provider fails with an error of a retryable type. *)
Definition alwaysFails (ad : adapter) (query language : jsstring) : Prop :=
  forall n, exists error,
    search ad query language n = Thrown error
    /\ classify error ∈ retryableErrors.

(** Neither check ever refuses. *)
Definition neverRefuses (ad : adapter) : Prop :=
  forall n, refuses (checkRateLimit ad) n = false
            /\ refuses (isAvailable ad) n = false.

(** A promise of the fan-out: the provider, its adapter, and where its
    resolution stands. *)
Definition pending : Type := jsstring * adapter * suspended.

Definition notTimer (x : pending) : Prop := forall d, x.2 <> AwaitTimer d.

(** A promise that is already settled carries an outcome of its own engine. *)
Definition tagged (x : pending) : Prop :=
  forall o, x.2 = Settled o -> outcomeEngine o = x.1.1.

Definition unsettled (x : pending) : Prop := forall o, x.2 <> Settled o.

(** The slot [processSearchResults] writes for the promise of one provider. *)
Definition slotOf (o : engineOutcome) : engineSlot :=
  {| status := js "success"; data := outcomeToJs o; error := JsVal.JUndefined;
     resultCount := 0; responseTime := JsVal.JNum 0 |}.

(** What [Promise.allSettled] hands over for the promise of one provider. *)
Definition wrap (o : engineOutcome) : JsVal.t := settledFulfilled (outcomeToJs o).

Definition keyOf (query language engine : jsstring) : jsstring :=
  SearchCache.generateCacheKey engine query language.

End Vocabulary.

(* ================================================================== *)
(** ** A concrete world for the examples *)
(* ================================================================== *)

Section World.
Import ErrorHandler SearchManager.

(** The size [calculateSize] falls back to. *)
Definition flatSize (_ : SearchResult.t) : Z := 1000.

Definition networkError : JsError.t := JsError.Error (js "Network error").

(** A provider without checks whose [search] always fails on the network. *)
Definition failing : adapter :=
  {| checkRateLimit := None; isAvailable := None;
     search := fun _ _ _ => Thrown networkError;
     latency := fun _ => 50 |}.

Definition hitsFor (engine q lang : jsstring) : SearchResult.t :=
  {| SearchResult.engine := engine; SearchResult.query := q;
     SearchResult.language := lang;
     SearchResult.results :=
       [{| SearchResult.title := js "Cats";
           SearchResult.url := js "https://example.org/cats";
           SearchResult.snippet := js "All about cats";
           SearchResult.displayUrl := js "example.org/cats" |}];
     SearchResult.totalResults := 1; SearchResult.responseTime := 120;
     SearchResult.status := js "success" |}.

(** A provider with both checks, which pass, whose [search] answers. *)
Definition answering (engine : jsstring) : adapter :=
  {| checkRateLimit := Some (fun _ => true);
     isAvailable := Some (fun _ => true);
     search := fun q lang _ => Resolved (hitsFor engine q lang);
     latency := fun _ => 120 |}.

(** A provider that reports itself unavailable. *)
Definition unavailable (engine : jsstring) : adapter :=
  {| checkRateLimit := None;
     isAvailable := Some (fun _ => false);
     search := fun q lang _ => Resolved (hitsFor engine q lang);
     latency := fun _ => 120 |}.

Definition providerA : jsstring := js "providerA".
Definition providerB : jsstring := js "providerB".
Definition cats : jsstring := js "cats".
Definition en : jsstring := js "en".

Definition stateAfter (r : option (completion processedResults * mstate))
  : mstate :=
  match r with
  | Some (_, s) => s
  | None => initial 0
  end.

Definition returned (r : option (completion processedResults * mstate))
  : option processedResults :=
  match r with
  | Some (Returned res, _) => Some res
  | _ => None
  end.

End World.

(** Payloads of the cache examples, with a fixed size each. *)
Definition unitSize (_ : nat) : Z := 1000.

(** A snapshot of [n] entries under distinct keys, all valid until 1000. *)
Definition snapshot (n : nat) : list (SearchCache.exportedEntry nat) :=
  List.map (fun i => {| SearchCache.x_key := js "key" ++ [N.of_nat i];
                        SearchCache.x_data := i;
                        SearchCache.x_createdAt := 0;
                        SearchCache.x_expiresAt := 1000 |})
           (seq 0 n).

(** [n] insertions under distinct keys, all at the clock reading [now]. *)
Definition burst (now : Z) (n : nat) : list (SearchCache.op nat) :=
  List.map (fun i => SearchCache.OpSet now (js "key" ++ [N.of_nat i]) i None)
           (seq 0 n).

Definition k1 : jsstring := js "k1".
Definition k2 : jsstring := js "k2".
Definition k3 : jsstring := js "k3".

(** The cache of the constructor with its capacity set to 2. *)
Definition smallCache : SearchCache.t nat :=
  SearchCache.updateSettings (Some 2) None SearchCache.new.

(** Two calls in a row with one provider that always fails and one that
    answers.  This is the input of the examples below. *)
Definition twoProviders : list (jsstring * SearchManager.adapter) :=
  [(providerA, failing); (providerB, answering providerB)].

Definition firstCall
  : option (SearchManager.completion SearchManager.processedResults
            * SearchManager.mstate) :=
  SearchManager.searchAll flatSize 7 twoProviders cats en
    (SearchManager.initial 1000).

Definition secondCall
  : option (SearchManager.completion SearchManager.processedResults
            * SearchManager.mstate) :=
  SearchManager.searchAll flatSize 7 twoProviders cats en (stateAfter firstCall).

(** The payload the cache is seeded with for (providerA, en, "cats"). *)
Definition seededPayload : SearchResult.t := hitsFor providerA cats en.

(* ================================================================== *)
(** ** Vocabulary of the further properties *)
(* ================================================================== *)

(** A [Map] has every key once. *)
Definition uniqueKeys {A : Type} (c : SearchCache.t A) : Prop :=
  NoDup (JsMap.keys (SearchCache.cache c)).

(** The caches a program can build: from the constructor, by the operations
    of the store, by [updateSettings], [clearEngine] and [clearLanguage]. *)
Inductive reachable {A : Type} (calculateSize : A -> Z) : SearchCache.t A -> Prop :=
| reach_new : reachable calculateSize SearchCache.new
| reach_run o c :
    reachable calculateSize c ->
    reachable calculateSize (SearchCache.run calculateSize o c)
| reach_settings newMaxSize newDefaultTTL c :
    reachable calculateSize c ->
    reachable calculateSize (SearchCache.updateSettings newMaxSize newDefaultTTL c)
| reach_clearEngine engine c :
    reachable calculateSize c ->
    reachable calculateSize (snd (SearchCache.clearEngine engine c))
| reach_clearLanguage language c :
    reachable calculateSize c ->
    reachable calculateSize (snd (SearchCache.clearLanguage language c)).

(** The entry [import] makes of a line of a snapshot. *)
Definition imported {A : Type} (calculateSize : A -> Z) (now : Z)
    (x : SearchCache.exportedEntry A) : jsstring * SearchCache.entry A :=
  (SearchCache.x_key x,
   {| SearchCache.data := SearchCache.x_data x;
      SearchCache.createdAt := SearchCache.x_createdAt x;
      SearchCache.lastAccessed := now;
      SearchCache.expiresAt := SearchCache.x_expiresAt x;
      SearchCache.size := calculateSize (SearchCache.x_data x) |}).

Definition validLine {A : Type} (now : Z) (x : SearchCache.exportedEntry A) : bool :=
  now <=? SearchCache.x_expiresAt x.

(** A code unit that is not a colon, and a name without colons. *)
Definition colonFree (s : jsstring) : Prop := Forall (fun c => c <> 58%N) s.

(** The number of records of a type, or of an engine, in an error log. *)
Definition recordsOfType (ty : errorType) (l : list ErrorInfo.t) : Z :=
  Z.of_nat (length (List.filter (fun i => bool_decide (ErrorInfo.type i = ty)) l)).

Definition recordsOfEngine (engine : jsstring) (l : list ErrorInfo.t) : Z :=
  Z.of_nat (length (List.filter (fun i => eqb (ErrorInfo.engine i) engine) l)).

(** A second cache example: two entries, the first one expired at 400000. *)
Definition agedCache : SearchCache.t nat :=
  SearchCache.set unitSize 200000 k2 2%nat None
    (SearchCache.set unitSize 1000 k1 1%nat None SearchCache.new).

(** The line [export] writes for an entry. *)
Definition lineOf {A : Type} (ke : jsstring * SearchCache.entry A)
  : SearchCache.exportedEntry A :=
  {| SearchCache.x_key := fst ke; SearchCache.x_data := SearchCache.data (snd ke);
     SearchCache.x_createdAt := SearchCache.createdAt (snd ke);
     SearchCache.x_expiresAt := SearchCache.expiresAt (snd ke) |}.

(** A cache of capacity 2 that is full, its entries set at 5 and at 6. *)
Definition fullCache : SearchCache.t nat :=
  SearchCache.set unitSize 6 k2 2%nat None
    (SearchCache.set unitSize 5 k1 1%nat None smallCache).

(** Entries of two engines and two languages. *)
Definition mixedCache : SearchCache.t nat :=
  SearchCache.runAll unitSize
    [SearchCache.OpSet 10 (SearchCache.generateCacheKey (js "google") (js "Cats") (js "en")) 1%nat None;
     SearchCache.OpSet 11 (SearchCache.generateCacheKey (js "bing") (js "cats") (js "en")) 2%nat None;
     SearchCache.OpSet 12 (SearchCache.generateCacheKey (js "google") (js "a:b") (js "ja")) 3%nat None]
    SearchCache.new.

(** An error handler after [n] network errors of [providerA]. *)
Fixpoint afterErrors (n : nat) : ErrorHandler.t :=
  match n with
  | O => ErrorHandler.new
  | S n' => snd (ErrorHandler.handleEngineError networkError providerA (afterErrors n'))
  end.

(** The failures a resolution still has to go through before the attempt
    numbered [j], at a suspension point of the attempt numbered [n]. *)
Definition failuresLeft (j : nat) (p : SearchManager.suspended) (n : nat) : nat :=
  match p with
  | SearchManager.AwaitTimer _ => j - S n
  | _ => j - n
  end.

(** A provider without checks whose [search] fails on the network at the
    attempts before the one numbered [j] and answers from then on. *)
Definition flaky (j : nat) (engine : jsstring) : SearchManager.adapter :=
  {| SearchManager.checkRateLimit := None; SearchManager.isAvailable := None;
     SearchManager.search := fun q lang n =>
       if (n <? j)%nat then SearchManager.Thrown networkError
       else SearchManager.Resolved (hitsFor engine q lang);
     SearchManager.latency := fun _ => 50 |}.

(** The result of a call of a manager without providers. *)
Definition noResults : SearchManager.processedResults :=
  SearchManager.processSearchResults [] cats en 0.

(** A sequence of white space. *)
Definition blank (s : jsstring) : Prop := Forall (fun c => isWhiteSpace c = true) s.

(** A string of code units below 256, on which [toLowerCase] is the code's
    function, and the capital of a letter of that range: a-z and
    U+00E0..U+00FE except the division sign U+00F7. *)
Definition latin1 (s : jsstring) : Prop := Forall (fun c => (c < 256)%N) s.

Definition capital (c : N) : N :=
  (if (97 <=? c) && (c <=? 122) then c - 32
   else if (224 <=? c) && (c <=? 254) && negb (c =? 247) then c - 32
   else c)%N.

(** The cache seeded for (providerA, en, "cats"), the key written out. *)
Definition seededByKey : SearchManager.mstate :=
  SearchManager.setCache
    (SearchCache.set flatSize 1000 (js "providerA:en:cats") seededPayload None
       SearchCache.new)
    (SearchManager.initial 1000).

(** The call made one minute after the seeding, with another spelling of the
    query. *)
Definition seededCall
  : option (SearchManager.completion SearchManager.processedResults
            * SearchManager.mstate) :=
  SearchManager.searchAll flatSize 7 twoProviders (js " Cats ") en
    (SearchManager.tick 60000 seededByKey).

(** What holds of a table of counts: its names are distinct, a string sits
    under inherited names only, and a number, which is positive, under the
    others. *)
Definition tallied (o : PlainObject.t) : Prop :=
  NoDup (JsMap.keys o)
  /\ (forall k, JsMap.get k o = Some PlainObject.Str ->
                PlainObject.inherited k = true)
  /\ (forall k n, JsMap.get k o = Some (PlainObject.Num n) ->
                  PlainObject.inherited k = false /\ 0 < n).

(** A log that is full: one error of providerB, then 99 of providerA. *)
Definition fullLog : ErrorHandler.t :=
  Nat.iter 99
    (fun h => snd (ErrorHandler.handleEngineError networkError providerA h))
    (snd (ErrorHandler.handleEngineError networkError providerB
            ErrorHandler.new)).

(** A history that is full: fifty searches, which took 0, 1, ..., 49 ms. *)
Definition fullHistory : list SearchManager.History.entry :=
  fold_left (fun history i =>
               SearchManager.addToHistory 50 cats en noResults (Z.of_nat i)
                                          history)
            (seq 0 50) [].

(** The searches of a language in a history, and the time they took in all. *)
Definition searchesIn (lang : jsstring) (history : list SearchManager.History.entry)
  : Z :=
  Z.of_nat (length (List.filter
    (fun e => eqb (SearchManager.History.language e) lang) history)).

Definition timeSpent (history : list SearchManager.History.entry) : Z :=
  fold_left (fun acc e => acc + SearchManager.History.totalTime e) history 0.

(** No mock results are needed where an adapter throws. *)
Definition noMock (q lang : jsstring) : SearchResult.t := hitsFor (js "mock") q lang.

(* ================================================================== *)
(** * Properties *)
(* ================================================================== *)

(** ** The insertion-ordered map *)

Section JsMapFacts.
Context {V : Type}.
Implicit Types (m : JsMap.t V) (k : jsstring) (v : V).

Lemma eqb_true (a b : jsstring) : eqb a b = true <-> a = b.
Proof. unfold eqb. apply bool_decide_eq_true. Qed.

Lemma eqb_refl (a : jsstring) : eqb a a = true.
Proof. by apply eqb_true. Qed.

Lemma eqb_false (a b : jsstring) : eqb a b = false <-> a <> b.
Proof. unfold eqb. apply bool_decide_eq_false. Qed.

Lemma get_set_eq m k v : JsMap.get k (JsMap.set k v m) = Some v.
Proof.
  induction m as [|[k' v'] m IH]; simpl.
  - by rewrite eqb_refl.
  - destruct (eqb k k') eqn:E; simpl; rewrite E; [done | exact IH].
Qed.

Lemma get_set_ne m k k' v :
  k <> k' -> JsMap.get k' (JsMap.set k v m) = JsMap.get k' m.
Proof.
  intros Hne. induction m as [|[k0 v0] m IH]; simpl.
  - assert (eqb k' k = false) as -> by (apply eqb_false; congruence). done.
  - destruct (eqb k k0) eqn:E; simpl.
    + apply eqb_true in E. subst k0.
      assert (eqb k' k = false) as -> by (apply eqb_false; congruence). done.
    + destruct (eqb k' k0); [done | exact IH].
Qed.

Lemma get_delete_eq m k : JsMap.get k (JsMap.delete k m) = None.
Proof.
  induction m as [|[k' v'] m IH]; simpl; [done|].
  destruct (eqb k k') eqn:E; simpl; [exact IH | by rewrite E].
Qed.

Lemma get_delete_ne m k k' :
  k <> k' -> JsMap.get k' (JsMap.delete k m) = JsMap.get k' m.
Proof.
  intros Hne. induction m as [|[k0 v0] m IH]; simpl; [done|].
  destruct (eqb k k0) eqn:E; simpl.
  - apply eqb_true in E. subst k0.
    assert (eqb k' k = false) as -> by (apply eqb_false; congruence). exact IH.
  - destruct (eqb k' k0); [done | exact IH].
Qed.

Lemma set_length_le m k v :
  (length (JsMap.set k v m) <= S (length m))%nat.
Proof.
  induction m as [|[k' v'] m IH]; simpl; [lia|].
  destruct (eqb k k'); simpl; lia.
Qed.

Lemma delete_length_le m k : (length (JsMap.delete k m) <= length m)%nat.
Proof.
  induction m as [|[k' v'] m IH]; simpl; [lia|].
  destruct (eqb k k'); simpl; lia.
Qed.

End JsMapFacts.

(** ** The cache: reading back, expiry *)

Section CacheFacts.
Variable A : Type.
Variable calculateSize : A -> Z.
Implicit Types (c : SearchCache.t A) (k : jsstring) (v : A).

Lemma cache_set_lookup c now k v ttl :
  JsMap.get k (SearchCache.cache (SearchCache.set calculateSize now k v ttl c))
  = Some {| SearchCache.data := v; SearchCache.createdAt := now;
            SearchCache.lastAccessed := now;
            SearchCache.expiresAt := now + SearchCache.ttlOrDefault ttl c;
            SearchCache.size := calculateSize v |}.
Proof.
  unfold SearchCache.set. simpl. apply get_set_eq.
Qed.

Lemma cache_get_hit c now k e :
  JsMap.get k (SearchCache.cache c) = Some e ->
  now <= SearchCache.expiresAt e ->
  SearchCache.get now k c
  = (Some (SearchCache.data e),
     SearchCache.with_cache (JsMap.set k (SearchCache.touch now e)) c).
Proof.
  intros Hk Hle. unfold SearchCache.get. rewrite Hk.
  destruct (now >? SearchCache.expiresAt e) eqn:E; [lia | done].
Qed.

Lemma cache_get_expired c now k e :
  JsMap.get k (SearchCache.cache c) = Some e ->
  SearchCache.expiresAt e < now ->
  SearchCache.get now k c = (None, SearchCache.with_cache (JsMap.delete k) c).
Proof.
  intros Hk Hlt. unfold SearchCache.get. rewrite Hk.
  destruct (now >? SearchCache.expiresAt e) eqn:E; [done | lia].
Qed.

Lemma cache_has_expired c now k e :
  JsMap.get k (SearchCache.cache c) = Some e ->
  SearchCache.expiresAt e < now ->
  SearchCache.has now k c = (false, SearchCache.with_cache (JsMap.delete k) c).
Proof.
  intros Hk Hlt. unfold SearchCache.has. rewrite Hk.
  destruct (now >? SearchCache.expiresAt e) eqn:E; [done | lia].
Qed.

Lemma holds_after_delete c k :
  SearchCache.holds k (SearchCache.with_cache (JsMap.delete k) c) = false.
Proof.
  unfold SearchCache.holds. simpl. rewrite get_delete_eq.
  apply bool_decide_eq_false. by intros [? ?].
Qed.

(** C7.  A value that was just stored is read back as long as its expiry
    time has not passed, in particular at the instant of the [set] when the
    time to live is not negative; an entry whose [expiresAt] has passed is a
    miss for [get] and absent for [has], and either call removes it. *)
Theorem set_then_get_and_expiry c now k v ttl :
  (forall now',
      now' <= now + SearchCache.ttlOrDefault ttl c ->
      fst (SearchCache.get now' k (SearchCache.set calculateSize now k v ttl c))
      = Some v)
  /\ (0 <= SearchCache.ttlOrDefault ttl c ->
      fst (SearchCache.get now k (SearchCache.set calculateSize now k v ttl c))
      = Some v)
  /\ (forall e,
      JsMap.get k (SearchCache.cache c) = Some e ->
      SearchCache.expiresAt e < now ->
      fst (SearchCache.get now k c) = None
      /\ SearchCache.holds k (snd (SearchCache.get now k c)) = false
      /\ fst (SearchCache.has now k c) = false
      /\ SearchCache.holds k (snd (SearchCache.has now k c)) = false).
Proof.
  assert (Hread : forall now',
      now' <= now + SearchCache.ttlOrDefault ttl c ->
      fst (SearchCache.get now' k (SearchCache.set calculateSize now k v ttl c))
      = Some v).
  { intros now' Hle.
    erewrite cache_get_hit; [| apply cache_set_lookup | simpl; lia]. done. }
  split; [exact Hread|]. split.
  - intros Hpos. apply Hread. lia.
  - intros e Hk Hlt.
    rewrite (cache_get_expired _ _ _ _ Hk Hlt), (cache_has_expired _ _ _ _ Hk Hlt).
    simpl. by rewrite holds_after_delete.
Qed.

End CacheFacts.

(** The default time to live stays positive: the constructor sets it to five
    minutes, [updateSettings] only takes a positive value, and no operation
    of the store changes it. *)
Lemma run_defaultTTL {A} (calculateSize : A -> Z) o (c : SearchCache.t A) :
  SearchCache.defaultTTL (SearchCache.run calculateSize o c)
  = SearchCache.defaultTTL c.
Proof.
  destruct o; simpl; try done.
  - unfold SearchCache.set, SearchCache.evictLRU. simpl.
    destruct (_ >=? _); [|done].
    destruct (fst _) as [k|]; [|done]. by destruct (truthy k).
  - unfold SearchCache.get. destruct (JsMap.get _ _) as [e|]; [|done].
    by destruct (_ >? _).
  - unfold SearchCache.has. destruct (JsMap.get _ _) as [e|]; [|done].
    by destruct (_ >? _).
  - unfold SearchCache.import.
    assert (H : forall l acc,
      SearchCache.defaultTTL
        (snd (fold_left (SearchCache.importStep A calculateSize now) l acc))
      = SearchCache.defaultTTL (snd acc)).
    { induction l as [|x l IH]; intros acc; [done|]. simpl. rewrite IH.
      unfold SearchCache.importStep. by destruct (_ <=? _). }
    apply H.
Qed.

Lemma updateSettings_defaultTTL {A} newMaxSize newDefaultTTL (c : SearchCache.t A) :
  0 < SearchCache.defaultTTL c ->
  0 < SearchCache.defaultTTL (SearchCache.updateSettings newMaxSize newDefaultTTL c).
Proof.
  intros Hpos. unfold SearchCache.updateSettings. simpl.
  destruct newDefaultTTL as [x|]; [|done].
  destruct (negb (x =? 0) && (x >? 0)) eqn:E; [|done].
  apply andb_prop in E as [_ E]. lia.
Qed.

Lemma set_then_get_and_expiry_witness :
  fst (SearchCache.get 1000 (js "google:en:cats")
         (SearchCache.set (fun _ : nat => 2) 1000 (js "google:en:cats") 7%nat None
                          SearchCache.new)) = Some 7%nat
  /\ fst (SearchCache.get 400000 (js "google:en:cats")
         (SearchCache.set (fun _ : nat => 2) 1000 (js "google:en:cats") 7%nat None
                          SearchCache.new)) = None.
Proof.
  pose (c := SearchCache.set (fun _ : nat => 2) 1000 (js "google:en:cats")
                             7%nat None SearchCache.new).
  destruct (set_then_get_and_expiry nat (fun _ => 2) SearchCache.new 1000
              (js "google:en:cats") 7%nat None) as (_ & Hnow & _).
  destruct (set_then_get_and_expiry nat (fun _ => 2) c 400000
              (js "google:en:cats") 7%nat None) as (_ & _ & Hexp).
  split.
  - apply Hnow. vm_compute. discriminate.
  - eapply Hexp; [vm_compute; reflexivity | vm_compute; reflexivity].
Defined.

(** ** The cache: statistics *)

Section CacheStats.
Variable A : Type.
Implicit Types (c : SearchCache.t A) (m : JsMap.t (SearchCache.entry A)).

Lemma statsStep_valid now m acc :
  snd (fold_left (SearchCache.statsStep A now) m acc)
  = snd acc + validCount now m.
Proof.
  revert acc. induction m as [|[k e] m IH]; intros [[ts ec] vc].
  - unfold validCount. simpl. lia.
  - cbn [fold_left]. rewrite IH. unfold SearchCache.statsStep, validCount, validAt.
    simpl. destruct (now >? SearchCache.expiresAt e) eqn:E;
      destruct (now <=? SearchCache.expiresAt e) eqn:E'; simpl; lia.
Qed.

Lemma getStats_validEntries now c :
  SearchCache.validEntries (SearchCache.getStats now c)
  = validCount now (SearchCache.cache c).
Proof.
  unfold SearchCache.getStats.
  pose proof (statsStep_valid now (SearchCache.cache c) (0, 0, 0)) as H.
  destruct (fold_left _ _ _) as [[ts ec] vc]. simpl in *. lia.
Qed.

Lemma getStats_hitRate now c :
  SearchCache.hitRate (SearchCache.getStats now c)
  = SearchCache.calculateHitRate now c.
Proof.
  unfold SearchCache.getStats. by destruct (fold_left _ _ _) as [[ts ec] vc].
Qed.

Lemma getStats_totalEntries now c :
  SearchCache.totalEntries (SearchCache.getStats now c)
  = JsMap.size (SearchCache.cache c).
Proof.
  unfold SearchCache.getStats. by destruct (fold_left _ _ _) as [[ts ec] vc].
Qed.

Lemma validCount_none now m :
  Forall (fun e => SearchCache.expiresAt e < now) (JsMap.values m) ->
  validCount now m = 0.
Proof.
  unfold validCount. induction m as [|[k e] m IH]; intros H; [done|].
  simpl in *. apply Forall_cons_1 in H as [He H]. unfold validAt at 1.
  destruct (now <=? SearchCache.expiresAt e) eqn:E; [lia | by apply IH].
Qed.

Lemma validCount_all now m :
  Forall (fun e => now <= SearchCache.expiresAt e) (JsMap.values m) ->
  validCount now m = JsMap.size m.
Proof.
  unfold validCount, JsMap.size. induction m as [|[k e] m IH]; intros H; [done|].
  simpl in *. apply Forall_cons_1 in H as [He H]. unfold validAt at 1.
  destruct (now <=? SearchCache.expiresAt e) eqn:E; [|lia].
  simpl. specialize (IH H). lia.
Qed.

Lemma values_touch now m k e :
  JsMap.get k m = Some e ->
  List.map SearchCache.expiresAt (JsMap.values (JsMap.set k (SearchCache.touch now e) m))
  = List.map SearchCache.expiresAt (JsMap.values m).
Proof.
  induction m as [|[k' e'] m IH]; simpl; [done|].
  destruct (eqb k k') eqn:E; simpl.
  - intros [= ->]. done.
  - intros H. by rewrite IH.
Qed.

Lemma validCount_expiries now m m' :
  List.map SearchCache.expiresAt (JsMap.values m)
  = List.map SearchCache.expiresAt (JsMap.values m') ->
  validCount now m = validCount now m'.
Proof.
  unfold validCount, JsMap.values, validAt.
  revert m'. induction m as [|[k e] m IH]; intros [|[k' e'] m']; simpl; try done.
  intros [= He Hm]. rewrite He. specialize (IH _ Hm).
  destruct (now <=? SearchCache.expiresAt e'); simpl; lia.
Qed.

Lemma size_expiries m m' :
  List.map SearchCache.expiresAt (JsMap.values m)
  = List.map SearchCache.expiresAt (JsMap.values m') ->
  JsMap.size m = JsMap.size m'.
Proof.
  intros H. unfold JsMap.size. f_equal.
  apply (f_equal (@length Z)) in H. unfold JsMap.values in H.
  by rewrite !length_map in H.
Qed.

Lemma calculateHitRate_unfold now c :
  SearchCache.calculateHitRate now c
  = if JsMap.size (SearchCache.cache c) >? 0
    then ((inject_Z (validCount now (SearchCache.cache c))
           / inject_Z (JsMap.size (SearchCache.cache c))) * inject_Z 100)%Q
    else 0%Q.
Proof. reflexivity. Qed.

(** C10.  The [hitRate] of [getStats] takes no account of lookups: it is the
    share, in percent, of the stored entries that have not expired, that is
    [validEntries / totalEntries * 100] of the same statistics, and 0 for an
    empty cache.  So it is 0 when every stored entry has expired, whatever
    was read before, it is 100 when the cache is not empty and every entry
    is valid, and a [get] that hits leaves it as it was. *)
Theorem hitRate_is_share_of_valid_entries now c :
  let st := SearchCache.getStats now c in
  (SearchCache.cache c = [] -> Qeq (SearchCache.hitRate st) 0%Q)
  /\ (SearchCache.cache c <> [] ->
      Qeq (SearchCache.hitRate st)
          (inject_Z (SearchCache.validEntries st)
           / inject_Z (SearchCache.totalEntries st) * inject_Z 100)%Q)
  /\ (Forall (fun e => SearchCache.expiresAt e < now)
             (JsMap.values (SearchCache.cache c)) ->
      Qeq (SearchCache.hitRate st) 0%Q)
  /\ (SearchCache.cache c <> [] ->
      Forall (fun e => now <= SearchCache.expiresAt e)
             (JsMap.values (SearchCache.cache c)) ->
      Qeq (SearchCache.hitRate st) (inject_Z 100))
  /\ (forall k v,
      fst (SearchCache.get now k c) = Some v ->
      SearchCache.hitRate (SearchCache.getStats now (snd (SearchCache.get now k c)))
      = SearchCache.hitRate st).
Proof.
  intros st. unfold st.
  rewrite getStats_validEntries, getStats_totalEntries, getStats_hitRate.
  rewrite calculateHitRate_unfold.
  assert (Hpos : SearchCache.cache c <> [] ->
                 (JsMap.size (SearchCache.cache c) >? 0) = true).
  { intros Hne. unfold JsMap.size. apply Z.gtb_lt.
    destruct (SearchCache.cache c); [done | simpl length; lia]. }
  repeat split.
  - intros ->. reflexivity.
  - intros Hne. rewrite (Hpos Hne). reflexivity.
  - intros Hall. rewrite (validCount_none _ _ Hall).
    destruct (_ >? 0); [|reflexivity].
    unfold Qdiv. rewrite Qmult_0_l. apply Qmult_0_l.
  - intros Hne Hall. rewrite (Hpos Hne), (validCount_all _ _ Hall).
    unfold Qdiv. rewrite Qmult_inv_r; [apply Qmult_1_l|].
    specialize (Hpos Hne). intros Hq.
    assert (JsMap.size (SearchCache.cache c) = 0) as Hz.
    { apply (inject_Z_injective _ 0). exact Hq. }
    lia.
  - intros k v Hget. rewrite getStats_hitRate, calculateHitRate_unfold.
    unfold SearchCache.get in *.
    destruct (JsMap.get k (SearchCache.cache c)) as [e|] eqn:Hk; [|done].
    destruct (now >? SearchCache.expiresAt e); [done|]. simpl.
    pose proof (values_touch now _ _ _ Hk) as Hx.
    by rewrite (validCount_expiries _ _ _ Hx), (size_expiries _ _ Hx).
Qed.

End CacheStats.

Lemma hitRate_is_share_of_valid_entries_witness :
  Qeq (SearchCache.hitRate
         (SearchCache.getStats 400000
            (SearchCache.set (fun _ : nat => 2) 1000 (js "google:en:cats") 7%nat
                             None SearchCache.new))) 0%Q
  /\ Qeq (SearchCache.hitRate
            (SearchCache.getStats 1000
               (SearchCache.set (fun _ : nat => 2) 1000 (js "google:en:cats")
                                7%nat None SearchCache.new))) (inject_Z 100).
Proof.
  pose (c := SearchCache.set (fun _ : nat => 2) 1000 (js "google:en:cats")
                             7%nat None SearchCache.new).
  split.
  - apply (hitRate_is_share_of_valid_entries nat 400000 c).
    vm_compute. repeat constructor.
  - apply (hitRate_is_share_of_valid_entries nat 1000 c).
    + vm_compute. discriminate.
    + vm_compute. repeat constructor. discriminate.
Defined.

(** ** The cache: capacity and eviction *)

Section Eviction.
Variable A : Type.
Implicit Types (m : JsMap.t (SearchCache.entry A)).

(** The scan of [evictLRU] never goes above its starting time, and it names no
    key exactly when no entry is strictly older than that time. *)
Lemma lruScan_fold m acc :
  snd (fold_left SearchCache.lruStep m acc) <= snd acc
  /\ (fst (fold_left SearchCache.lruStep m acc) = None <->
      fst acc = None
      /\ Forall (fun ke => snd acc <= SearchCache.lastAccessed (snd ke)) m).
Proof.
  revert acc. induction m as [|[k e] m IH]; intros [ok ot]; simpl.
  - split; [lia|]. split; [intros ->; split; [done | constructor] | tauto].
  - destruct (IH (SearchCache.lruStep (ok, ot) (k, e))) as [Hle Hiff].
    unfold SearchCache.lruStep in *. simpl in *.
    destruct (SearchCache.lastAccessed e <? ot) eqn:E; simpl in *.
    + split; [lia|]. rewrite Hiff. split; [intros [? _]; done|].
      intros [_ H]. apply Forall_cons_1 in H as [H _]. simpl in H. lia.
    + split; [lia|]. rewrite Hiff. split.
      * intros [-> H]. split; [done|]. constructor; [simpl; lia | done].
      * intros [-> H]. apply Forall_cons_1 in H as [_ H]. done.
Qed.

(** The key the scan names belongs to an entry that is strictly older than
    the starting time, and no entry is older than that one. *)
Lemma lruScan_names_an_oldest m :
  forall acc k,
    fst (fold_left SearchCache.lruStep m acc) = Some k ->
    fst acc = Some k /\ snd (fold_left SearchCache.lruStep m acc) = snd acc
    \/ exists e,
        (k, e) ∈ m
        /\ SearchCache.lastAccessed e < snd acc
        /\ snd (fold_left SearchCache.lruStep m acc) = SearchCache.lastAccessed e.
Proof.
  induction m as [|[k0 e0] m IH]; intros [ok ot] k Hk; simpl in *.
  - left. done.
  - assert (Hstep : SearchCache.lruStep (ok, ot) (k0, e0)
                    = if SearchCache.lastAccessed e0 <? ot
                      then (Some k0, SearchCache.lastAccessed e0)
                      else (ok, ot)) by reflexivity.
    destruct (SearchCache.lastAccessed e0 <? ot) eqn:E; rewrite Hstep in *;
      destruct (IH _ _ Hk) as [[Hok Hsnd] | (e & Hin & Hlt & Hsnd)];
      simpl in *.
    + injection Hok as <-. right. exists e0.
      split; [apply list_elem_of_here|]. split; [lia | done].
    + right. exists e. split; [by apply list_elem_of_further|].
      split; [lia | done].
    + left. done.
    + right. exists e. split; [by apply list_elem_of_further | done].
Qed.

Lemma lruScan_is_minimal m :
  forall acc,
    Forall (fun ke => snd (fold_left SearchCache.lruStep m acc)
                      <= SearchCache.lastAccessed (snd ke)) m.
Proof.
  induction m as [|[k0 e0] m IH]; intros acc; [constructor|].
  simpl. constructor; [|apply IH].
  destruct (lruScan_fold m (SearchCache.lruStep acc (k0, e0))) as [Hle _].
  assert (Hstep : snd (SearchCache.lruStep acc (k0, e0))
                  <= SearchCache.lastAccessed e0).
  { unfold SearchCache.lruStep. simpl.
    destruct (SearchCache.lastAccessed e0 <? snd acc) eqn:E; simpl; lia. }
  simpl. lia.
Qed.

Lemma evictLRU_nothing_older now (c : SearchCache.t A) :
  Forall (fun ke => now <= SearchCache.lastAccessed (snd ke)) (SearchCache.cache c) ->
  SearchCache.evictLRU now c = c.
Proof.
  intros H. unfold SearchCache.evictLRU, SearchCache.lruScan.
  destruct (lruScan_fold (SearchCache.cache c) (None, now)) as [_ Hiff].
  destruct Hiff as [_ Hnone]. by rewrite Hnone.
Qed.

End Eviction.

(** C3.  The store goes over its capacity: [import] writes every valid entry
    of a snapshot without looking at [maxSize], and [set] evicts nothing when
    no stored entry was accessed before the current clock reading.  From the
    empty cache of the constructor (capacity 100), importing 101 valid
    entries, or setting 101 keys within one millisecond, leaves 101 entries. *)
Theorem capacity_exceeded_by_import_and_by_burst :
  JsMap.size (SearchCache.cache
                (SearchCache.runAll unitSize
                   [SearchCache.OpImport 0 (snapshot 101)] SearchCache.new)) = 101
  /\ JsMap.size (SearchCache.cache
                   (SearchCache.runAll unitSize (burst 5 101) SearchCache.new)) = 101
  /\ SearchCache.maxSize (SearchCache.new (A := nat)) = 100.
Proof. vm_compute. done. Qed.

(** C4.  With capacity 2, inserting k1, k2, k3 within one millisecond and with
    no read in between evicts nothing: the scan of [evictLRU] starts from the
    current time and only takes an entry that is strictly older, so k1 stays
    and the cache holds three entries. *)
Theorem eviction_skipped_when_inserted_in_the_same_millisecond :
  let c := SearchCache.runAll unitSize
             [SearchCache.OpSet 5 k1 1%nat None;
              SearchCache.OpSet 5 k2 2%nat None;
              SearchCache.OpSet 5 k3 3%nat None] smallCache in
  JsMap.keys (SearchCache.cache c) = [k1; k2; k3]
  /\ SearchCache.holds k1 c = true
  /\ SearchCache.maxSize c = 2.
Proof. vm_compute. done. Qed.

(** An entry under the empty key is never evicted either: the scan names it,
    and [if (oldestKey)] then skips the deletion. *)
Example empty_key_is_never_evicted :
  JsMap.keys (SearchCache.cache
                (SearchCache.runAll unitSize
                   [SearchCache.OpSet 5 [] 1%nat None;
                    SearchCache.OpSet 6 k2 2%nat None;
                    SearchCache.OpSet 7 k3 3%nat None] smallCache))
  = [[]; k2; k3].
Proof. vm_compute. done. Qed.

(** When the clock has moved on between the insertions, the oldest entry is
    the one that goes. *)
Example eviction_when_the_clock_has_moved :
  JsMap.keys (SearchCache.cache
                (SearchCache.runAll unitSize
                   [SearchCache.OpSet 5 k1 1%nat None;
                    SearchCache.OpSet 6 k2 2%nat None;
                    SearchCache.OpSet 7 k3 3%nat None] smallCache))
  = [k2; k3].
Proof. vm_compute. done. Qed.

(** ** The error handler *)

Section HandlerFacts.
Import ErrorHandler.
Implicit Types (h : ErrorHandler.t) (engine : jsstring) (error : JsError.t).

Lemma classify_not_parsing error : classify error <> parsing.
Proof.
  unfold classify.
  repeat match goal with |- context [if ?b then _ else _] => destruct b end;
    discriminate.
Qed.

Lemma backoff_mono (a b : nat) : (a <= b)%nat -> backoff a <= backoff b.
Proof.
  intros Hab. unfold backoff. apply Z.min_le_compat_r.
  apply Z.mul_le_mono_nonneg_l; [lia|].
  apply Z.pow_le_mono_r; lia.
Qed.

Lemma backoff_le_cap (a : nat) : backoff a <= 10000.
Proof. unfold backoff. lia. Qed.

Lemma backoff_seq_sorted (c j : nat) :
  Sorted Z.le (List.map backoff (seq c j)).
Proof.
  revert c. induction j as [|j IH]; intros c; simpl; [constructor|].
  constructor; [apply IH|].
  destruct j; simpl; constructor. apply backoff_mono. lia.
Qed.

(** What [handleEngineError] gives back and what it leaves alone. *)
Lemma handleEngineError_spec error engine h :
  let info := fst (handleEngineError error engine h) in
  let h' := snd (handleEngineError error engine h) in
  retryAttempts h' = retryAttempts h
  /\ maxRetries h' = maxRetries h
  /\ ErrorInfo.type info = classify error
  /\ ErrorInfo.shouldRetry info = shouldRetry engine (classify error) h
  /\ (ErrorInfo.shouldRetry info = true ->
      ErrorInfo.retryDelay info = Some (backoff (currentAttempts engine h))).
Proof.
  pose proof (classify_not_parsing error) as Hnp.
  unfold handleEngineError.
  destruct (classify error) eqn:Hc; try done;
    cbn [handleNetworkError handleAPIError handleCORSError handleTimeoutError
         handleGeneralError plain ErrorInfo.type];
    unfold shouldRetry, currentAttempts, getRetryDelay, currentAttempts;
    cbn [logError with_log retryAttempts maxRetries];
    match goal with |- context [bool_decide ?P] => destruct (bool_decide P) end;
    cbn [negb];
    try match goal with |- context [(?a <? ?b)%nat] => destruct (a <? b)%nat end;
    cbn; repeat split; try done.
Qed.

Lemma shouldRetry_true engine ty h :
  shouldRetry engine ty h = true ->
  ty ∈ retryableErrors /\ (currentAttempts engine h < maxRetries h)%nat.
Proof.
  unfold shouldRetry. case_bool_decide as Hty; simpl; [|done].
  intros Hlt%Nat.ltb_lt. done.
Qed.

Lemma shouldRetry_exhausted engine ty h :
  (maxRetries h <= currentAttempts engine h)%nat -> shouldRetry engine ty h = false.
Proof.
  intros Hge. unfold shouldRetry. case_bool_decide as Hty; simpl; [|done].
  apply Nat.ltb_ge. done.
Qed.

Lemma shouldRetry_retryable engine ty h :
  ty ∈ retryableErrors -> (currentAttempts engine h < maxRetries h)%nat ->
  shouldRetry engine ty h = true.
Proof.
  intros Hty Hlt. unfold shouldRetry. rewrite bool_decide_eq_true_2; [|done].
  simpl. by apply Nat.ltb_lt.
Qed.

Lemma currentAttempts_record engine h :
  currentAttempts engine (recordRetryAttempt engine h)
  = S (currentAttempts engine h).
Proof.
  unfold recordRetryAttempt, currentAttempts at 1. cbn [with_attempts retryAttempts].
  rewrite lookup_insert_eq. simpl. lia.
Qed.

Lemma currentAttempts_reset engine h :
  currentAttempts engine (resetRetryAttempts engine h) = 0%nat.
Proof.
  unfold resetRetryAttempts, currentAttempts. cbn [with_attempts retryAttempts].
  by rewrite lookup_delete_eq.
Qed.

End HandlerFacts.

(** ** The manager: one step of a resolution *)

Section StepFacts.
Import ErrorHandler SearchManager.

Lemma searchCount_app engine tr tr' :
  searchCount engine (tr ++ tr')
  = (searchCount engine tr + searchCount engine tr')%nat.
Proof. unfold searchCount. by rewrite List.filter_app, length_app. Qed.

Lemma delaysOf_app engine tr tr' :
  delaysOf engine (tr ++ tr') = delaysOf engine tr ++ delaysOf engine tr'.
Proof.
  induction tr as [|ev tr IH]; simpl; [done|].
  destruct ev; try done. destruct (eqb _ _); simpl; by rewrite IH.
Qed.

Lemma searchCount_foreign engine evs :
  Forall (fun ev => eventEngine ev <> engine) evs -> searchCount engine evs = 0%nat.
Proof.
  unfold searchCount. induction 1 as [|ev evs Hev _ IH]; [done|].
  simpl. destruct ev; simpl in *; try done.
  assert (eqb engine0 engine = false) as -> by by apply eqb_false. done.
Qed.

Lemma delaysOf_foreign engine evs :
  Forall (fun ev => eventEngine ev <> engine) evs -> delaysOf engine evs = [].
Proof.
  induction 1 as [|ev evs Hev _ IH]; [done|].
  simpl. destruct ev; simpl in *; try done.
  assert (eqb engine0 engine = false) as -> by by apply eqb_false. done.
Qed.

Lemma catchError_retry engine error s :
  shouldRetry engine (classify error) (errorHandler s) = true ->
  exists info s',
    catchError engine error s = (AwaitTimer (backoff (attemptsOf engine s)), s')
    /\ cache s' = cache s /\ clock s' = clock s
    /\ trace s' = trace s ++ [DisplayError engine info;
                              TimerSet engine (backoff (attemptsOf engine s))]
    /\ attemptsOf engine s' = S (attemptsOf engine s)
    /\ limitOf s' = limitOf s.
Proof.
  intros Hretry. unfold catchError.
  pose proof (handleEngineError_spec error engine (errorHandler s)) as Hspec.
  destruct (handleEngineError error engine (errorHandler s)) as [info h].
  simpl in Hspec. destruct Hspec as (Hatt & Hmax & Hty & Hsr & Hdelay).
  rewrite Hretry in Hsr. rewrite Hsr. rewrite (Hdelay Hsr). simpl.
  eexists info, _. split; [reflexivity|]. unfold emit, setHandler. simpl.
  repeat split.
  - by rewrite <- app_assoc.
  - unfold attemptsOf. simpl. rewrite currentAttempts_record.
    unfold currentAttempts. by rewrite Hatt.
  - unfold limitOf. simpl. done.
Qed.

Lemma catchError_final engine error s :
  shouldRetry engine (classify error) (errorHandler s) = false ->
  exists info s',
    catchError engine error s = (Settled (Rejected engine info), s')
    /\ ErrorInfo.type info = classify error
    /\ ErrorInfo.shouldRetry info = false
    /\ cache s' = cache s /\ clock s' = clock s
    /\ trace s' = trace s ++ [DisplayError engine info]
    /\ retryAttempts (errorHandler s') = retryAttempts (errorHandler s)
    /\ limitOf s' = limitOf s.
Proof.
  intros Hretry. unfold catchError.
  pose proof (handleEngineError_spec error engine (errorHandler s)) as Hspec.
  destruct (handleEngineError error engine (errorHandler s)) as [info h].
  simpl in Hspec. destruct Hspec as (Hatt & Hmax & Hty & Hsr & Hdelay).
  rewrite Hretry in Hsr. rewrite Hsr.
  eexists info, _. split; [reflexivity|]. unfold emit, setHandler, limitOf.
  simpl. done.
Qed.

(** The two errors the manager throws itself fall into the last branch of
    [handleEngineError]. *)
Lemma classify_rateLimit : classify (JsError.Error rateLimitMessage) = general.
Proof. reflexivity. Qed.

Lemma classify_unavailable : classify (JsError.Error unavailableMessage) = general.
Proof. reflexivity. Qed.

Lemma general_not_retryable engine h : shouldRetry engine general h = false.
Proof. reflexivity. Qed.

End StepFacts.

Section AttemptFacts.
Import ErrorHandler SearchManager.
Variable calculateSize : SearchResult.t -> Z.
Implicit Types (engine query language : jsstring) (ad : adapter) (s : mstate).

Lemma searchCount_one engine query language :
  searchCount engine [SearchInvoked engine query language] = 1%nat.
Proof. unfold searchCount. simpl. by rewrite eqb_refl. Qed.

(** A check that refuses ends the attempt in the [catch] block with a
    [general] error, which is never retried. *)
Lemma refused_is_final engine msg s :
  classify (JsError.Error msg) = general ->
  exists info s',
    catchError engine (JsError.Error msg) s = (Settled (Rejected engine info), s')
    /\ ErrorInfo.type info = general
    /\ ErrorInfo.shouldRetry info = false
    /\ cache s' = cache s /\ clock s' = clock s
    /\ trace s' = trace s ++ [DisplayError engine info]
    /\ retryAttempts (errorHandler s') = retryAttempts (errorHandler s)
    /\ limitOf s' = limitOf s.
Proof.
  intros Hc.
  destruct (catchError_final engine (JsError.Error msg) s) as (info & s' & H).
  { rewrite Hc. apply general_not_retryable. }
  rewrite Hc in H. by exists info, s'.
Qed.

Lemma attemptSync_view engine ad query language n s p s' :
  attemptSync engine ad query language n s = (p, s') ->
  retryAttempts (errorHandler s') = retryAttempts (errorHandler s)
  /\ limitOf s' = limitOf s /\ clock s' = clock s
  /\ exists evs,
      trace s' = trace s ++ evs
      /\ Forall (fun ev => eventEngine ev = engine) evs
      /\ delaysOf engine evs = []
      /\ ((exists o, p = Settled o /\ outcomeEngine o = engine
                     /\ searchCount engine evs = 0%nat)
          \/ (p = AwaitSearch /\ searchCount engine evs = 1%nat)).
Proof.
  unfold attemptSync.
  destruct (SearchCache.get _ _ _) as [[r|] c] eqn:Hget.
  - intros [= <- <-]. simpl. repeat split; try done.
    eexists [_; _]. split; [by rewrite <- app_assoc|].
    split; [repeat constructor|]. split; [done|]. left. eauto.
  - set (s1 := emit _ _).
    assert (Hrefused : forall msg, classify (JsError.Error msg) = general ->
      catchError engine (JsError.Error msg) s1 = (p, s') ->
      retryAttempts (errorHandler s') = retryAttempts (errorHandler s)
      /\ limitOf s' = limitOf s /\ clock s' = clock s
      /\ exists evs,
          trace s' = trace s ++ evs
          /\ Forall (fun ev => eventEngine ev = engine) evs
          /\ delaysOf engine evs = []
          /\ ((exists o, p = Settled o /\ outcomeEngine o = engine
                         /\ searchCount engine evs = 0%nat)
              \/ (p = AwaitSearch /\ searchCount engine evs = 1%nat))).
    { intros msg Hc Heq.
      destruct (refused_is_final engine msg s1 Hc)
        as (info & s2 & Hce & _ & _ & _ & Hclock & Htr & Hatt & Hlim).
      rewrite Hce in Heq. injection Heq as <- <-.
      rewrite Hatt, Hlim, Hclock, Htr. subst s1. simpl.
      repeat split; try done.
      eexists [_; _]. split; [by rewrite <- app_assoc|].
      split; [repeat constructor|]. split; [done|]. left. eauto. }
    destruct (refuses (checkRateLimit ad) n).
    { apply Hrefused. apply classify_rateLimit. }
    destruct (refuses (isAvailable ad) n).
    { apply Hrefused. apply classify_unavailable. }
    intros [= <- <-]. subst s1. simpl. repeat split; try done.
    eexists [_; _]. split; [by rewrite <- app_assoc|].
    split; [repeat constructor|]. split; [done|]. right. split; [done|].
    unfold searchCount. simpl. by rewrite eqb_refl.
Qed.

Lemma afterSearch_view engine ad query language n s p s' :
  afterSearch calculateSize engine ad query language n s = (p, s') ->
  limitOf s' = limitOf s /\ clock s' = clock s
  /\ exists evs,
      trace s' = trace s ++ evs
      /\ Forall (fun ev => eventEngine ev = engine) evs
      /\ searchCount engine evs = 0%nat
      /\ ((exists o, p = Settled o /\ outcomeEngine o = engine
                     /\ delaysOf engine evs = [])
          \/ (p = AwaitTimer (backoff (attemptsOf engine s))
              /\ (attemptsOf engine s < limitOf s)%nat
              /\ attemptsOf engine s' = S (attemptsOf engine s)
              /\ delaysOf engine evs = [backoff (attemptsOf engine s)])).
Proof.
  unfold afterSearch. destruct (search ad query language n) as [r|error].
  - intros [= <- <-]. simpl. repeat split; try done.
    eexists [_]. split; [done|]. split; [repeat constructor|].
    split; [done|]. left. eauto.
  - destruct (shouldRetry engine (classify error) (errorHandler s)) eqn:Hretry.
    + destruct (catchError_retry engine error s Hretry)
        as (info & s2 & Hce & _ & Hclock & Htr & Hatt & Hlim).
      rewrite Hce. intros [= <- <-]. repeat split; try done.
      eexists [_; _]. split; [exact Htr|]. split; [repeat constructor|].
      split; [done|]. right. split; [done|].
      apply shouldRetry_true in Hretry as [_ Hlt].
      split; [exact Hlt|]. split; [exact Hatt|].
      simpl. by rewrite eqb_refl.
    + destruct (catchError_final engine error s Hretry)
        as (info & s2 & Hce & _ & _ & _ & Hclock & Htr & _ & Hlim).
      rewrite Hce. intros [= <- <-]. repeat split; try done.
      eexists [_]. split; [exact Htr|]. split; [repeat constructor|].
      split; [done|]. left. eauto.
Qed.

End AttemptFacts.

(** ** The manager: a whole resolution *)

Section RetryBound.
Import ErrorHandler SearchManager.
Variable calculateSize : SearchResult.t -> Z.
Variable env : nat -> mstate -> mstate.
Variable engine : jsstring.
Variable ad : adapter.
Variables query language : jsstring.

Hypothesis env_foreign : foreign env engine.

Lemma resume_settled fuel n k o s :
  resume calculateSize fuel env engine ad query language n k (Settled o) s
  = Some (o, s).
Proof. by destruct fuel. Qed.

Lemma waited_view k d s : sameView engine s (env k (tick d s)).
Proof. destruct (env_foreign k (tick d s)) as (? & ? & ? & ?). done. Qed.

Lemma resume_bound fuel :
  forall p s n k,
    (need engine p s <= fuel)%nat ->
    (forall d, p = AwaitTimer d -> (attemptsOf engine s <= limitOf s)%nat) ->
    exists o s',
      resume calculateSize fuel env engine ad query language n k p s = Some (o, s')
      /\ limitOf s' = limitOf s
      /\ exists j,
          delaysOf engine (trace s')
          = delaysOf engine (trace s)
            ++ List.map backoff (seq (attemptsOf engine s) j)
          /\ (attemptsOf engine s + j
              <= Nat.max (attemptsOf engine s) (limitOf s))%nat
          /\ (searchCount engine (trace s')
              <= searchCount engine (trace s) + j + pendingSearch p)%nat.
Proof.
  induction fuel as [|fuel IH]; intros p s n k Hneed Htimer.
  - destruct p as [o| |d]; simpl in Hneed; try lia.
    exists o, s. split; [done|]. split; [done|]. exists 0%nat.
    simpl. rewrite app_nil_r. repeat split; lia.
  - destruct p as [o| |d].
    + exists o, s. split; [done|]. split; [done|]. exists 0%nat.
      simpl. rewrite app_nil_r. repeat split; lia.
    + (* the search settles *)
      cbn [resume need] in *.
      destruct (waited_view k (latency ad n) s) as (Hc0 & Hm0 & Hs0 & Hd0).
      set (s0 := env k (tick (latency ad n) s)) in *.
      destruct (afterSearch calculateSize engine ad query language n s0)
        as [p' s1] eqn:Hstep.
      destruct (afterSearch_view _ _ _ _ _ _ _ _ _ Hstep)
        as (Hm1 & _ & evs & Htr & _ & Hsc & Hcase).
      destruct Hcase as [(o & -> & _ & Hdl) | (-> & Hlt & Hc1 & Hdl)].
      * rewrite resume_settled. exists o, s1. split; [done|].
        split; [congruence|]. exists 0%nat. simpl. rewrite app_nil_r.
        rewrite Htr, delaysOf_app, searchCount_app, Hdl, Hsc, app_nil_r.
        split; [congruence|]. split; lia.
      * destruct (IH (AwaitTimer (backoff (attemptsOf engine s0))) s1 n (S k))
          as (o & s' & Hres & Hm' & j & Hdl' & Hj & Hsc').
        { simpl. lia. }
        { intros _ _. lia. }
        exists o, s'. split; [exact Hres|]. split; [congruence|].
        exists (S j). rewrite Hdl', Htr, delaysOf_app, Hdl, Hd0, Hc1, Hc0.
        rewrite <- app_assoc. simpl. split; [done|].
        rewrite Htr, searchCount_app, Hsc, Hs0 in Hsc'. simpl in Hsc'.
        split; lia.
    + (* the timer fires *)
      cbn [resume need] in *.
      destruct (waited_view k d s) as (Hc0 & Hm0 & Hs0 & Hd0).
      set (s0 := env k (tick d s)) in *.
      destruct (attemptSync engine ad query language (S n) s0)
        as [p' s1] eqn:Hstep.
      destruct (attemptSync_view _ _ _ _ _ _ _ _ Hstep)
        as (Hatt & Hm1 & _ & evs & Htr & _ & Hdl & Hcase).
      assert (Hc1 : attemptsOf engine s1 = attemptsOf engine s).
      { rewrite <- Hc0. unfold attemptsOf, currentAttempts. by rewrite Hatt. }
      destruct Hcase as [(o & -> & _ & Hsc) | (-> & Hsc)].
      * rewrite resume_settled. exists o, s1. split; [done|].
        split; [congruence|]. exists 0%nat. simpl. rewrite app_nil_r.
        rewrite Htr, delaysOf_app, searchCount_app, Hdl, Hsc, app_nil_r.
        split; [congruence|]. split; lia.
      * destruct (IH AwaitSearch s1 (S n) (S k))
          as (o & s' & Hres & Hm' & j & Hdl' & Hj & Hsc').
        { simpl. lia. }
        { intros ? [=]. }
        exists o, s'. split; [exact Hres|]. split; [congruence|].
        exists j. rewrite Hdl', Htr, delaysOf_app, Hdl, app_nil_r, Hd0, Hc1.
        split; [done|].
        rewrite Htr, searchCount_app, Hsc, Hs0 in Hsc'. simpl in *.
        split; lia.
Qed.

End RetryBound.

Section Exhaustion.
Import ErrorHandler SearchManager.
Variable calculateSize : SearchResult.t -> Z.
Variable env : nat -> mstate -> mstate.
Variable engine : jsstring.
Variable ad : adapter.
Variables query language : jsstring.

Hypothesis env_foreign : foreign env engine.
Hypothesis env_miss :
  forall k s, miss engine query language s -> miss engine query language (env k s).
Hypothesis fails : alwaysFails ad query language.
Hypothesis open : neverRefuses ad.

Lemma attemptSync_miss n s :
  miss engine query language s ->
  exists s',
    attemptSync engine ad query language n s = (AwaitSearch, s')
    /\ cache s' = cache s /\ errorHandler s' = errorHandler s
    /\ trace s' = trace s
                  ++ [CacheLookup engine
                        (SearchCache.generateCacheKey engine query language);
                      SearchInvoked engine query language].
Proof.
  intros Hmiss. unfold attemptSync, SearchCache.get. rewrite Hmiss.
  destruct (open n) as [-> ->]. eexists. split; [reflexivity|].
  simpl. destruct s as [[? ? ?] ? ? ?]. simpl. by rewrite <- app_assoc.
Qed.

Lemma resume_exhaust fuel :
  forall p s n k,
    (need engine p s <= fuel)%nat ->
    miss engine query language s ->
    (attemptsOf engine s <= limitOf s)%nat ->
    p = AwaitSearch \/ (exists d, p = AwaitTimer d) ->
    exists info s',
      resume calculateSize fuel env engine ad query language n k p s
      = Some (Rejected engine info, s')
      /\ ErrorInfo.type info ∈ retryableErrors
      /\ ErrorInfo.shouldRetry info = false
      /\ attemptsOf engine s' = limitOf s
      /\ limitOf s' = limitOf s
      /\ miss engine query language s'
      /\ delaysOf engine (trace s')
         = delaysOf engine (trace s)
           ++ List.map backoff
                (seq (attemptsOf engine s) (limitOf s - attemptsOf engine s))
      /\ searchCount engine (trace s')
         = (searchCount engine (trace s) + (limitOf s - attemptsOf engine s)
            + pendingSearch p)%nat.
Proof.
  induction fuel as [|fuel IH]; intros p s n k Hneed Hmiss Hle Hp.
  { destruct Hp as [-> | [d ->]]; simpl in Hneed; lia. }
  destruct Hp as [-> | [d ->]]; cbn [resume need pendingSearch] in *.
  - destruct (waited_view env engine env_foreign k (latency ad n) s)
      as (Hc0 & Hm0 & Hs0 & Hd0).
    assert (Hmiss0 : miss engine query language (env k (tick (latency ad n) s)))
      by by apply env_miss.
    set (s0 := env k (tick (latency ad n) s)) in *.
    unfold afterSearch. destruct (fails n) as (error & -> & Hty).
    destruct (decide (attemptsOf engine s0 < limitOf s0)%nat) as [Hlt|Hge].
    + destruct (catchError_retry engine error s0) as
        (info & s1 & -> & Hcache & _ & Htr & Hc1 & Hm1).
      { by apply shouldRetry_retryable. }
      destruct (IH (AwaitTimer (backoff (attemptsOf engine s0))) s1 n (S k))
        as (info' & s' & Hres & Hty' & Hsr' & Hc' & Hm' & Hmiss' & Hdl' & Hsc').
      { simpl. lia. }
      { unfold miss. by rewrite Hcache. }
      { lia. }
      { eauto. }
      exists info', s'. split; [exact Hres|].
      split; [done|]. split; [done|]. split; [congruence|].
      split; [congruence|]. split; [done|].
      rewrite Hdl', Hsc', Htr, delaysOf_app, searchCount_app. simpl.
      rewrite eqb_refl, Hd0, Hs0, Hc1, Hm1, Hm0, Hc0.
      replace (limitOf s - attemptsOf engine s)%nat
        with (S (limitOf s - S (attemptsOf engine s))) by lia.
      rewrite <- app_assoc. simpl. split; [done|].
      unfold searchCount. simpl. lia.
    + destruct (catchError_final engine error s0) as
        (info & s1 & -> & Hty1 & Hsr & Hcache & _ & Htr & Hatt & Hm1).
      { apply shouldRetry_exhausted. unfold attemptsOf, limitOf in Hge. lia. }
      rewrite resume_settled. exists info, s1. split; [done|].
      split; [by rewrite Hty1|]. split; [done|].
      assert (Hc1 : attemptsOf engine s1 = attemptsOf engine s0).
      { unfold attemptsOf, currentAttempts. by rewrite Hatt. }
      split; [lia|]. split; [congruence|].
      split; [unfold miss; by rewrite Hcache|].
      rewrite Htr, delaysOf_app, searchCount_app, Hd0, Hs0.
      replace (limitOf s - attemptsOf engine s)%nat with 0%nat by lia.
      simpl. rewrite app_nil_r. unfold searchCount. simpl. split; [done | lia].
  - destruct (waited_view env engine env_foreign k d s)
      as (Hc0 & Hm0 & Hs0 & Hd0).
    assert (Hmiss0 : miss engine query language (env k (tick d s))) by by apply env_miss.
    set (s0 := env k (tick d s)) in *.
    destruct (attemptSync_miss (S n) s0 Hmiss0) as (s1 & -> & Hcache & Hh & Htr).
    assert (Hc1 : attemptsOf engine s1 = attemptsOf engine s0).
    { unfold attemptsOf. by rewrite Hh. }
    assert (Hm1 : limitOf s1 = limitOf s0).
    { unfold limitOf. by rewrite Hh. }
    destruct (IH AwaitSearch s1 (S n) (S k))
      as (info' & s' & Hres & Hty' & Hsr' & Hc' & Hm' & Hmiss' & Hdl' & Hsc').
    { simpl. lia. }
    { unfold miss. by rewrite Hcache. }
    { lia. }
    { by left. }
    exists info', s'. split; [exact Hres|].
    split; [done|]. split; [done|]. split; [congruence|].
    split; [congruence|]. split; [done|].
    rewrite Hdl', Hsc', Htr, delaysOf_app, searchCount_app. simpl.
    rewrite app_nil_r, Hd0, Hs0, Hc1, Hm1, Hm0, Hc0. split; [done|].
    unfold searchCount. simpl. rewrite eqb_refl. simpl. lia.
Qed.

End Exhaustion.

Section RetryPolicy.
Import ErrorHandler SearchManager.
Variable calculateSize : SearchResult.t -> Z.

Lemma backoff_seq_lookup (j i : nat) (d : Z) :
  List.map backoff (seq 0 j) !! i = Some d ->
  d = Z.min (1000 * 2 ^ Z.of_nat i) 10000.
Proof.
  intros H. change (List.map backoff (seq 0 j)) with (backoff <$> seq 0 j) in H.
  rewrite list_lookup_fmap in H.
  destruct (seq 0 j !! i) as [x|] eqn:Hx; [|done].
  apply lookup_seq in Hx as [-> _]. simpl in H. by injection H as <-.
Qed.

(** C5.  A provider whose retry counter is at zero and whose [search] fails
    with a retryable error at every attempt is resolved with at most
    [1 + maxRetries] calls of [search]; the delays of its timers are, in
    order, [min(1000 * 2^i, 10000)] for i = 0, 1, ... (the counter before the
    retry is recorded), so they never decrease and stay at or below 10000.
    When moreover no check refuses and the cache never holds the key, all
    [maxRetries] retries are made and the resolution ends rejected. *)
Theorem retry_bound_and_backoff env engine ad query language fuel s :
  foreign env engine ->
  attemptsOf engine s = 0%nat ->
  alwaysFails ad query language ->
  (2 * limitOf s + 1 <= fuel)%nat ->
  exists o s' j,
    searchEngineWithErrorHandling calculateSize fuel env engine ad query language s
    = Some (o, s')
    /\ (searchCount engine (trace s')
        <= searchCount engine (trace s) + (1 + limitOf s))%nat
    /\ (j <= limitOf s)%nat
    /\ delaysOf engine (trace s')
       = delaysOf engine (trace s) ++ List.map backoff (seq 0 j)
    /\ (forall i d, List.map backoff (seq 0 j) !! i = Some d ->
                    d = Z.min (1000 * 2 ^ Z.of_nat i) 10000)
    /\ Sorted Z.le (List.map backoff (seq 0 j))
    /\ (neverRefuses ad ->
        miss engine query language s ->
        (forall k s0, miss engine query language s0 ->
                      miss engine query language (env k s0)) ->
        j = limitOf s
        /\ searchCount engine (trace s')
           = (searchCount engine (trace s) + (1 + limitOf s))%nat
        /\ exists info,
            o = Rejected engine info /\ ErrorInfo.shouldRetry info = false).
Proof.
  intros Henv Hzero Hfails Hfuel. unfold searchEngineWithErrorHandling.
  destruct (attemptSync engine ad query language 0 s) as [p s1] eqn:Hstep.
  destruct (attemptSync_view _ _ _ _ _ _ _ _ Hstep)
    as (Hatt & Hm1 & _ & evs & Htr & _ & Hdl & Hcase).
  assert (Hc1 : attemptsOf engine s1 = 0%nat).
  { rewrite <- Hzero. unfold attemptsOf, currentAttempts. by rewrite Hatt. }
  destruct (resume_bound calculateSize env engine ad query language Henv
              fuel p s1 0 0) as (o & s' & Hres & Hm' & j & Hdl' & Hj & Hsc').
  { destruct Hcase as [(o & -> & _) | (-> & _)]; simpl; lia. }
  { intros d ->. destruct Hcase as [(? & [=] & _) | ([=] & _)]. }
  exists o, s', j. split; [exact Hres|].
  rewrite Hc1 in Hdl', Hj. rewrite Htr, delaysOf_app, Hdl, app_nil_r in Hdl'.
  rewrite Htr, searchCount_app in Hsc'.
  assert (Hp : pendingSearch p = 0%nat).
  { by destruct Hcase as [(? & -> & _) | (-> & _)]. }
  assert (Hevs : (searchCount engine evs <= 1)%nat).
  { destruct Hcase as [(? & _ & _ & ->) | (_ & ->)]; lia. }
  split; [lia|]. split; [lia|]. split; [exact Hdl'|].
  split; [apply backoff_seq_lookup|]. split; [apply backoff_seq_sorted|].
  intros Hopen Hmiss Henvmiss.
  destruct (attemptSync_miss engine ad query language Hopen 0 s Hmiss)
    as (s1' & Hstep' & Hcache & Hh & Htr').
  rewrite Hstep in Hstep'. injection Hstep' as -> <-.
  destruct (resume_exhaust calculateSize env engine ad query language
              Henv Henvmiss Hfails Hopen fuel AwaitSearch s1 0 0)
    as (info & s'' & Hres' & _ & Hsr & _ & _ & _ & Hdl'' & Hsc'').
  { simpl. lia. }
  { unfold miss. by rewrite Hcache. }
  { lia. }
  { by left. }
  rewrite Hres in Hres'. injection Hres' as -> <-.
  rewrite Hc1, Nat.sub_0_r, Hm1 in Hdl'', Hsc''.
  rewrite Htr, delaysOf_app, Hdl, app_nil_r in Hdl''.
  rewrite Hdl' in Hdl''. apply app_inv_head in Hdl''.
  apply (f_equal (@length Z)) in Hdl''. rewrite !length_map, !length_seq in Hdl''.
  split; [done|]. split; [|eauto].
  rewrite Hsc'', Htr', searchCount_app. unfold searchCount at 2. simpl.
  rewrite eqb_refl. simpl. lia.
Qed.

End RetryPolicy.

Section WorldFacts.
Import ErrorHandler SearchManager.

Lemma still_foreign engine : foreign still engine.
Proof. intros k s. by repeat split. Defined.

Lemma failing_alwaysFails q lang : alwaysFails failing q lang.
Proof.
  intros n. exists networkError. split; [reflexivity|].
  change (classify networkError) with network. apply list_elem_of_here.
Defined.

End WorldFacts.

Lemma retry_bound_and_backoff_witness :
  exists o s' j,
    SearchManager.searchEngineWithErrorHandling flatSize 7 SearchManager.still
      providerA failing cats en (SearchManager.initial 1000) = Some (o, s')
    /\ (SearchManager.searchCount providerA (SearchManager.trace s') <= 4)%nat
    /\ (j <= 3)%nat
    /\ SearchManager.delaysOf providerA (SearchManager.trace s')
       = List.map ErrorHandler.backoff (seq 0 j).
Proof.
  destruct (retry_bound_and_backoff flatSize SearchManager.still providerA
              failing cats en 7 (SearchManager.initial 1000))
    as (o & s' & j & Hres & Hsc & Hj & Hdl & _).
  - apply still_foreign.
  - reflexivity.
  - apply failing_alwaysFails.
  - vm_compute. lia.
  - exists o, s', j. split; [exact Hres|]. split; [exact Hsc|].
    split; [exact Hj | exact Hdl].
Defined.

(** The run of that provider: four calls of [search], delays 1000, 2000 and
    4000, then the rejection. *)
Example retry_chain_of_a_failing_provider :
  let s' := snd <$> SearchManager.searchEngineWithErrorHandling flatSize 7
                      SearchManager.still providerA failing cats en
                      (SearchManager.initial 1000) in
  (SearchManager.searchCount providerA ∘ SearchManager.trace) <$> s' = Some 4%nat
  /\ (SearchManager.delaysOf providerA ∘ SearchManager.trace) <$> s'
     = Some [1000; 2000; 4000]
  /\ attemptsOf providerA <$> s' = Some 3%nat.
Proof. vm_compute. done. Qed.

(** ** Availability and rate limit *)

Section Availability.
Import ErrorHandler SearchManager.

(** C9, as the code has it.  When a lookup misses and [checkRateLimit] or
    [isAvailable] answers false, [search] is not called, the attempt settles
    as rejected with an error record of type [general] that is not marked for
    retry, and the retry counters are left as they were. *)
Theorem refused_attempt_settles_as_general engine ad query language n s :
  fst (SearchCache.get (clock s)
         (SearchCache.generateCacheKey engine query language) (cache s)) = None ->
  refuses (checkRateLimit ad) n = true \/ refuses (isAvailable ad) n = true ->
  exists info s',
    attemptSync engine ad query language n s = (Settled (Rejected engine info), s')
    /\ ErrorInfo.type info = general
    /\ ErrorInfo.shouldRetry info = false
    /\ ErrorInfo.retryDelay info = None
    /\ retryAttempts (errorHandler s') = retryAttempts (errorHandler s)
    /\ searchCount engine (trace s') = searchCount engine (trace s)
    /\ delaysOf engine (trace s') = delaysOf engine (trace s).
Proof.
  intros Hmiss Hrefused. unfold attemptSync.
  destruct (SearchCache.get _ _ _) as [[r|] c]; [done|]. clear Hmiss.
  set (s1 := emit _ _).
  assert (Hfinal : forall msg, classify (JsError.Error msg) = general ->
    exists info s',
      catchError engine (JsError.Error msg) s1 = (Settled (Rejected engine info), s')
      /\ ErrorInfo.type info = general
      /\ ErrorInfo.shouldRetry info = false
      /\ ErrorInfo.retryDelay info = None
      /\ retryAttempts (errorHandler s') = retryAttempts (errorHandler s)
      /\ searchCount engine (trace s') = searchCount engine (trace s)
      /\ delaysOf engine (trace s') = delaysOf engine (trace s)).
  { intros msg Hc. unfold catchError.
    pose proof (handleEngineError_spec (JsError.Error msg) engine (errorHandler s1))
      as Hspec.
    assert (Hdelay : ErrorInfo.retryDelay
      (fst (handleEngineError (JsError.Error msg) engine (errorHandler s1))) = None).
    { unfold handleEngineError. by rewrite Hc. }
    destruct (handleEngineError _ _ _) as [info h]. simpl in *.
    destruct Hspec as (Hatt & _ & Hty & Hsr & _).
    rewrite Hc in Hty, Hsr. rewrite general_not_retryable in Hsr. rewrite Hsr.
    exists info. eexists. split; [reflexivity|]. simpl.
    rewrite !searchCount_app, !delaysOf_app. simpl.
    rewrite !app_nil_r. unfold searchCount. simpl. repeat split; try done. lia. }
  destruct (refuses (checkRateLimit ad) n) eqn:Hrate.
  { apply Hfinal, classify_rateLimit. }
  destruct Hrefused as [? | ->]; [done|].
  apply Hfinal, classify_unavailable.
Qed.

End Availability.

Lemma refused_attempt_settles_as_general_witness :
  exists info s',
    SearchManager.attemptSync providerA (unavailable providerA) cats en 0
      (SearchManager.initial 1000)
    = (SearchManager.Settled (SearchManager.Rejected providerA info), s')
    /\ ErrorInfo.type info = general.
Proof.
  destruct (refused_attempt_settles_as_general providerA (unavailable providerA)
              cats en 0 (SearchManager.initial 1000))
    as (info & s' & Hres & Hty & _).
  - reflexivity.
  - right. reflexivity.
  - exists info, s'. split; [exact Hres | exact Hty].
Defined.

(** C9 as stated fails: a provider whose [isAvailable] answers false is
    recorded under the type [general], not under the type the code keeps for
    a platform-level denial. *)
Lemma unavailable_provider_is_not_classified_unavailable :
  exists info s',
    SearchManager.attemptSync providerA (unavailable providerA) cats en 0
      (SearchManager.initial 1000)
    = (SearchManager.Settled (SearchManager.Rejected providerA info), s')
    /\ ErrorInfo.type info = general
    /\ ErrorInfo.type info <> cors
    /\ SearchManager.errorTypeName (ErrorInfo.type info) <> js "unavailable".
Proof.
  eexists _, _. split; [reflexivity|]. simpl. repeat split; discriminate.
Qed.

(** ** The life of a retry counter *)

Section CounterLife.
Import ErrorHandler SearchManager.
Variable calculateSize : SearchResult.t -> Z.

Lemma fanOut_attempts adapters query language s :
  retryAttempts (errorHandler (snd (fanOut adapters query language s)))
  = retryAttempts (errorHandler s).
Proof.
  revert s. induction adapters as [|[engine ad] rest IH]; intros s; [done|].
  simpl. destruct (attemptSync engine ad query language 0 s) as [p s1] eqn:Hstep.
  specialize (IH s1). destruct (fanOut rest query language s1) as [ps s2].
  simpl in *. rewrite IH.
  by destruct (attemptSync_view _ _ _ _ _ _ _ _ Hstep) as (-> & _).
Qed.

Lemma success_resets engine ad query language n s r :
  search ad query language n = Resolved r ->
  exists s',
    afterSearch calculateSize engine ad query language n s
    = (Settled (Fulfilled engine r), s')
    /\ attemptsOf engine s' = 0%nat.
Proof.
  intros Hr. unfold afterSearch. rewrite Hr. eexists. split; [reflexivity|].
  unfold attemptsOf. simpl. apply currentAttempts_reset.
Qed.

Lemma exhausted_failure_is_final env engine ad query language fuel s error :
  (limitOf s <= attemptsOf engine s)%nat ->
  miss engine query language s ->
  refuses (checkRateLimit ad) 0 = false ->
  refuses (isAvailable ad) 0 = false ->
  search ad query language 0 = Thrown error ->
  foreign env engine ->
  exists info s',
    searchEngineWithErrorHandling calculateSize (S fuel) env engine ad
      query language s = Some (Rejected engine info, s')
    /\ ErrorInfo.shouldRetry info = false
    /\ searchCount engine (trace s') = S (searchCount engine (trace s))
    /\ delaysOf engine (trace s') = delaysOf engine (trace s)
    /\ attemptsOf engine s' = attemptsOf engine s.
Proof.
  intros Hge Hmiss Hrate Havail Hthrown Henv.
  unfold searchEngineWithErrorHandling, attemptSync, SearchCache.get.
  rewrite Hmiss, Hrate, Havail. cbn [resume].
  set (s1 := emit _ (emit _ _)).
  assert (Hs1 : sameView engine s1 (env 0%nat (tick (latency ad 0) s1))).
  { apply waited_view, Henv. }
  destruct Hs1 as (Hc0 & Hm0 & Hs0 & Hd0).
  set (s0 := env 0%nat (tick (latency ad 0) s1)) in *.
  unfold afterSearch. rewrite Hthrown.
  destruct (catchError_final engine error s0) as
    (info & s2 & -> & _ & Hsr & _ & _ & Htr & Hatt & _).
  { apply shouldRetry_exhausted. fold (limitOf s0) (attemptsOf engine s0).
    rewrite Hm0, Hc0. subst s1. unfold limitOf, attemptsOf in *. simpl. lia. }
  rewrite resume_settled. exists info, s2. split; [done|]. split; [done|].
  rewrite Htr, searchCount_app, delaysOf_app, Hs0, Hd0. subst s1. simpl.
  rewrite !searchCount_app, !delaysOf_app. simpl. rewrite !app_nil_r.
  unfold searchCount. simpl. rewrite eqb_refl. simpl.
  split; [lia|]. split; [done|].
  unfold attemptsOf, currentAttempts in *. rewrite Hatt. rewrite Hc0. done.
Qed.

(** C6, as the code has it.  The retry counter of a provider goes back to
    zero when a [search] of that provider resolves.  The start of an
    aggregation call does not reset it: the first attempts of a call leave
    every counter as the call found it.  So a resolution that used up its
    retries leaves the counter at [maxRetries], and a resolution that starts
    with the counter at [maxRetries] or above ends at the first failure of
    [search], with no timer and with the counter unchanged. *)
Theorem retry_counter_is_reset_by_success_not_by_a_new_call :
  (forall engine ad query language n s r,
      search ad query language n = Resolved r ->
      exists s',
        afterSearch calculateSize engine ad query language n s
        = (Settled (Fulfilled engine r), s')
        /\ attemptsOf engine s' = 0%nat)
  /\ (forall adapters query language s,
      retryAttempts (errorHandler (snd (fanOut adapters query language s)))
      = retryAttempts (errorHandler s))
  /\ (forall env engine ad query language fuel s,
      foreign env engine ->
      attemptsOf engine s = 0%nat ->
      alwaysFails ad query language ->
      neverRefuses ad ->
      miss engine query language s ->
      (forall k s0, miss engine query language s0 ->
                    miss engine query language (env k s0)) ->
      (2 * limitOf s + 1 <= fuel)%nat ->
      exists info s',
        searchEngineWithErrorHandling calculateSize fuel env engine ad
          query language s = Some (Rejected engine info, s')
        /\ attemptsOf engine s' = limitOf s)
  /\ (forall env engine ad query language fuel s error,
      (limitOf s <= attemptsOf engine s)%nat ->
      miss engine query language s ->
      refuses (checkRateLimit ad) 0 = false ->
      refuses (isAvailable ad) 0 = false ->
      search ad query language 0 = Thrown error ->
      foreign env engine ->
      exists info s',
        searchEngineWithErrorHandling calculateSize (S fuel) env engine ad
          query language s = Some (Rejected engine info, s')
        /\ ErrorInfo.shouldRetry info = false
        /\ searchCount engine (trace s') = S (searchCount engine (trace s))
        /\ delaysOf engine (trace s') = delaysOf engine (trace s)
        /\ attemptsOf engine s' = attemptsOf engine s).
Proof.
  split; [apply success_resets|]. split; [apply fanOut_attempts|].
  split; [|apply exhausted_failure_is_final].
  intros env engine ad query language fuel s Henv Hzero Hfails Hopen Hmiss
         Henvmiss Hfuel.
  unfold searchEngineWithErrorHandling.
  destruct (attemptSync_miss engine ad query language Hopen 0 s Hmiss)
    as (s1 & -> & Hcache & Hh & Htr).
  destruct (resume_exhaust calculateSize env engine ad query language
              Henv Henvmiss Hfails Hopen fuel AwaitSearch s1 0 0)
    as (info & s' & Hres & _ & _ & Hc' & _).
  - simpl. unfold limitOf, attemptsOf in *. rewrite Hh. lia.
  - unfold miss. by rewrite Hcache.
  - unfold limitOf, attemptsOf in *. rewrite Hh. lia.
  - by left.
  - exists info, s'. split; [exact Hres|]. rewrite Hc'.
    unfold limitOf. by rewrite Hh.
Qed.

End CounterLife.

Lemma retry_counter_is_reset_by_success_not_by_a_new_call_witness :
  (exists s',
      SearchManager.afterSearch flatSize providerB (answering providerB) cats en 0
        (SearchManager.initial 1000)
      = (SearchManager.Settled
           (SearchManager.Fulfilled providerB (hitsFor providerB cats en)), s')
      /\ attemptsOf providerB s' = 0%nat)
  /\ (exists info s',
      SearchManager.searchEngineWithErrorHandling flatSize 7 SearchManager.still
        providerA failing cats en (SearchManager.initial 1000)
      = Some (SearchManager.Rejected providerA info, s')
      /\ attemptsOf providerA s' = 3%nat).
Proof.
  destruct (retry_counter_is_reset_by_success_not_by_a_new_call flatSize)
    as (Hreset & _ & Hexhaust & _).
  split.
  - apply (Hreset providerB (answering providerB) cats en 0%nat
             (SearchManager.initial 1000) (hitsFor providerB cats en)).
    reflexivity.
  - apply (Hexhaust SearchManager.still providerA failing cats en 7%nat
             (SearchManager.initial 1000)).
    + apply still_foreign.
    + reflexivity.
    + apply failing_alwaysFails.
    + intros n. split; reflexivity.
    + reflexivity.
    + intros k s0 H. exact H.
    + vm_compute. lia.
Defined.

(** C6 as stated fails: the call issued after a call in which providerA used
    up its retries finds the counter of providerA at 3, not at zero, so it
    calls [search] of providerA once and sets no timer. *)
Lemma retry_counter_survives_into_the_next_call :
  returned firstCall <> None
  /\ attemptsOf providerA (stateAfter firstCall) = 3%nat
  /\ attemptsOf providerA (stateAfter firstCall) <> 0%nat
  /\ returned secondCall <> None
  /\ SearchManager.searchCount providerA
       (SearchManager.trace (stateAfter secondCall))
     = S (SearchManager.searchCount providerA
            (SearchManager.trace (stateAfter firstCall)))
  /\ SearchManager.delaysOf providerA
       (SearchManager.trace (stateAfter secondCall))
     = SearchManager.delaysOf providerA
         (SearchManager.trace (stateAfter firstCall))
  /\ attemptsOf providerA (stateAfter secondCall) = 3%nat.
Proof. vm_compute. repeat split; discriminate. Qed.

(** ** The aggregation call *)

Section Aggregation.
Import ErrorHandler SearchManager.
Variable calculateSize : SearchResult.t -> Z.
Variables query language : jsstring.

Lemma resume_still fuel :
  forall engine ad p s n k o s',
    resume calculateSize fuel still engine ad query language n k p s
    = Some (o, s') ->
    limitOf s' = limitOf s
    /\ (forall o0, p = Settled o0 -> o = o0 /\ s' = s)
    /\ ((forall o0, p = Settled o0 -> outcomeEngine o0 = engine) ->
        outcomeEngine o = engine)
    /\ exists evs,
        trace s' = trace s ++ evs
        /\ Forall (fun ev => eventEngine ev = engine) evs.
Proof.
  induction fuel as [|fuel IH]; intros engine ad p s n k o s' Hres.
  - destruct p; simpl in Hres; try done. injection Hres as <- <-.
    split; [done|]. split; [by intros ? [= <-]|]. split; [eauto|].
    exists []. by rewrite app_nil_r.
  - destruct p as [o0| |d]; cbn [resume] in Hres.
    + injection Hres as <- <-.
      split; [done|]. split; [by intros ? [= <-]|]. split; [eauto|].
      exists []. by rewrite app_nil_r.
    + unfold still at 1 in Hres.
      destruct (afterSearch _ _ _ _ _ _ _) as [p' s1] eqn:Hstep.
      destruct (afterSearch_view _ _ _ _ _ _ _ _ _ Hstep)
        as (Hm1 & _ & evs & Htr & Htag & _ & Hcase).
      destruct (IH _ _ _ _ _ _ _ _ Hres) as (Hm' & _ & Hout & evs' & Htr' & Htag').
      split; [by rewrite Hm', Hm1|]. split; [done|]. split.
      * intros _. apply Hout. intros o0 ->.
        by destruct Hcase as [(? & [= <-] & ? & _) | ([=] & _)].
      * exists (evs ++ evs'). rewrite Htr', Htr. simpl. rewrite <- app_assoc.
        split; [done|]. by apply Forall_app.
    + unfold still at 1 in Hres.
      destruct (attemptSync _ _ _ _ _ _) as [p' s1] eqn:Hstep.
      destruct (attemptSync_view _ _ _ _ _ _ _ _ Hstep)
        as (_ & Hm1 & _ & evs & Htr & Htag & _ & Hcase).
      destruct (IH _ _ _ _ _ _ _ _ Hres) as (Hm' & _ & Hout & evs' & Htr' & Htag').
      split; [by rewrite Hm', Hm1|]. split; [done|]. split.
      * intros _. apply Hout. intros o0 ->.
        by destruct Hcase as [(? & [= <-] & ? & _) | ([=] & _)].
      * exists (evs ++ evs'). rewrite Htr', Htr. simpl. rewrite <- app_assoc.
        split; [done|]. by apply Forall_app.
Qed.

Lemma fanOut_spec adapters :
  forall s ps s1,
    fanOut adapters query language s = (ps, s1) ->
    List.map (fun x : pending => x.1.1) ps = List.map fst adapters
    /\ limitOf s1 = limitOf s /\ clock s1 = clock s
    /\ Forall notTimer ps /\ Forall tagged ps
    /\ exists evs,
        trace s1 = trace s ++ evs
        /\ Forall (fun ev => eventEngine ev ∈ List.map fst adapters) evs.
Proof.
  induction adapters as [|[engine ad] rest IH]; intros s ps s1 Hfan.
  - injection Hfan as <- <-. repeat split; try done.
    exists []. by rewrite app_nil_r.
  - simpl in Hfan.
    destruct (attemptSync engine ad query language 0 s) as [p s0] eqn:Hstep.
    destruct (fanOut rest query language s0) as [ps' s2] eqn:Hrest.
    injection Hfan as <- <-.
    destruct (attemptSync_view _ _ _ _ _ _ _ _ Hstep)
      as (_ & Hm0 & Hclock0 & evs & Htr & Htag & _ & Hcase).
    destruct (IH _ _ _ Hrest)
      as (Hnames & Hm & Hclock & Hnt & Htg & evs' & Htr' & Htag').
    simpl. split; [by rewrite Hnames|]. split; [congruence|].
    split; [congruence|]. split.
    { constructor; [|done]. intros d. simpl.
      by destruct Hcase as [(? & -> & _) | (-> & _)]. }
    split.
    { constructor; [|done]. intros o. simpl. intros ->.
      by destruct Hcase as [(? & [= <-] & ? & _) | ([=] & _)]. }
    exists (evs ++ evs'). rewrite Htr', Htr, <- app_assoc. split; [done|].
    apply Forall_app. split.
    + eapply Forall_impl; [exact Htag|]. simpl. intros ev ->.
      apply list_elem_of_here.
    + eapply Forall_impl; [exact Htag'|]. simpl. intros ev Hin.
      by apply list_elem_of_further.
Qed.

Lemma settleAll_spec fuel ps :
  forall s,
    Forall notTimer ps ->
    (2 * limitOf s + 1 <= fuel)%nat ->
    exists outcomes s',
      settleAll calculateSize fuel ps query language s = Some (outcomes, s')
      /\ limitOf s' = limitOf s
      /\ Forall2 (fun (x : pending) o =>
                    (forall o0, x.2 = Settled o0 -> o = o0)
                    /\ (tagged x -> outcomeEngine o = x.1.1)) ps outcomes
      /\ exists evs,
          trace s' = trace s ++ evs
          /\ Forall (fun ev => exists x : pending,
                       x ∈ ps /\ unsettled x /\ eventEngine ev = x.1.1) evs.
Proof.
  induction ps as [|[[engine ad] p] rest IH]; intros s Hnt Hfuel.
  - exists [], s. split; [done|]. split; [done|]. split; [constructor|].
    exists []. by rewrite app_nil_r.
  - apply Forall_cons_1 in Hnt as [Hp Hnt]. cbn [settleAll].
    destruct (resume_bound calculateSize still engine ad query language
                (still_foreign engine) fuel p s 0 0)
      as (o & s1 & Hres & Hm1 & _).
    { unfold notTimer in Hp. simpl in Hp.
      destruct p as [?| |d]; simpl; [lia | lia | by destruct (Hp d)]. }
    { intros d ->. by destruct (Hp d). }
    rewrite Hres.
    destruct (resume_still _ _ _ _ _ _ _ _ _ Hres)
      as (_ & Hsettled & Hout & evs & Htr & Htag).
    destruct (IH s1 Hnt) as (os & s' & Hall & Hm' & Hrel & evs' & Htr' & Htag').
    { lia. }
    rewrite Hall. exists (o :: os), s'. split; [done|]. split; [congruence|].
    split.
    { constructor; [|done]. simpl. split; [apply Hsettled|].
      intros Htg. apply Hout. exact Htg. }
    destruct p as [o0| |d].
    + (* already settled: nothing happens *)
      destruct (Hsettled o0 eq_refl) as [_ ->].
      exists evs'. split; [done|].
      eapply Forall_impl; [exact Htag'|]. simpl.
      intros ev (x & Hin & Hx). exists x. split; [|done].
      by apply list_elem_of_further.
    + exists (evs ++ evs'). rewrite Htr', Htr, <- app_assoc. split; [done|].
      apply Forall_app. split.
      * eapply Forall_impl; [exact Htag|]. simpl. intros ev Hev.
        exists (engine, ad, AwaitSearch). split; [apply list_elem_of_here|].
        split; [by intros o1|done].
      * eapply Forall_impl; [exact Htag'|]. simpl.
        intros ev (x & Hin & Hx). exists x. split; [|done].
        by apply list_elem_of_further.
    + by destruct (Hp d).
Qed.

End Aggregation.

Section Processing.
Import ErrorHandler SearchManager.

(** [Promise.allSettled] hands over [{status: 'fulfilled', value: o}] for
    every promise, also when [o] is the object of a rejection: the entry
    counts as a success and the object [o] itself becomes its [data]. *)
Lemma processResult_settled acc o :
  processResult acc (wrap o)
  = {| query := query acc; language := language acc; totalTime := totalTime acc;
       engines := <[outcomeEngine o := slotOf o]> (engines acc);
       summary := {| total := total (summary acc);
                     successful := successful (summary acc) + 1;
                     failed := failed (summary acc);
                     totalResults := totalResults (summary acc) + 0 |} |}.
Proof. destruct o; reflexivity. Qed.

Lemma process_fold outcomes :
  forall acc,
    let r := fold_left processResult (List.map wrap outcomes) acc in
    successful (summary r) = successful (summary acc) + Z.of_nat (length outcomes)
    /\ failed (summary r) = failed (summary acc)
    /\ total (summary r) = total (summary acc)
    /\ (forall e slot,
          engines r !! e = Some slot ->
          engines acc !! e = Some slot
          \/ exists o, o ∈ outcomes /\ outcomeEngine o = e /\ slot = slotOf o)
    /\ (forall o,
          o ∈ outcomes ->
          (forall o', o' ∈ outcomes -> outcomeEngine o' = outcomeEngine o -> o' = o) ->
          engines r !! outcomeEngine o = Some (slotOf o)).
Proof.
  induction outcomes as [|o os IH]; intros acc; cbn zeta.
  - simpl. split; [lia|]. split; [done|]. split; [done|].
    split; [by left|]. intros o Hin. by apply elem_of_nil in Hin.
  - cbn [List.map fold_left]. rewrite processResult_settled.
    set (acc' := Processed _ _ _ _ _).
    destruct (IH acc') as (Hs & Hf & Ht & Hslots & Hlook).
    rewrite Hs, Hf, Ht. subst acc'. cbn [summary successful failed total engines] in *.
    split; [simpl length; lia|]. split; [done|].
    split; [done|]. split.
    + intros e slot Hr. destruct (Hslots e slot Hr) as [Hacc | (o' & Hin & He & Hsl)].
      * destruct (decide (outcomeEngine o = e)) as [<- | Hne].
        -- rewrite lookup_insert_eq in Hacc. injection Hacc as <-.
           right. exists o. split; [apply list_elem_of_here | done].
        -- rewrite lookup_insert_ne in Hacc by done. by left.
      * right. exists o'. split; [by apply list_elem_of_further | done].
    + intros o1 Hin Huniq.
      apply elem_of_cons in Hin as [-> | Hos].
      * destruct (fold_left processResult (List.map wrap os) _) as [? ? ? eng ?]
          eqn:Hfold.
        cbn [engines] in *.
        destruct (eng !! outcomeEngine o) as [slot|] eqn:He.
        -- destruct (Hslots _ _ He) as [Hacc | (o' & Hin & Heq & ->)].
           ++ by rewrite lookup_insert_eq in Hacc.
           ++ f_equal. f_equal. apply Huniq; [|done].
              by apply list_elem_of_further.
        -- exfalso.
           assert (Hmono : forall l acc0 e,
             is_Some (engines acc0 !! e) ->
             is_Some (engines (fold_left processResult (List.map wrap l) acc0) !! e)).
           { clear. induction l as [|o l IHl]; intros acc0 e Hsome; [done|].
             cbn [List.map fold_left]. apply IHl.
             rewrite processResult_settled. cbn [engines].
             destruct (decide (outcomeEngine o = e)) as [<- | Hne].
             - rewrite lookup_insert_eq. eauto.
             - by rewrite lookup_insert_ne. }
           specialize (Hmono os
             {| query := query acc; language := language acc;
                totalTime := totalTime acc;
                engines := <[outcomeEngine o:=slotOf o]> (engines acc);
                summary := {| total := total (summary acc);
                              successful := successful (summary acc) + 1;
                              failed := failed (summary acc);
                              totalResults := totalResults (summary acc) + 0 |} |}
             (outcomeEngine o)).
           rewrite Hfold in Hmono. cbn [engines] in Hmono.
           rewrite lookup_insert_eq, He in Hmono.
           destruct Hmono as [? [=]]. eauto.
      * apply Hlook; [done|]. intros o' Hin' He. apply Huniq; [|done].
        by apply list_elem_of_further.
Qed.

End Processing.

Section Calls.
Import ErrorHandler SearchManager.
Variable calculateSize : SearchResult.t -> Z.

Lemma trim_nonempty q : trim q <> [] -> JsString.truthy q = true.
Proof. destruct q; [intros H; by destruct H | done]. Qed.

(** A call with a query that is not blank returns, and its result is
    [processSearchResults] on what [Promise.allSettled] hands over. *)
Lemma searchAll_returns fuel adapters q lang s :
  trim q <> [] ->
  (2 * limitOf s + 1 <= fuel)%nat ->
  exists ps s1 outcomes s2,
    fanOut adapters q lang s = (ps, s1)
    /\ settleAll calculateSize fuel ps q lang s1 = Some (outcomes, s2)
    /\ length outcomes = length adapters
    /\ searchAll calculateSize fuel adapters q lang s
       = Some (Returned (processSearchResults (List.map wrap outcomes) q lang
                           (clock s2 - clock s)), s2).
Proof.
  intros Hq Hfuel. unfold searchAll.
  rewrite (trim_nonempty q Hq). simpl.
  assert (eqb (trim q) [] = false) as -> by by apply eqb_false.
  destruct (fanOut adapters q lang s) as [ps s1] eqn:Hfan.
  destruct (fanOut_spec q lang adapters s ps s1 Hfan)
    as (Hnames & Hm1 & _ & Hnt & _).
  destruct (settleAll_spec calculateSize q lang fuel ps s1 Hnt)
    as (outcomes & s2 & Hall & _ & Hrel & _); [lia|].
  rewrite Hall. exists ps, s1, outcomes, s2. repeat split; try done.
  apply Forall2_length in Hrel. rewrite <- Hrel.
  apply (f_equal (@length jsstring)) in Hnames.
  by rewrite !length_map in Hnames.
Qed.

(** C2.  A query that is empty, or blank once trimmed, makes the call raise
    at once: the state, with its cache and its trace, is the one the call
    was issued in, so nothing was looked up and no provider was called.  With
    any other query the call returns a result, whatever the providers do. *)
Theorem blank_query_is_the_only_raise fuel adapters q lang s :
  (trim q = [] ->
   searchAll calculateSize fuel adapters q lang s
   = Some (Raised (JsError.Error emptyQueryMessage), s))
  /\ (trim q <> [] ->
      (2 * limitOf s + 1 <= fuel)%nat ->
      exists r s',
        searchAll calculateSize fuel adapters q lang s = Some (Returned r, s')).
Proof.
  split.
  - intros Hq. unfold searchAll. rewrite Hq.
    by destruct (negb (JsString.truthy q)).
  - intros Hq Hfuel.
    destruct (searchAll_returns fuel adapters q lang s Hq Hfuel)
      as (ps & s1 & outcomes & s2 & _ & _ & _ & ->). eauto.
Qed.

(** Whatever the providers did, the result of a call reports no failure:
    every slot has status 'success', its [data] is the object the resolution
    returned, and [summary.failed] is 0. *)
Lemma every_slot_is_a_success fuel adapters q lang s r s' :
  searchAll calculateSize fuel adapters q lang s = Some (Returned r, s') ->
  failed (summary r) = 0
  /\ (forall e slot, engines r !! e = Some slot -> status slot = js "success").
Proof.
  unfold searchAll. destruct (_ || _); [done|].
  destruct (fanOut adapters q lang s) as [ps s1].
  destruct (settleAll _ _ _ _ _ _) as [[outcomes s2]|]; [|done].
  intros [= <- <-]. unfold processSearchResults.
  match goal with |- context [fold_left _ _ ?a] =>
    destruct (process_fold outcomes a) as (_ & Hf & _ & Hslots & _) end.
  split; [exact Hf|]. intros e slot He.
  destruct (Hslots e slot He) as [Hacc | (o & _ & _ & ->)]; [|done].
  cbn [engines] in Hacc. by rewrite lookup_empty in Hacc.
Qed.

End Calls.

Lemma blank_query_is_the_only_raise_witness :
  SearchManager.searchAll flatSize 7 twoProviders (js "  ") en
    (SearchManager.initial 1000)
  = Some (SearchManager.Raised (JsError.Error SearchManager.emptyQueryMessage),
          SearchManager.initial 1000)
  /\ exists r s',
      SearchManager.searchAll flatSize 7 twoProviders cats en
        (SearchManager.initial 1000) = Some (SearchManager.Returned r, s').
Proof.
  destruct (blank_query_is_the_only_raise flatSize 7 twoProviders (js "  ") en
              (SearchManager.initial 1000)) as [Hraise _].
  destruct (blank_query_is_the_only_raise flatSize 7 twoProviders cats en
              (SearchManager.initial 1000)) as [_ Hreturn].
  split.
  - apply Hraise. reflexivity.
  - apply Hreturn; [discriminate | vm_compute; lia].
Defined.

(** C1.  One provider fails at every attempt with a retryable error, the
    other one answers.  The call returns, but the slot of the failed provider
    has status 'success', its [error] is undefined, and the summary counts
    two successes and no failure. *)
Theorem exhausted_provider_is_reported_as_success :
  match returned firstCall with
  | Some r =>
      SearchManager.status <$> SearchManager.engines r !! providerA
      = Some (js "success")
      /\ SearchManager.error <$> SearchManager.engines r !! providerA
         = Some JsVal.JUndefined
      /\ SearchManager.status <$> SearchManager.engines r !! providerB
         = Some (js "success")
      /\ SearchManager.successful (SearchManager.summary r) = 2
      /\ SearchManager.failed (SearchManager.summary r) = 0
      /\ SearchManager.total (SearchManager.summary r) = 2
  | None => False
  end
  /\ SearchManager.searchCount providerA
       (SearchManager.trace (stateAfter firstCall)) = 4%nat
  /\ attemptsOf providerA (stateAfter firstCall) = 3%nat.
Proof. vm_compute. repeat split. Qed.

(** ** Cache hits *)

Section CacheHit.
Import ErrorHandler SearchManager.
Variable calculateSize : SearchResult.t -> Z.
Variables query language : jsstring.

Lemma keyOf_inj e e' : keyOf query language e = keyOf query language e' -> e = e'.
Proof. unfold keyOf, SearchCache.generateCacheKey. apply app_inv_tail. Qed.

Lemma get_other_key {A} now k k' (c : SearchCache.t A) :
  k <> k' ->
  JsMap.get k' (SearchCache.cache (snd (SearchCache.get now k c)))
  = JsMap.get k' (SearchCache.cache c).
Proof.
  intros Hne. unfold SearchCache.get.
  destruct (JsMap.get k (SearchCache.cache c)) as [e|]; [|done].
  destruct (now >? SearchCache.expiresAt e); simpl.
  - by apply get_delete_ne.
  - by apply get_set_ne.
Qed.

Lemma attemptSync_cache engine ad n s p s' :
  attemptSync engine ad query language n s = (p, s') ->
  cache s' = snd (SearchCache.get (clock s) (keyOf query language engine) (cache s)).
Proof.
  unfold attemptSync. fold (keyOf query language engine).
  destruct (SearchCache.get _ _ _) as [[r|] c]; [by intros [= <- <-]|].
  set (s1 := emit _ _).
  assert (Hrefused : forall msg, classify (JsError.Error msg) = general ->
    catchError engine (JsError.Error msg) s1 = (p, s') -> cache s' = c).
  { intros msg Hc Heq.
    destruct (refused_is_final engine msg s1 Hc)
      as (info & s2 & Hce & _ & _ & Hcache & _).
    rewrite Hce in Heq. injection Heq as <- <-. by rewrite Hcache. }
  destruct (refuses (checkRateLimit ad) n).
  { apply Hrefused, classify_rateLimit. }
  destruct (refuses (isAvailable ad) n).
  { apply Hrefused, classify_unavailable. }
  by intros [= <- <-].
Qed.

Lemma attemptSync_hit engine ad n s entry :
  JsMap.get (keyOf query language engine) (SearchCache.cache (cache s)) = Some entry ->
  clock s <= SearchCache.expiresAt entry ->
  exists s',
    attemptSync engine ad query language n s
    = (Settled (Fulfilled engine (SearchCache.data entry)), s')
    /\ errorHandler s' = errorHandler s
    /\ trace s' = trace s ++ [CacheLookup engine (keyOf query language engine);
                              DisplayResults engine (SearchCache.data entry)].
Proof.
  intros Hk Hvalid. unfold attemptSync. fold (keyOf query language engine).
  rewrite (cache_get_hit _ _ _ _ _ Hk Hvalid). eexists. split; [reflexivity|].
  simpl. by rewrite <- app_assoc.
Qed.

(** The first attempts of the other providers neither call [search] for
    [engine] nor disturb its cache entry; the attempt of [engine] itself is
    settled from the cache. *)
Lemma fanOut_hit engine ad entry adapters :
  forall s ps s1,
    NoDup (List.map fst adapters) ->
    (engine, ad) ∈ adapters ->
    JsMap.get (keyOf query language engine) (SearchCache.cache (cache s)) = Some entry ->
    clock s <= SearchCache.expiresAt entry ->
    fanOut adapters query language s = (ps, s1) ->
    (exists i, ps !! i = Some (engine, ad,
                               Settled (Fulfilled engine (SearchCache.data entry)))
               /\ List.map fst adapters !! i = Some engine)
    /\ searchCount engine (trace s1) = searchCount engine (trace s).
Proof.
  induction adapters as [|[e0 ad0] rest IH]; intros s ps s1 Hnd Hin Hk Hvalid Hfan.
  { by apply elem_of_nil in Hin. }
  simpl in Hnd. apply NoDup_cons in Hnd as [Hfresh Hnd].
  simpl in Hfan.
  destruct (attemptSync e0 ad0 query language 0 s) as [p s0] eqn:Hstep.
  destruct (fanOut rest query language s0) as [ps' s2] eqn:Hrest.
  injection Hfan as <- <-.
  apply elem_of_cons in Hin as [[= <- <-] | Hin].
  - (* the provider itself *)
    destruct (attemptSync_hit engine ad 0 s entry Hk Hvalid) as (s0' & Hstep' & _ & Htr).
    rewrite Hstep in Hstep'. injection Hstep' as -> <-.
    split; [by exists 0%nat|].
    destruct (fanOut_spec query language rest s0 ps' s2 Hrest)
      as (_ & _ & _ & _ & _ & evs & Htr' & Htag).
    rewrite Htr', Htr, !searchCount_app.
    rewrite (searchCount_foreign engine evs).
    + unfold searchCount. simpl. lia.
    + eapply Forall_impl; [exact Htag|]. simpl. intros ev Hev Heq.
      apply Hfresh. by rewrite <- Heq.
  - (* another provider first *)
    assert (Hne : e0 <> engine).
    { intros ->. apply Hfresh. apply list_elem_of_fmap. by exists (engine, ad). }
    destruct (attemptSync_view _ _ _ _ _ _ _ _ Hstep)
      as (_ & _ & Hclock & evs & Htr & Htag & _).
    destruct (IH s0 ps' s2 Hnd Hin) as ((i & Hi & Hname) & Hsc); [| |done|].
    { rewrite (attemptSync_cache _ _ _ _ _ _ Hstep).
      rewrite get_other_key; [done|]. intros Heq. by apply keyOf_inj in Heq. }
    { by rewrite Hclock. }
    split; [by exists (S i)|].
    rewrite Hsc, Htr, searchCount_app, (searchCount_foreign engine evs); [lia|].
    eapply Forall_impl; [exact Htag|]. simpl. by intros ev ->.
Qed.

End CacheHit.

Section CachedPayload.
Import ErrorHandler SearchManager.
Variable calculateSize : SearchResult.t -> Z.

(** When the cache holds an entry that has not expired under the key of the
    provider, the language and the query, the resolution of that provider is
    fulfilled with the cached payload and [search] of that provider is not
    called: neither by the resolution on its own, nor during a whole call,
    whose result then has the provider's slot at 'success' with the cached
    payload as the [value] of its [data]. *)
Lemma cache_hit_settles_without_search :
  (forall fuel env engine ad query language s entry,
      JsMap.get (SearchCache.generateCacheKey engine query language)
                (SearchCache.cache (cache s)) = Some entry ->
      clock s <= SearchCache.expiresAt entry ->
      exists s',
        searchEngineWithErrorHandling calculateSize fuel env engine ad
          query language s
        = Some (Fulfilled engine (SearchCache.data entry), s')
        /\ searchCount engine (trace s') = searchCount engine (trace s)
        /\ DisplayResults engine (SearchCache.data entry) ∈ trace s')
  /\ (forall fuel adapters engine ad query language s entry,
      trim query <> [] ->
      NoDup (List.map fst adapters) ->
      (engine, ad) ∈ adapters ->
      JsMap.get (SearchCache.generateCacheKey engine query language)
                (SearchCache.cache (cache s)) = Some entry ->
      clock s <= SearchCache.expiresAt entry ->
      (2 * limitOf s + 1 <= fuel)%nat ->
      exists r s',
        searchAll calculateSize fuel adapters query language s
        = Some (Returned r, s')
        /\ (exists slot,
              engines r !! engine = Some slot
              /\ status slot = js "success"
              /\ JsVal.prop (data slot) "value"
                 = SearchResult.toJs (SearchCache.data entry))
        /\ searchCount engine (trace s') = searchCount engine (trace s)).
Proof.
  split.
  - intros fuel env engine ad query language s entry Hk Hvalid.
    unfold searchEngineWithErrorHandling.
    destruct (attemptSync_hit query language engine ad 0 s entry Hk Hvalid)
      as (s' & -> & _ & Htr).
    rewrite resume_settled. exists s'. split; [done|].
    rewrite Htr, searchCount_app. unfold searchCount at 2. simpl.
    split; [lia|]. apply elem_of_app. right.
    apply list_elem_of_further, list_elem_of_here.
  - intros fuel adapters engine ad query language s entry
           Hq Hnd Hin Hk Hvalid Hfuel.
    destruct (searchAll_returns calculateSize fuel adapters query language s
                Hq Hfuel) as (ps & s1 & outcomes & s2 & Hfan & Hall & _ & ->).
    destruct (fanOut_spec query language adapters s ps s1 Hfan)
      as (Hnames & Hm1 & _ & Hnt & Htg & _).
    destruct (fanOut_hit query language engine ad entry adapters s ps s1
                Hnd Hin Hk Hvalid Hfan) as ((i & Hi & Hname) & Hsc1).
    destruct (settleAll_spec calculateSize query language fuel ps s1 Hnt)
      as (outcomes' & s2' & Hall' & _ & Hrel & evs & Htr & Htag); [lia|].
    rewrite Hall in Hall'. injection Hall' as <- <-.
    set (hit := Fulfilled engine (SearchCache.data entry)) in *.
    (* at most one promise per provider *)
    assert (Hsame : forall j (x : pending),
              ps !! j = Some x -> x.1.1 = engine -> j = i).
    { intros j x Hj Hx. eapply NoDup_lookup; [exact Hnd| |exact Hname].
      rewrite <- Hnames.
      change (List.map (fun x : pending => x.1.1) ps)
        with ((fun x : pending => x.1.1) <$> ps).
      rewrite list_lookup_fmap. unfold pending in *. rewrite Hj. simpl.
      by rewrite Hx. }
    destruct (Forall2_lookup_l _ _ _ _ _ Hrel Hi) as (o & Ho & Heq & _).
    specialize (Heq hit eq_refl). subst o.
    eexists _, _. split; [reflexivity|]. split.
    + exists (slotOf hit). split; [|by split].
      unfold processSearchResults.
      match goal with |- context [fold_left _ _ ?a] =>
        destruct (process_fold outcomes a) as (_ & _ & _ & _ & Hlook) end.
      apply (Hlook hit).
      * by eapply list_elem_of_lookup_2.
      * intros o' Hin' He'.
        apply list_elem_of_lookup_1 in Hin' as [j Hj].
        destruct (Forall2_lookup_r _ _ _ _ _ Hrel Hj) as (x & Hx & _ & Hout).
        assert (Hxt : tagged x).
        { eapply Forall_lookup_1; [exact Htg | exact Hx]. }
        assert (j = i) as ->.
        { apply (Hsame j x Hx). rewrite <- (Hout Hxt). exact He'. }
        rewrite Ho in Hj. by injection Hj as <-.
    + rewrite Htr, searchCount_app, Hsc1.
      rewrite (searchCount_foreign engine evs); [lia|].
      eapply Forall_impl; [exact Htag|]. simpl.
      intros ev (x & Hx & Huns & ->) Heq.
      apply list_elem_of_lookup_1 in Hx as [j Hj].
      assert (j = i) as -> by by apply (Hsame j x).
      pose proof (eq_trans (eq_sym Hj) Hi) as Hxi. injection Hxi as ->.
      by apply (Huns hit).
Qed.

End CachedPayload.

(** C8.  The cache is seeded for (providerA, en, "cats") and the call is
    made one minute later, within the time to live, with the query " Cats ".
    [search] of providerA is not called and its resolution is fulfilled with
    the seeded payload.  But the [data] of the slot of providerA is not that
    payload: it is the object the resolution returned, which holds the
    payload as its [value], and the slot counts no result although the
    payload has one. *)
Theorem cached_payload_is_wrapped_in_its_slot :
  match returned seededCall with
  | Some r =>
      SearchManager.data <$> SearchManager.engines r !! providerA
      = Some (SearchManager.outcomeToJs
                (SearchManager.Fulfilled providerA seededPayload))
      /\ SearchManager.data <$> SearchManager.engines r !! providerA
         <> Some (SearchResult.toJs seededPayload)
      /\ (fun slot => JsVal.prop (SearchManager.data slot) "value")
           <$> SearchManager.engines r !! providerA
         = Some (SearchResult.toJs seededPayload)
      /\ SearchManager.resultCount <$> SearchManager.engines r !! providerA
         = Some 0
      /\ length (SearchResult.results seededPayload) = 1%nat
  | None => False
  end
  /\ SearchManager.searchCount providerA
       (SearchManager.trace (stateAfter seededCall)) = 0%nat
  /\ SearchManager.DisplayResults providerA seededPayload
     ∈ SearchManager.trace (stateAfter seededCall).
Proof.
  vm_compute. split; [|split; [reflexivity|]].
  - split; [reflexivity|]. split; [discriminate|]. repeat split.
  - apply list_elem_of_further, list_elem_of_here.
Qed.

(* ================================================================== *)
(** * Further properties *)
(* ================================================================== *)

(** ** More on the insertion-ordered map *)

Section JsMapMore.
Context {V : Type}.
Implicit Types (m : JsMap.t V) (k : jsstring) (v : V).

Lemma get_None_keys m k : JsMap.get k m = None <-> k ∉ JsMap.keys m.
Proof.
  induction m as [|[k' v'] m IH]; simpl.
  - split; [intros _ H; by apply elem_of_nil in H | done].
  - destruct (eqb k k') eqn:E.
    + apply eqb_true in E as ->. split; [done|].
      intros H. destruct H. apply list_elem_of_here.
    + apply eqb_false in E. rewrite IH. split.
      * intros Hn Hin. apply elem_of_cons in Hin as [?|?]; done.
      * intros Hn Hin. apply Hn. by apply list_elem_of_further.
Qed.

Lemma get_Some_elem m k v : JsMap.get k m = Some v -> (k, v) ∈ m.
Proof.
  induction m as [|[k' v'] m IH]; simpl; [done|].
  destruct (eqb k k') eqn:E.
  - apply eqb_true in E as ->. intros [= ->]. apply list_elem_of_here.
  - intros H. apply list_elem_of_further. by apply IH.
Qed.

Lemma elem_get m k v :
  NoDup (JsMap.keys m) -> (k, v) ∈ m -> JsMap.get k m = Some v.
Proof.
  induction m as [|[k' v'] m IH]; simpl; intros Hnd Hin.
  - by apply elem_of_nil in Hin.
  - apply NoDup_cons in Hnd as [Hfresh Hnd].
    apply elem_of_cons in Hin as [[= -> ->] | Hin].
    + by rewrite eqb_refl.
    + destruct (eqb k k') eqn:E; [|by apply IH].
      apply eqb_true in E as ->. destruct Hfresh.
      apply list_elem_of_fmap. by exists (k', v).
Qed.

Lemma set_fresh m k v : k ∉ JsMap.keys m -> JsMap.set k v m = m ++ [(k, v)].
Proof.
  induction m as [|[k' v'] m IH]; simpl; [done|]. intros Hn.
  destruct (eqb k k') eqn:E.
  - apply eqb_true in E as ->. destruct Hn. apply list_elem_of_here.
  - rewrite IH; [done|]. intros Hin. apply Hn. by apply list_elem_of_further.
Qed.

Lemma keys_set_present m k v :
  k ∈ JsMap.keys m -> JsMap.keys (JsMap.set k v m) = JsMap.keys m.
Proof.
  induction m as [|[k' v'] m IH]; simpl; intros Hin.
  - by apply elem_of_nil in Hin.
  - destruct (eqb k k') eqn:E; simpl; [done|]. f_equal. apply IH.
    apply elem_of_cons in Hin as [->|?]; [|done].
    by rewrite eqb_refl in E.
Qed.

Lemma keys_set_NoDup m k v :
  NoDup (JsMap.keys m) -> NoDup (JsMap.keys (JsMap.set k v m)).
Proof.
  intros Hnd. destruct (decide (k ∈ JsMap.keys m)) as [Hin|Hn].
  - by rewrite keys_set_present.
  - rewrite set_fresh by done. unfold JsMap.keys. rewrite map_app. simpl.
    apply NoDup_app. split; [done|]. split; [|apply NoDup_singleton].
    intros x Hx Hk. apply list_elem_of_singleton in Hk as ->. done.
Qed.

Lemma keys_filter_NoDup (f : jsstring * V -> bool) m :
  NoDup (JsMap.keys m) -> NoDup (JsMap.keys (List.filter f m)).
Proof.
  induction m as [|[k v] m IH]; simpl; [done|]. intros Hnd.
  apply NoDup_cons in Hnd as [Hfresh Hnd].
  destruct (f (k, v)); simpl; [|by apply IH].
  apply NoDup_cons. split; [|by apply IH].
  intros Hin. apply Hfresh. unfold JsMap.keys in *.
  apply list_elem_of_fmap in Hin as ([k' v'] & -> & Hin).
  apply list_elem_of_In, filter_In in Hin as [Hin _].
  apply list_elem_of_fmap. exists (k', v'). split; [done|].
  by apply list_elem_of_In.
Qed.

Lemma delete_as_filter m k :
  JsMap.delete k m = List.filter (fun kv => negb (eqb k (fst kv))) m.
Proof.
  induction m as [|[k' v'] m IH]; simpl; [done|].
  destruct (eqb k k'); simpl; by rewrite IH.
Qed.

Lemma keys_delete_NoDup m k :
  NoDup (JsMap.keys m) -> NoDup (JsMap.keys (JsMap.delete k m)).
Proof. rewrite delete_as_filter. apply keys_filter_NoDup. Qed.

Lemma delete_absent m k : k ∉ JsMap.keys m -> JsMap.delete k m = m.
Proof.
  induction m as [|[k' v'] m IH]; simpl; [done|]. intros Hn.
  destruct (eqb k k') eqn:E.
  - apply eqb_true in E as ->. destruct Hn. apply list_elem_of_here.
  - f_equal. apply IH. intros Hin. apply Hn. by apply list_elem_of_further.
Qed.

Lemma delete_length m k :
  NoDup (JsMap.keys m) -> k ∈ JsMap.keys m ->
  S (length (JsMap.delete k m)) = length m.
Proof.
  induction m as [|[k' v'] m IH]; simpl; intros Hnd Hin.
  - by apply elem_of_nil in Hin.
  - apply NoDup_cons in Hnd as [Hfresh Hnd].
    destruct (eqb k k') eqn:E.
    + apply eqb_true in E as ->. by rewrite delete_absent.
    + simpl. f_equal. apply IH; [done|].
      apply elem_of_cons in Hin as [->|?]; [|done]. by rewrite eqb_refl in E.
Qed.

Lemma get_filter (f : jsstring * V -> bool) m k :
  NoDup (JsMap.keys m) ->
  JsMap.get k (List.filter f m)
  = match JsMap.get k m with
    | Some v => if f (k, v) then Some v else None
    | None => None
    end.
Proof.
  induction m as [|[k' v'] m IH]; simpl; [done|]. intros Hnd.
  apply NoDup_cons in Hnd as [Hfresh Hnd].
  destruct (eqb k k') eqn:E.
  - apply eqb_true in E as ->.
    destruct (f (k', v')) eqn:Hf; simpl; [by rewrite eqb_refl|].
    apply get_None_keys. intros Hin. apply Hfresh. unfold JsMap.keys in *.
    apply list_elem_of_fmap in Hin as ([k2 v2] & -> & Hin).
    apply list_elem_of_In, filter_In in Hin as [Hin _].
    apply list_elem_of_fmap. exists (k2, v2). split; [done|].
    by apply list_elem_of_In.
  - destruct (f (k', v')); simpl; [rewrite E|]; by apply IH.
Qed.

End JsMapMore.

(** ** The cache: lookups, sweep and statistics *)

Section CacheLookups.
Variable A : Type.
Implicit Types (c : SearchCache.t A) (k : jsstring).

(** X1.  [has] answers as [get] would: true exactly when [get] returns a
    payload.  But where [get] stamps the entry it returns with the time of
    the read, so that its [lastAccessed] is [now] afterwards, [has] leaves
    the entry, and the whole cache, as they are: a [has] does not protect an
    entry from eviction.  On an expired entry both delete it. *)
Theorem has_answers_as_get_without_touching now k c :
  fst (SearchCache.has now k c)
  = bool_decide (is_Some (fst (SearchCache.get now k c)))
  /\ (fst (SearchCache.has now k c) = true -> snd (SearchCache.has now k c) = c)
  /\ (fst (SearchCache.has now k c) = false ->
      snd (SearchCache.has now k c) = snd (SearchCache.get now k c))
  /\ (forall e,
        JsMap.get k (SearchCache.cache c) = Some e ->
        now <= SearchCache.expiresAt e ->
        JsMap.get k (SearchCache.cache (snd (SearchCache.has now k c))) = Some e
        /\ exists e',
             JsMap.get k (SearchCache.cache (snd (SearchCache.get now k c)))
             = Some e'
             /\ SearchCache.lastAccessed e' = now
             /\ SearchCache.data e' = SearchCache.data e
             /\ SearchCache.createdAt e' = SearchCache.createdAt e
             /\ SearchCache.expiresAt e' = SearchCache.expiresAt e
             /\ SearchCache.size e' = SearchCache.size e).
Proof.
  unfold SearchCache.has, SearchCache.get.
  destruct (JsMap.get k (SearchCache.cache c)) as [e|] eqn:Hk.
  - destruct (now >? SearchCache.expiresAt e) eqn:E; simpl.
    + split; [done|]. split; [done|]. split; [done|].
      intros e' [= <-] Hle. lia.
    + split; [done|]. split; [done|]. split; [done|].
      intros e' [= <-] _. split; [done|].
      exists (SearchCache.touch now e). split; [apply get_set_eq | done].
  - simpl. split; [done|]. split; [done|]. split; done.
Qed.

Lemma statsStep_fold now (m : JsMap.t (SearchCache.entry A)) acc :
  fold_left (SearchCache.statsStep A now) m acc
  = (fold_left (fun a e => a + SearchCache.size e) (JsMap.values m) acc.1.1,
     acc.1.2
     + Z.of_nat (length (List.filter
                           (fun ke => SearchCache.expired now (snd ke)) m)),
     acc.2 + validCount now m).
Proof.
  revert acc. induction m as [|[k e] m IH]; intros [[ts ec] vc].
  - unfold validCount. simpl. repeat f_equal; lia.
  - cbn [fold_left]. rewrite IH.
    unfold SearchCache.statsStep, validCount, validAt, SearchCache.expired.
    simpl.
    destruct (now >? SearchCache.expiresAt e) eqn:E;
      destruct (now <=? SearchCache.expiresAt e) eqn:E'; try lia;
      simpl; rewrite !pair_equal_spec; (split; [split|]); first [done | lia].
Qed.

Lemma valid_plus_expired now (m : JsMap.t (SearchCache.entry A)) :
  validCount now m
  + Z.of_nat (length (List.filter (fun ke => SearchCache.expired now (snd ke)) m))
  = JsMap.size m.
Proof.
  unfold validCount, JsMap.size, validAt, SearchCache.expired.
  induction m as [|[k e] m IH]; [done|]. simpl.
  destruct (now >? SearchCache.expiresAt e) eqn:E;
    destruct (now <=? SearchCache.expiresAt e) eqn:E'; try lia;
    simpl length; lia.
Qed.

Lemma validCount_export now c :
  validCount now (SearchCache.cache c)
  = Z.of_nat (length (SearchCache.export now c)).
Proof.
  unfold SearchCache.export, validCount, validAt. rewrite length_map. f_equal.
  induction (SearchCache.cache c) as [|[k e] m IH]; [done|].
  simpl. destruct (now <=? SearchCache.expiresAt e); simpl; lia.
Qed.

(** X2.  The numbers of [getStats] fit together: every entry is counted
    either as valid or as expired, the total size is the memory in use, and
    the valid entries are as many as [export] would write. *)
Theorem stats_fit_together now c :
  let st := SearchCache.getStats now c in
  SearchCache.validEntries st + SearchCache.expiredEntries st
  = SearchCache.totalEntries st
  /\ 0 <= SearchCache.validEntries st
  /\ 0 <= SearchCache.expiredEntries st
  /\ SearchCache.totalSize st = SearchCache.used (SearchCache.memory st)
  /\ SearchCache.validEntries st
     = Z.of_nat (length (SearchCache.export now c)).
Proof.
  unfold SearchCache.getStats. rewrite statsStep_fold. cbn zeta. simpl.
  pose proof (valid_plus_expired now (SearchCache.cache c)) as Hsum.
  split; [lia|]. split; [unfold validCount; lia|]. split; [lia|].
  split; [done|]. rewrite <- validCount_export. lia.
Qed.

Lemma unexpired_length now (m : JsMap.t (SearchCache.entry A)) :
  JsMap.size (List.filter (fun ke => negb (SearchCache.expired now (snd ke))) m)
  = validCount now m.
Proof.
  unfold validCount, validAt, SearchCache.expired, JsMap.size.
  induction m as [|[k e] m IH]; [done|]. simpl.
  destruct (now >? SearchCache.expiresAt e) eqn:E;
    destruct (now <=? SearchCache.expiresAt e) eqn:E'; try lia;
    simpl length; lia.
Qed.

(** X3.  The sweep removes the expired entries and nothing else: a key is
    found afterwards exactly when it was there with an entry that has not
    expired, which it keeps unchanged; the entries left are as many as the
    statistics counted valid, none of them is reported expired, and a second
    sweep at the same time changes nothing. *)
Theorem cleanup_removes_the_expired_entries_only now c :
  uniqueKeys c ->
  (forall k,
      JsMap.get k (SearchCache.cache (SearchCache.cleanup now c))
      = match JsMap.get k (SearchCache.cache c) with
        | Some e => if SearchCache.expired now e then None else Some e
        | None => None
        end)
  /\ JsMap.size (SearchCache.cache (SearchCache.cleanup now c))
     = SearchCache.validEntries (SearchCache.getStats now c)
  /\ SearchCache.expiredEntries
       (SearchCache.getStats now (SearchCache.cleanup now c)) = 0
  /\ SearchCache.cleanup now (SearchCache.cleanup now c)
     = SearchCache.cleanup now c
  /\ uniqueKeys (SearchCache.cleanup now c).
Proof.
  intros Hnd. unfold uniqueKeys in *. split.
  { intros k. unfold SearchCache.cleanup. simpl. rewrite get_filter by done.
    destruct (JsMap.get k (SearchCache.cache c)) as [e|]; [|done].
    simpl. by destruct (SearchCache.expired now e). }
  assert (Hexp : forall m : JsMap.t (SearchCache.entry A),
    List.filter (fun ke => SearchCache.expired now (snd ke))
      (List.filter (fun ke => negb (SearchCache.expired now (snd ke))) m) = []).
  { induction m as [|[k e] m IH]; [done|]. simpl.
    destruct (SearchCache.expired now e) eqn:E; simpl; [done|]. by rewrite E. }
  split.
  { unfold SearchCache.getStats. rewrite statsStep_fold. simpl.
    unfold SearchCache.cleanup. simpl. rewrite unexpired_length. lia. }
  split.
  { unfold SearchCache.getStats. rewrite statsStep_fold. simpl.
    by rewrite Hexp. }
  split.
  { unfold SearchCache.cleanup, SearchCache.with_cache. simpl. f_equal.
    clear Hnd. induction (SearchCache.cache c) as [|[k e] m IH]; [done|]. simpl.
    destruct (SearchCache.expired now e) eqn:E; simpl; [done|].
    rewrite E. simpl. by f_equal. }
  by apply keys_filter_NoDup.
Qed.

End CacheLookups.

Lemma has_answers_as_get_without_touching_witness :
  SearchCache.lastAccessed
    <$> JsMap.get k2 (SearchCache.cache (snd (SearchCache.has 250000 k2 agedCache)))
  = Some 200000
  /\ SearchCache.lastAccessed
       <$> JsMap.get k2 (SearchCache.cache (snd (SearchCache.get 250000 k2 agedCache)))
     = Some 250000.
Proof.
  destruct (has_answers_as_get_without_touching nat 250000 k2 agedCache)
    as (_ & _ & _ & H).
  destruct (H {| SearchCache.data := 2%nat; SearchCache.createdAt := 200000;
                 SearchCache.lastAccessed := 200000;
                 SearchCache.expiresAt := 500000; SearchCache.size := 1000 |})
    as (Hhas & e' & Hget & Hstamp & _).
  - reflexivity.
  - vm_compute. discriminate.
  - split; [by rewrite Hhas | by rewrite Hget, <- Hstamp].
Defined.

Lemma cleanup_removes_the_expired_entries_only_witness :
  JsMap.keys (SearchCache.cache (SearchCache.cleanup 400000 agedCache)) = [k2]
  /\ JsMap.size (SearchCache.cache (SearchCache.cleanup 400000 agedCache))
     = SearchCache.validEntries (SearchCache.getStats 400000 agedCache).
Proof.
  destruct (cleanup_removes_the_expired_entries_only nat 400000 agedCache)
    as (_ & Hsize & _).
  - apply (bool_decide_unpack _). vm_compute. exact I.
  - split; [reflexivity | exact Hsize].
Defined.

(** ** The cache: eviction and capacity *)

Section CacheEviction.
Variable A : Type.
Variable calculateSize : A -> Z.
Implicit Types (c : SearchCache.t A) (k : jsstring).

Lemma lruScan_finds now (m : JsMap.t (SearchCache.entry A)) :
  Exists (fun ke => SearchCache.lastAccessed (snd ke) < now) m ->
  exists k e,
    fst (SearchCache.lruScan now m) = Some k
    /\ (k, e) ∈ m
    /\ SearchCache.lastAccessed e < now
    /\ Forall (fun ke => SearchCache.lastAccessed e
                         <= SearchCache.lastAccessed (snd ke)) m.
Proof.
  intros Hex. unfold SearchCache.lruScan.
  destruct (fst (fold_left SearchCache.lruStep m (None, now))) as [k|] eqn:Hk.
  - destruct (lruScan_names_an_oldest _ m (None, now) k Hk)
      as [[Hno _] | (e & Hin & Hlt & Hsnd)]; [done|].
    exists k, e. split; [done|]. split; [done|]. split; [done|].
    rewrite <- Hsnd. apply lruScan_is_minimal.
  - apply lruScan_fold in Hk as [_ Hall]. simpl in Hall.
    apply Exists_exists in Hex as (ke & Hin & Hlt).
    rewrite Forall_forall in Hall. specialize (Hall ke Hin). lia.
Qed.

Lemma elem_key (m : JsMap.t (SearchCache.entry A)) k e :
  (k, e) ∈ m -> k ∈ JsMap.keys m.
Proof.
  intros Hin. unfold JsMap.keys.
  change (List.map fst m) with (fst <$> m).
  apply list_elem_of_fmap. by exists (k, e).
Qed.

Lemma evictLRU_deletes now c :
  uniqueKeys c ->
  [] ∉ JsMap.keys (SearchCache.cache c) ->
  Exists (fun ke => SearchCache.lastAccessed (snd ke) < now) (SearchCache.cache c) ->
  exists k e,
    (k, e) ∈ SearchCache.cache c
    /\ Forall (fun ke => SearchCache.lastAccessed e
                         <= SearchCache.lastAccessed (snd ke)) (SearchCache.cache c)
    /\ SearchCache.evictLRU now c = SearchCache.with_cache (JsMap.delete k) c
    /\ JsMap.size (JsMap.delete k (SearchCache.cache c))
       = JsMap.size (SearchCache.cache c) - 1.
Proof.
  intros Hnd Hkeys Hex.
  destruct (lruScan_finds now _ Hex) as (k & e & Hscan & Hin & _ & Hmin).
  exists k, e. split; [done|]. split; [done|].
  pose proof (elem_key _ _ _ Hin) as Hkin.
  split.
  - unfold SearchCache.evictLRU. rewrite Hscan.
    destruct k as [|x k]; [done|]. done.
  - unfold JsMap.size. rewrite <- (delete_length _ k Hnd Hkin). lia.
Qed.

(** X4.  When some entry was last accessed before the current clock reading
    and no key is empty, [evictLRU] removes exactly one entry, and no entry
    of the cache was accessed earlier than the one it removes; every other
    key keeps its entry. *)
Theorem evictLRU_removes_a_least_recently_used_entry now c :
  uniqueKeys c ->
  [] ∉ JsMap.keys (SearchCache.cache c) ->
  Exists (fun ke => SearchCache.lastAccessed (snd ke) < now) (SearchCache.cache c) ->
  exists k e,
    JsMap.get k (SearchCache.cache c) = Some e
    /\ Forall (fun ke => SearchCache.lastAccessed e
                         <= SearchCache.lastAccessed (snd ke)) (SearchCache.cache c)
    /\ JsMap.get k (SearchCache.cache (SearchCache.evictLRU now c)) = None
    /\ (forall k', k' <> k ->
          JsMap.get k' (SearchCache.cache (SearchCache.evictLRU now c))
          = JsMap.get k' (SearchCache.cache c))
    /\ JsMap.size (SearchCache.cache (SearchCache.evictLRU now c))
       = JsMap.size (SearchCache.cache c) - 1.
Proof.
  intros Hnd Hkeys Hex.
  destruct (evictLRU_deletes now c Hnd Hkeys Hex) as (k & e & Hin & Hmin & -> & Hsize).
  exists k, e. split; [by apply elem_get|]. split; [done|]. simpl.
  split; [apply get_delete_eq|]. split; [|done].
  intros k' Hne. by apply get_delete_ne.
Qed.

(** X5.  A [set] keeps the cache within its capacity when the clock has moved
    on since every stored entry was last accessed: a cache that holds at most
    [maxSize] entries, none under the empty key, holds at most [maxSize]
    entries afterwards, the new one among them. *)
Theorem set_stays_within_capacity_when_the_clock_has_moved now key d ttl c :
  uniqueKeys c ->
  [] ∉ JsMap.keys (SearchCache.cache c) ->
  0 < SearchCache.maxSize c ->
  JsMap.size (SearchCache.cache c) <= SearchCache.maxSize c ->
  Forall (fun ke => SearchCache.lastAccessed (snd ke) < now) (SearchCache.cache c) ->
  let c' := SearchCache.set calculateSize now key d ttl c in
  JsMap.size (SearchCache.cache c') <= SearchCache.maxSize c'
  /\ SearchCache.maxSize c' = SearchCache.maxSize c
  /\ SearchCache.holds key c' = true
  /\ uniqueKeys c'.
Proof.
  intros Hnd Hkeys Hpos Hsize Hold c'. subst c'. unfold SearchCache.set.
  destruct (JsMap.size (SearchCache.cache c) >=? SearchCache.maxSize c) eqn:Hfull.
  - assert (Hex : Exists (fun ke => SearchCache.lastAccessed (snd ke) < now)
                         (SearchCache.cache c)).
    { destruct (SearchCache.cache c) as [|ke m] eqn:Hm.
      - apply Z.geb_le in Hfull. unfold JsMap.size in Hfull. simpl in Hfull. lia.
      - apply Exists_cons_hd. by apply Forall_cons_1 in Hold as [? _]. }
    destruct (evictLRU_deletes now c Hnd Hkeys Hex)
      as (k & e & Hin & Hmin & -> & Hdel).
    simpl. split.
    { pose proof (set_length_le (JsMap.delete k (SearchCache.cache c)) key
        {| SearchCache.data := d; SearchCache.createdAt := now;
           SearchCache.lastAccessed := now;
           SearchCache.expiresAt := now + SearchCache.ttlOrDefault ttl c;
           SearchCache.size := calculateSize d |}) as Hle.
      unfold JsMap.size in *. lia. }
    split; [done|]. split.
    { unfold SearchCache.holds. simpl. rewrite get_set_eq.
      by apply bool_decide_eq_true. }
    unfold uniqueKeys. simpl. by apply keys_set_NoDup, keys_delete_NoDup.
  - simpl. split.
    { pose proof (set_length_le (SearchCache.cache c) key
        {| SearchCache.data := d; SearchCache.createdAt := now;
           SearchCache.lastAccessed := now;
           SearchCache.expiresAt := now + SearchCache.ttlOrDefault ttl c;
           SearchCache.size := calculateSize d |}) as Hle.
      unfold JsMap.size in *. lia. }
    split; [done|]. split.
    { unfold SearchCache.holds. simpl. rewrite get_set_eq.
      by apply bool_decide_eq_true. }
    unfold uniqueKeys. simpl. by apply keys_set_NoDup.
Qed.

End CacheEviction.

Lemma evictLRU_removes_a_least_recently_used_entry_witness :
  exists k e,
    JsMap.get k (SearchCache.cache fullCache) = Some e
    /\ Forall (fun ke => SearchCache.lastAccessed e
                         <= SearchCache.lastAccessed (snd ke))
              (SearchCache.cache fullCache)
    /\ JsMap.get k (SearchCache.cache (SearchCache.evictLRU 7 fullCache)) = None
    /\ (forall k', k' <> k ->
          JsMap.get k' (SearchCache.cache (SearchCache.evictLRU 7 fullCache))
          = JsMap.get k' (SearchCache.cache fullCache))
    /\ JsMap.size (SearchCache.cache (SearchCache.evictLRU 7 fullCache))
       = JsMap.size (SearchCache.cache fullCache) - 1.
Proof.
  apply (evictLRU_removes_a_least_recently_used_entry nat 7 fullCache).
  - apply (bool_decide_unpack _). vm_compute. exact I.
  - apply (bool_decide_unpack _). vm_compute. exact I.
  - apply Exists_cons_hd. vm_compute. reflexivity.
Defined.

Lemma set_stays_within_capacity_when_the_clock_has_moved_witness :
  JsMap.size (SearchCache.cache (SearchCache.set unitSize 7 k3 3%nat None fullCache))
  <= SearchCache.maxSize (SearchCache.set unitSize 7 k3 3%nat None fullCache).
Proof.
  apply (set_stays_within_capacity_when_the_clock_has_moved
           nat unitSize 7 k3 3%nat None fullCache).
  - apply (bool_decide_unpack _). vm_compute. exact I.
  - apply (bool_decide_unpack _). vm_compute. exact I.
  - vm_compute. reflexivity.
  - vm_compute. discriminate.
  - repeat constructor.
Defined.

(** ** The cache: snapshots *)

Section Snapshots.
Variable A : Type.
Variable calculateSize : A -> Z.
Implicit Types (c : SearchCache.t A) (k : jsstring)
  (xs : list (SearchCache.exportedEntry A)).

Lemma import_skips now xs :
  forall acc,
    fold_left (SearchCache.importStep A calculateSize now) xs acc
    = fold_left (SearchCache.importStep A calculateSize now)
                (List.filter (validLine now) xs) acc.
Proof.
  induction xs as [|x xs IH]; intros acc; [done|]. simpl.
  unfold validLine at 1.
  destruct (now <=? SearchCache.x_expiresAt x) eqn:E; simpl.
  - apply IH.
  - rewrite <- IH. f_equal. unfold SearchCache.importStep. by rewrite E.
Qed.

Lemma import_count now xs :
  forall acc,
    fst (fold_left (SearchCache.importStep A calculateSize now) xs acc)
    = fst acc + Z.of_nat (length (List.filter (validLine now) xs)).
Proof.
  induction xs as [|x xs IH]; intros acc; simpl; [lia|].
  rewrite IH. unfold SearchCache.importStep, validLine.
  destruct (now <=? SearchCache.x_expiresAt x); simpl length; simpl; lia.
Qed.

Lemma import_settings now xs :
  forall acc,
    SearchCache.maxSize
      (snd (fold_left (SearchCache.importStep A calculateSize now) xs acc))
    = SearchCache.maxSize (snd acc)
    /\ SearchCache.defaultTTL
         (snd (fold_left (SearchCache.importStep A calculateSize now) xs acc))
       = SearchCache.defaultTTL (snd acc).
Proof.
  induction xs as [|x xs IH]; intros acc; [done|]. simpl.
  destruct (IH (SearchCache.importStep A calculateSize now acc x)) as [-> ->].
  unfold SearchCache.importStep. by destruct (now <=? SearchCache.x_expiresAt x).
Qed.

Lemma import_keeps now xs :
  forall acc k,
    is_Some (JsMap.get k (SearchCache.cache (snd acc)))
    \/ (exists x, x ∈ xs /\ validLine now x = true /\ SearchCache.x_key x = k) ->
    is_Some (JsMap.get k (SearchCache.cache
      (snd (fold_left (SearchCache.importStep A calculateSize now) xs acc)))).
Proof.
  induction xs as [|x xs IH]; intros acc k H; simpl.
  - destruct H as [H | (x & Hin & _)]; [done | by apply elem_of_nil in Hin].
  - apply IH. unfold SearchCache.importStep, validLine in *.
    destruct H as [H | (x' & Hin & Hv & <-)].
    + left. destruct (now <=? SearchCache.x_expiresAt x); [|done]. simpl.
      destruct (decide (SearchCache.x_key x = k)) as [->|Hne].
      * rewrite get_set_eq. by eexists.
      * by rewrite get_set_ne.
    + apply elem_of_cons in Hin as [-> | Hin].
      * left. rewrite Hv. simpl. rewrite get_set_eq. by eexists.
      * right. by exists x'.
Qed.

Lemma import_elsewhere now xs :
  forall acc k,
    k ∉ List.map SearchCache.x_key (List.filter (validLine now) xs) ->
    JsMap.get k (SearchCache.cache
      (snd (fold_left (SearchCache.importStep A calculateSize now) xs acc)))
    = JsMap.get k (SearchCache.cache (snd acc)).
Proof.
  induction xs as [|x xs IH]; intros acc k Hk; [done|]. simpl in *.
  unfold validLine in Hk at 1. unfold SearchCache.importStep at 2.
  destruct (now <=? SearchCache.x_expiresAt x) eqn:E; simpl in Hk.
  - rewrite IH.
    + simpl. apply get_set_ne. intros Heq. apply Hk. rewrite <- Heq.
      apply list_elem_of_here.
    + intros Hin. apply Hk. by apply list_elem_of_further.
  - by apply IH.
Qed.

Lemma import_fresh now xs :
  forall n c,
    NoDup (JsMap.keys (SearchCache.cache c) ++ List.map SearchCache.x_key xs) ->
    Forall (fun x => validLine now x = true) xs ->
    SearchCache.cache
      (snd (fold_left (SearchCache.importStep A calculateSize now) xs (n, c)))
    = SearchCache.cache c ++ List.map (imported calculateSize now) xs.
Proof.
  induction xs as [|x xs IH]; intros n c Hnd Hv; simpl.
  - by rewrite app_nil_r.
  - apply Forall_cons_1 in Hv as [Hx Hv]. unfold validLine in Hx.
    unfold SearchCache.importStep at 2. rewrite Hx. simpl.
    apply NoDup_app in Hnd as (Hm & Hdisj & Hxs).
    apply NoDup_cons in Hxs as [Hfresh Hxs].
    rewrite IH; [|simpl|done].
    + simpl. rewrite set_fresh.
      * by rewrite <- app_assoc.
      * intros Hin. apply (Hdisj _ Hin), list_elem_of_here.
    + rewrite set_fresh
        by (intros Hin; apply (Hdisj _ Hin), list_elem_of_here).
      unfold JsMap.keys. rewrite map_app. simpl. rewrite <- app_assoc. simpl.
      apply NoDup_app. split; [done|]. split; [|by apply NoDup_cons].
      intros k Hin Hk. by apply (Hdisj _ Hin).
Qed.

Lemma export_later t0 t1 c :
  t0 <= t1 ->
  List.filter (validLine t1) (SearchCache.export t0 c) = SearchCache.export t1 c.
Proof.
  intros Hle. unfold SearchCache.export.
  induction (SearchCache.cache c) as [|[k e] m IH]; [done|]. simpl.
  destruct (t1 <=? SearchCache.expiresAt e) eqn:E1;
    destruct (t0 <=? SearchCache.expiresAt e) eqn:E0; try lia; simpl.
  - unfold validLine at 1. simpl. rewrite E1. by f_equal.
  - unfold validLine at 1. simpl. by rewrite E1.
  - done.
Qed.

Lemma export_keys now c :
  List.map SearchCache.x_key (SearchCache.export now c)
  = JsMap.keys (List.filter (fun ke => now <=? SearchCache.expiresAt (snd ke))
                            (SearchCache.cache c)).
Proof.
  unfold SearchCache.export, JsMap.keys. rewrite List.map_map. done.
Qed.

Lemma export_valid now c :
  Forall (fun x => validLine now x = true) (SearchCache.export now c).
Proof.
  unfold SearchCache.export.
  induction (SearchCache.cache c) as [|[k e] m IH]; [constructor|]. simpl.
  destruct (now <=? SearchCache.expiresAt e) eqn:E; [|done].
  simpl. by constructor.
Qed.

Lemma export_of_imported now xs c :
  Forall (fun x => validLine now x = true) xs ->
  SearchCache.cache c = List.map (imported calculateSize now) xs ->
  SearchCache.export now c = xs.
Proof.
  unfold SearchCache.export. intros Hv ->.
  induction xs as [|[k d ca ex] xs IH]; [done|].
  apply Forall_cons_1 in Hv as [Hx Hv]. unfold validLine in Hx. simpl in *.
  rewrite Hx. simpl. f_equal. by apply IH.
Qed.

(** X6.  A snapshot restored into an emptied cache at a later time gives back
    what was still valid: exporting the restored cache yields the lines an
    export of the original would yield at that time, [import] reports their
    number, the one the statistics count as valid, and every restored entry
    counts as accessed at the time of the import. *)
Theorem snapshot_restored_later t0 t1 c :
  uniqueKeys c ->
  t0 <= t1 ->
  let r := SearchCache.import calculateSize t1 (SearchCache.export t0 c)
                              (SearchCache.clear c) in
  SearchCache.export t1 (snd r) = SearchCache.export t1 c
  /\ fst r = SearchCache.validEntries (SearchCache.getStats t1 c)
  /\ Forall (fun ke => SearchCache.lastAccessed (snd ke) = t1)
            (SearchCache.cache (snd r))
  /\ SearchCache.maxSize (snd r) = SearchCache.maxSize c
  /\ SearchCache.defaultTTL (snd r) = SearchCache.defaultTTL c.
Proof.
  intros Hnd Hle r. subst r. unfold SearchCache.import.
  rewrite import_skips, (export_later t0 t1 c Hle).
  assert (Hcache :
    SearchCache.cache
      (snd (fold_left (SearchCache.importStep A calculateSize t1)
              (SearchCache.export t1 c) (0, SearchCache.clear c)))
    = List.map (imported calculateSize t1) (SearchCache.export t1 c)).
  { rewrite import_fresh; [done| |apply export_valid].
    simpl. rewrite export_keys. by apply keys_filter_NoDup. }
  split; [apply export_of_imported; [apply export_valid | done]|].
  split.
  { rewrite import_count. simpl.
    assert (Hall : List.filter (validLine t1) (SearchCache.export t1 c)
                   = SearchCache.export t1 c).
    { rewrite <- (export_later t1 t1 c) at 2 by lia. done. }
    rewrite Hall, <- validCount_export.
    unfold SearchCache.getStats. rewrite statsStep_fold. simpl. lia. }
  split.
  { rewrite Hcache. apply Forall_forall. intros ke Hin.
    change (List.map (imported calculateSize t1) (SearchCache.export t1 c))
      with (imported calculateSize t1 <$> SearchCache.export t1 c) in Hin.
    apply list_elem_of_fmap in Hin as (x & -> & _). done. }
  destruct (import_settings t1 (SearchCache.export t1 c) (0, SearchCache.clear c))
    as [-> ->]. done.
Qed.

(** X7.  [import] takes the lines that have not expired and passes over the
    others: it returns the number of valid lines, the expired ones could as
    well be absent, the key of every valid line is in the cache afterwards,
    a key that no valid line names keeps what it had, and the settings of
    the cache stay as they were. *)
Theorem import_takes_the_valid_lines now xs c :
  let r := SearchCache.import calculateSize now xs c in
  fst r = Z.of_nat (length (List.filter (validLine now) xs))
  /\ r = SearchCache.import calculateSize now (List.filter (validLine now) xs) c
  /\ (forall x, x ∈ xs -> validLine now x = true ->
        SearchCache.holds (SearchCache.x_key x) (snd r) = true)
  /\ (forall k,
        k ∉ List.map SearchCache.x_key (List.filter (validLine now) xs) ->
        JsMap.get k (SearchCache.cache (snd r)) = JsMap.get k (SearchCache.cache c))
  /\ SearchCache.maxSize (snd r) = SearchCache.maxSize c
  /\ SearchCache.defaultTTL (snd r) = SearchCache.defaultTTL c.
Proof.
  intros r. subst r. unfold SearchCache.import.
  split; [by rewrite import_count|].
  split; [apply import_skips|].
  split.
  { intros x Hin Hv. unfold SearchCache.holds. apply bool_decide_eq_true.
    apply import_keeps. right. by exists x. }
  split; [intros k Hk; by rewrite import_elsewhere|].
  apply import_settings.
Qed.

End Snapshots.

Lemma snapshot_restored_later_witness :
  SearchCache.export 400000
    (snd (SearchCache.import unitSize 400000 (SearchCache.export 250000 agedCache)
            (SearchCache.clear agedCache)))
  = SearchCache.export 400000 agedCache
  /\ length (SearchCache.export 250000 agedCache) = 2%nat
  /\ length (SearchCache.export 400000 agedCache) = 1%nat.
Proof.
  split; [|split; reflexivity].
  apply (snapshot_restored_later nat unitSize 250000 400000 agedCache).
  - apply (bool_decide_unpack _). vm_compute. exact I.
  - lia.
Defined.

(** ** The cache: clearing by engine and by language *)

Section KeyShape.

Lemma startsWith_nil (s : jsstring) : startsWith s [] = true.
Proof. by destruct s. Qed.

Lemma startsWith_cons (x y : N) (s p : jsstring) :
  startsWith (y :: s) (x :: p) = (x =? y)%N && startsWith s p.
Proof. done. Qed.

Lemma startsWith_name engine engine' rest :
  colonFree engine -> colonFree engine' ->
  startsWith (engine' ++ 58%N :: rest) (engine ++ [58%N]) = eqb engine' engine.
Proof.
  intros He. revert engine'.
  induction He as [|x engine Hx He IH]; intros engine' He'.
  - destruct He' as [|c engine' Hc He']; cbn [app].
    + rewrite startsWith_cons, startsWith_nil. symmetry. by apply eqb_true.
    + rewrite startsWith_cons. destruct (N.eqb_spec 58 c) as [<-|Hne]; [done|].
      symmetry. by apply eqb_false.
  - destruct He' as [|c engine' Hc He']; cbn [app]; rewrite startsWith_cons.
    + destruct (N.eqb_spec x 58) as [->|Hne]; [done|].
      symmetry. by apply eqb_false.
    + rewrite (IH _ He').
      destruct (N.eqb_spec x c) as [->|Hne]; simpl.
      * destruct (eqb engine' engine) eqn:E.
        -- apply eqb_true in E as ->. symmetry. by apply eqb_true.
        -- apply eqb_false in E. symmetry. apply eqb_false. congruence.
      * symmetry. apply eqb_false. congruence.
Qed.

Lemma split_name name rest :
  colonFree name -> split 58 (name ++ 58%N :: rest) = name :: split 58 rest.
Proof.
  induction 1 as [|c name Hc Hname IH]; cbn [app split].
  - by rewrite N.eqb_refl.
  - destruct (N.eqb_spec c 58) as [->|_]; [done|]. by rewrite IH.
Qed.

Lemma key_shape engine query language :
  SearchCache.generateCacheKey engine query language
  = engine ++ 58%N :: language ++ 58%N :: trim (toLowerCase query).
Proof. done. Qed.

End KeyShape.

Section Clearing.
Variable A : Type.
Implicit Types (c : SearchCache.t A) (k : jsstring).

Lemma filter_lengths (f : jsstring * SearchCache.entry A -> bool)
    (m : JsMap.t (SearchCache.entry A)) :
  Z.of_nat (length (List.filter f m))
  = JsMap.size m - JsMap.size (List.filter (fun ke => negb (f ke)) m).
Proof.
  unfold JsMap.size. induction m as [|ke m IH]; [done|]. simpl.
  destruct (f ke); simpl length; lia.
Qed.

(** X8.  [clearEngine] removes the entries whose key starts with the engine
    name and a colon, leaves every other key with its entry, and returns the
    number of entries it removed.  For engine names without a colon, the key
    that [generateCacheKey] builds for an engine starts that way exactly when
    it is the engine that is cleared. *)
Theorem clearEngine_removes_the_entries_of_the_engine engine c :
  uniqueKeys c ->
  let r := SearchCache.clearEngine engine c in
  (forall k,
      JsMap.get k (SearchCache.cache (snd r))
      = if startsWith k (engine ++ js ":") then None
        else JsMap.get k (SearchCache.cache c))
  /\ fst r = JsMap.size (SearchCache.cache c) - JsMap.size (SearchCache.cache (snd r))
  /\ uniqueKeys (snd r)
  /\ (forall engine' query language,
        colonFree engine -> colonFree engine' ->
        startsWith (SearchCache.generateCacheKey engine' query language)
                   (engine ++ js ":")
        = eqb engine' engine).
Proof.
  intros Hnd r. subst r. unfold SearchCache.clearEngine. simpl. split.
  { intros k. rewrite get_filter by done. unfold SearchCache.ofEngine. simpl.
    destruct (JsMap.get k (SearchCache.cache c)) as [e|];
      by destruct (startsWith k (engine ++ js ":")). }
  split; [apply filter_lengths|].
  split; [by apply keys_filter_NoDup|].
  intros engine' query language He He'. rewrite key_shape.
  by apply startsWith_name.
Qed.

(** X9.  [clearLanguage] removes the entries whose key, split at the colons,
    has the language as its second part, leaves every other key with its
    entry, and returns the number of entries it removed.  When neither the
    engine name nor the language has a colon, the key that
    [generateCacheKey] builds is removed exactly when its language is the
    one that is cleared, whatever the query is. *)
Theorem clearLanguage_removes_the_entries_of_the_language language c :
  uniqueKeys c ->
  let r := SearchCache.clearLanguage language c in
  (forall k,
      JsMap.get k (SearchCache.cache (snd r))
      = match JsMap.get k (SearchCache.cache c) with
        | Some e => if SearchCache.ofLanguage language (k, e) then None else Some e
        | None => None
        end)
  /\ fst r = JsMap.size (SearchCache.cache c) - JsMap.size (SearchCache.cache (snd r))
  /\ uniqueKeys (snd r)
  /\ (forall engine' query language' (e : SearchCache.entry A),
        colonFree engine' -> colonFree language' ->
        SearchCache.ofLanguage language
          (SearchCache.generateCacheKey engine' query language', e)
        = eqb language' language).
Proof.
  intros Hnd r. subst r. unfold SearchCache.clearLanguage. simpl. split.
  { intros k. rewrite get_filter by done.
    destruct (JsMap.get k (SearchCache.cache c)) as [e|]; [|done].
    by destruct (SearchCache.ofLanguage language (k, e)). }
  split; [apply filter_lengths|].
  split; [by apply keys_filter_NoDup|].
  intros engine' query language' e He Hl. unfold SearchCache.ofLanguage. simpl.
  rewrite key_shape, (split_name _ _ He), (split_name _ _ Hl). done.
Qed.

End Clearing.

Lemma clearEngine_removes_the_entries_of_the_engine_witness :
  fst (SearchCache.clearEngine (js "google") mixedCache) = 2
  /\ JsMap.size (SearchCache.cache (snd (SearchCache.clearEngine (js "google") mixedCache))) = 1.
Proof.
  destruct (clearEngine_removes_the_entries_of_the_engine nat (js "google") mixedCache)
    as (_ & Hcount & _).
  - apply (bool_decide_unpack _). vm_compute. exact I.
  - split; [rewrite Hcount|]; reflexivity.
Defined.

Lemma clearLanguage_removes_the_entries_of_the_language_witness :
  fst (SearchCache.clearLanguage (js "en") mixedCache) = 2
  /\ JsMap.keys (SearchCache.cache (snd (SearchCache.clearLanguage (js "en") mixedCache)))
     = [js "google:ja:a:b"].
Proof.
  destruct (clearLanguage_removes_the_entries_of_the_language nat (js "en") mixedCache)
    as (_ & Hcount & _).
  - apply (bool_decide_unpack _). vm_compute. exact I.
  - split; [rewrite Hcount|]; reflexivity.
Defined.

(** ** The cache: what every reachable cache satisfies *)

Section Reachable.
Variable A : Type.
Variable calculateSize : A -> Z.
Implicit Types (c : SearchCache.t A) (k : jsstring).

Lemma evictLRU_uniqueKeys now c :
  uniqueKeys c -> uniqueKeys (SearchCache.evictLRU now c).
Proof.
  intros Hnd. unfold SearchCache.evictLRU.
  destruct (fst _) as [k|]; [|done]. destruct (truthy k); [|done].
  unfold uniqueKeys. simpl. by apply keys_delete_NoDup.
Qed.

Lemma import_uniqueKeys now xs :
  forall acc,
    uniqueKeys (snd acc) ->
    uniqueKeys (snd (fold_left (SearchCache.importStep A calculateSize now) xs acc)).
Proof.
  induction xs as [|x xs IH]; intros acc Hnd; [done|]. simpl. apply IH.
  unfold SearchCache.importStep.
  destruct (now <=? SearchCache.x_expiresAt x); [|done].
  unfold uniqueKeys. simpl. by apply keys_set_NoDup.
Qed.

Lemma run_uniqueKeys o c :
  uniqueKeys c -> uniqueKeys (SearchCache.run calculateSize o c).
Proof.
  intros Hnd. destruct o; simpl.
  - unfold SearchCache.set.
    destruct (_ >=? _); unfold uniqueKeys; simpl; apply keys_set_NoDup;
      [by apply evictLRU_uniqueKeys | done].
  - unfold SearchCache.get. destruct (JsMap.get _ _) as [e|]; [|done].
    destruct (_ >? _); unfold uniqueKeys; simpl;
      [by apply keys_delete_NoDup | by apply keys_set_NoDup].
  - unfold SearchCache.has. destruct (JsMap.get _ _) as [e|]; [|done].
    destruct (_ >? _); [|done]. unfold uniqueKeys. simpl.
    by apply keys_delete_NoDup.
  - unfold uniqueKeys. simpl. by apply keys_delete_NoDup.
  - unfold uniqueKeys. simpl. apply NoDup_nil_2.
  - by apply import_uniqueKeys.
  - unfold uniqueKeys. simpl. by apply keys_filter_NoDup.
Qed.

Lemma run_maxSize o c :
  SearchCache.maxSize (SearchCache.run calculateSize o c) = SearchCache.maxSize c.
Proof.
  destruct o; simpl; try done.
  - unfold SearchCache.set, SearchCache.evictLRU. simpl.
    destruct (_ >=? _); [|done].
    destruct (fst _) as [k|]; [|done]. by destruct (truthy k).
  - unfold SearchCache.get. destruct (JsMap.get _ _) as [e|]; [|done].
    by destruct (_ >? _).
  - unfold SearchCache.has. destruct (JsMap.get _ _) as [e|]; [|done].
    by destruct (_ >? _).
  - apply (import_settings A calculateSize now entries (0, c)).
Qed.

Lemma updateSettings_keeps_positive newMaxSize newDefaultTTL c :
  0 < SearchCache.maxSize c ->
  0 < SearchCache.maxSize (SearchCache.updateSettings newMaxSize newDefaultTTL c).
Proof.
  intros Hpos. unfold SearchCache.updateSettings. simpl.
  destruct newMaxSize as [x|]; [|done].
  destruct (negb (x =? 0) && (x >? 0)) eqn:E; [|done].
  apply andb_prop in E as [_ E]. lia.
Qed.

(** X10.  Whatever sequence of operations built it, a cache has a positive
    capacity and a positive default time to live: the constructor sets them
    to 100 and to five minutes, [updateSettings] replaces them by positive
    values only, and nothing else writes them.  Its store has every key
    once; and a value set without a time to live expires strictly after its
    creation, so that it is read back at the instant of the [set]. *)
Theorem reachable_cache_has_positive_settings c :
  reachable calculateSize c ->
  0 < SearchCache.maxSize c
  /\ 0 < SearchCache.defaultTTL c
  /\ uniqueKeys c
  /\ (forall now key d,
        let c' := SearchCache.set calculateSize now key d None c in
        fst (SearchCache.get now key c') = Some d
        /\ exists e,
             JsMap.get key (SearchCache.cache c') = Some e
             /\ SearchCache.createdAt e < SearchCache.expiresAt e).
Proof.
  intros Hr.
  assert (Hinv : 0 < SearchCache.maxSize c /\ 0 < SearchCache.defaultTTL c
                 /\ uniqueKeys c).
  { induction Hr as [|o c Hr (Hm & Ht & Hu)|ms dt c Hr (Hm & Ht & Hu)
                     |engine c Hr (Hm & Ht & Hu)|language c Hr (Hm & Ht & Hu)].
    - split; [done|]. split; [done|]. apply NoDup_nil_2.
    - rewrite run_maxSize, run_defaultTTL. split; [done|]. split; [done|].
      by apply run_uniqueKeys.
    - split; [by apply updateSettings_keeps_positive|].
      split; [by apply updateSettings_defaultTTL|]. done.
    - split; [done|]. split; [done|]. unfold uniqueKeys. simpl.
      by apply keys_filter_NoDup.
    - split; [done|]. split; [done|]. unfold uniqueKeys. simpl.
      by apply keys_filter_NoDup. }
  destruct Hinv as (Hm & Ht & Hu). split; [done|]. split; [done|].
  split; [done|]. intros now key d c'. subst c'. split.
  - erewrite cache_get_hit; [| apply cache_set_lookup | simpl; lia]. done.
  - eexists. split; [apply cache_set_lookup|]. simpl. lia.
Qed.

End Reachable.

Lemma reachable_cache_has_positive_settings_witness :
  0 < SearchCache.maxSize fullCache /\ 0 < SearchCache.defaultTTL fullCache.
Proof.
  destruct (reachable_cache_has_positive_settings nat unitSize fullCache)
    as (Hm & Ht & _); [|by split].
  apply (reach_run unitSize (SearchCache.OpSet 6 k2 2%nat None)).
  apply (reach_run unitSize (SearchCache.OpSet 5 k1 1%nat None)).
  apply (reach_settings unitSize (Some 2) None).
  apply reach_new.
Defined.

(** ** The error handler: log, statistics and health *)

Section HandlerLog.
Import ErrorHandler.
Implicit Types (h : ErrorHandler.t) (engine : jsstring) (error : JsError.t)
  (info : ErrorInfo.t) (l : list ErrorInfo.t).

Lemma updateLast_snoc info l x : updateLast info (l ++ [x]) = l ++ [info].
Proof.
  induction l as [|a l IH]; [done|].
  change ((a :: l) ++ [x]) with (a :: (l ++ [x])).
  change ((a :: l) ++ [info]) with (a :: (l ++ [info])).
  rewrite <- IH. simpl. by destruct l.
Qed.

Lemma logError_log info h :
  0 < maxLogSize h ->
  errorLog (logError info h)
  = (if Z.of_nat (length (errorLog h)) >=? maxLogSize h
     then tl (errorLog h) else errorLog h) ++ [info]
  /\ maxLogSize (logError info h) = maxLogSize h
  /\ retryAttempts (logError info h) = retryAttempts h
  /\ maxRetries (logError info h) = maxRetries h.
Proof.
  intros Hpos. unfold logError. cbn [with_log errorLog maxLogSize retryAttempts
                                     maxRetries].
  split; [|done]. rewrite length_app. cbn [length].
  destruct (Z.gtb_spec (Z.of_nat (length (errorLog h) + 1)) (maxLogSize h));
    destruct (Z.geb_spec (Z.of_nat (length (errorLog h))) (maxLogSize h));
    try lia; [|done].
  destruct (errorLog h) as [|a l]; [simpl in *; lia | done].
Qed.

Lemma handleEngineError_log error engine h :
  0 < maxLogSize h ->
  let r := handleEngineError error engine h in
  errorLog (snd r)
  = (if Z.of_nat (length (errorLog h)) >=? maxLogSize h
     then tl (errorLog h) else errorLog h) ++ [fst r]
  /\ maxLogSize (snd r) = maxLogSize h.
Proof.
  intros Hpos r. subst r. unfold handleEngineError.
  assert (Hgen : forall info0,
    let '(errorInfo, h1) := (info0, logError info0 h) in
    let r :=
      if shouldRetry engine (ErrorInfo.type errorInfo) h1 then
        let marked :=
          {| ErrorInfo.type := ErrorInfo.type errorInfo;
             ErrorInfo.engine := ErrorInfo.engine errorInfo;
             ErrorInfo.message := ErrorInfo.message errorInfo;
             ErrorInfo.statusCode := ErrorInfo.statusCode errorInfo;
             ErrorInfo.shouldRetry := true;
             ErrorInfo.retryDelay := Some (getRetryDelay engine h1) |} in
        (marked, with_log (updateLast marked) h1)
      else (errorInfo, h1) in
    errorLog (snd r)
    = (if Z.of_nat (length (errorLog h)) >=? maxLogSize h
       then tl (errorLog h) else errorLog h) ++ [fst r]
    /\ maxLogSize (snd r) = maxLogSize h).
  { intros info0. cbv zeta.
    destruct (logError_log info0 h Hpos) as (Hlog & Hmax & _).
    destruct (shouldRetry engine (ErrorInfo.type info0) (logError info0 h)).
    - cbn [fst snd with_log errorLog maxLogSize]. rewrite Hlog, Hmax.
      by rewrite updateLast_snoc.
    - cbn [fst snd]. by rewrite Hlog, Hmax. }
  destruct (classify error);
    unfold handleNetworkError, handleAPIError, handleCORSError,
      handleTimeoutError, handleGeneralError; apply Hgen.
Qed.

(** X11.  The error log stays within [maxLogSize]: handling an error appends
    its record, the one that is returned, at the end of the log, and when
    the log is full the oldest record is dropped for it. *)
Theorem error_log_drops_its_oldest_record_when_full error engine h :
  0 < maxLogSize h ->
  Z.of_nat (length (errorLog h)) <= maxLogSize h ->
  let r := handleEngineError error engine h in
  Z.of_nat (length (errorLog (snd r))) <= maxLogSize (snd r)
  /\ maxLogSize (snd r) = maxLogSize h
  /\ (Z.of_nat (length (errorLog h)) < maxLogSize h ->
      errorLog (snd r) = errorLog h ++ [fst r])
  /\ (Z.of_nat (length (errorLog h)) = maxLogSize h ->
      errorLog (snd r) = tl (errorLog h) ++ [fst r]).
Proof.
  intros Hpos Hle r. subst r.
  destruct (handleEngineError_log error engine h Hpos) as [Hlog Hmax].
  rewrite Hlog, Hmax. split.
  { destruct (Z.geb_spec (Z.of_nat (length (errorLog h))) (maxLogSize h));
      rewrite length_app; cbn [length].
    - destruct (errorLog h) as [|a l]; simpl in *; lia.
    - lia. }
  split; [done|]. split; intros Hlen.
  - destruct (Z.geb_spec (Z.of_nat (length (errorLog h))) (maxLogSize h));
      [lia|done].
  - destruct (Z.geb_spec (Z.of_nat (length (errorLog h))) (maxLogSize h));
      [done|lia].
Qed.

Lemma countOfType_bump ty ty' (l : list (errorType * Z)) :
  countOfType ty (bumpType ty' l)
  = countOfType ty l + (if bool_decide (ty' = ty) then 1 else 0).
Proof.
  induction l as [|[t n] l IH]; simpl.
  - destruct (bool_decide (ty' = ty)); lia.
  - destruct (bool_decide (t = ty')) eqn:E1; simpl.
    + apply bool_decide_eq_true in E1 as ->.
      destruct (bool_decide (ty' = ty)); lia.
    + apply bool_decide_eq_false in E1.
      destruct (bool_decide (t = ty)) eqn:E2; [|exact IH].
      apply bool_decide_eq_true in E2 as ->.
      rewrite bool_decide_eq_false_2 by congruence. lia.
Qed.

Lemma statsStep_types l :
  forall acc ty,
    countOfType ty (fst (fold_left statsStep l acc))
    = countOfType ty (fst acc) + recordsOfType ty l.
Proof.
  unfold recordsOfType.
  induction l as [|i l IH]; intros acc ty; cbn [fold_left].
  - simpl. lia.
  - rewrite IH.
    assert (Hf : fst (statsStep acc i) = bumpType (ErrorInfo.type i) (fst acc))
      by done.
    rewrite Hf, countOfType_bump. cbn [List.filter].
    destruct (bool_decide (ErrorInfo.type i = ty)); simpl length; lia.
Qed.

Lemma lastN_suffix {X : Type} (n : nat) (l : list X) :
  firstn (length l - n) l ++ lastN n l = l
  /\ length (lastN n l) = Nat.min n (length l).
Proof.
  unfold lastN. split; [apply firstn_skipn|]. rewrite length_skipn. lia.
Qed.

End HandlerLog.

(** ** Tables of counts *)

Section Tables.
Import PlainObject.
Implicit Types (o : PlainObject.t) (k name : jsstring).

Lemma tallied_empty : tallied [].
Proof. split; [apply NoDup_nil_2|]. split; intros; done. Qed.

Lemma count_get o k n :
  tallied o -> JsMap.get k o = Some (Num n) -> count k o = n /\ inherited k = false.
Proof.
  intros (_ & _ & Hnum) Hk. unfold count. rewrite Hk.
  split; [done|]. by destruct (Hnum k n Hk).
Qed.

Lemma bump_tallied name o :
  tallied o ->
  tallied (bump name o)
  /\ (forall k, inherited k = false ->
        count k (bump name o) = count k o + (if eqb name k then 1 else 0)).
Proof.
  intros (Hnd & Hstr & Hnum). unfold bump.
  destruct (JsMap.get name o) as [[n|]|] eqn:Hname.
  - destruct (Hnum name n Hname) as [Hplain Hpos]. split.
    + split; [by apply keys_set_NoDup|]. split.
      * intros k. destruct (decide (name = k)) as [<-|Hne].
        -- by rewrite get_set_eq.
        -- rewrite get_set_ne by done. apply Hstr.
      * intros k m. destruct (decide (name = k)) as [<-|Hne].
        -- rewrite get_set_eq. intros [= <-]. split; [done | lia].
        -- rewrite get_set_ne by done. apply Hnum.
    + intros k Hk. unfold count. destruct (eqb name k) eqn:E.
      * apply eqb_true in E as <-. by rewrite get_set_eq, Hname.
      * apply eqb_false in E. rewrite get_set_ne by done. lia.
  - pose proof (Hstr name Hname) as Hinh. split.
    + split; [by apply keys_set_NoDup|]. split.
      * intros k. destruct (decide (name = k)) as [<-|Hne].
        -- done.
        -- rewrite get_set_ne by done. apply Hstr.
      * intros k m. destruct (decide (name = k)) as [<-|Hne].
        -- by rewrite get_set_eq.
        -- rewrite get_set_ne by done. apply Hnum.
    + intros k Hk. unfold count.
      assert (name <> k) as Hne by (intros ->; congruence).
      rewrite get_set_ne by done.
      assert (eqb name k = false) as -> by by apply eqb_false. lia.
  - destruct (inherited name) eqn:Hinh.
    + assert (Hother : forall k, inherited k = false -> eqb name k = false).
      { intros k Hk. apply eqb_false. intros ->. congruence. }
      destruct (eqb name (js "__proto__")).
      * split; [done|]. intros k Hk. rewrite (Hother k Hk). lia.
      * split.
        -- split; [by apply keys_set_NoDup|]. split.
           ++ intros k. destruct (decide (name = k)) as [<-|Hne].
              ** done.
              ** rewrite get_set_ne by done. apply Hstr.
           ++ intros k m. destruct (decide (name = k)) as [<-|Hne].
              ** by rewrite get_set_eq.
              ** rewrite get_set_ne by done. apply Hnum.
        -- intros k Hk. rewrite (Hother k Hk). unfold count.
           assert (name <> k) as Hne by (intros ->; congruence).
           rewrite get_set_ne by done. lia.
    + split.
      * split; [by apply keys_set_NoDup|]. split.
        -- intros k. destruct (decide (name = k)) as [<-|Hne].
           ++ by rewrite get_set_eq.
           ++ rewrite get_set_ne by done. apply Hstr.
        -- intros k m. destruct (decide (name = k)) as [<-|Hne].
           ++ rewrite get_set_eq. intros [= <-]. split; [done | lia].
           ++ rewrite get_set_ne by done. apply Hnum.
      * intros k Hk. unfold count. destruct (eqb name k) eqn:E.
        -- apply eqb_true in E as <-. by rewrite get_set_eq, Hname.
        -- apply eqb_false in E. rewrite get_set_ne by done. lia.
Qed.

(** The table after a loop that counts the items that pass a guard under
    their names. *)
Lemma bump_fold {X : Type} (name : X -> jsstring) (guard : X -> bool)
    (l : list X) :
  forall o,
    tallied o ->
    let o' := fold_left (fun o x => if guard x then bump (name x) o else o) l o in
    tallied o'
    /\ (forall k, inherited k = false ->
          count k o'
          = count k o
            + Z.of_nat (length (List.filter
                                  (fun x => guard x && eqb (name x) k) l))).
Proof.
  induction l as [|x l IH]; intros o Ho; cbn [fold_left].
  - cbn zeta. split; [done|]. intros k _. simpl. lia.
  - destruct (guard x) eqn:Hg.
    + destruct (bump_tallied (name x) o Ho) as [Ho' Hcount].
      destruct (IH _ Ho') as [Hfin Hsum]. cbn zeta in *.
      split; [exact Hfin|]. intros k Hk. rewrite (Hsum k Hk), (Hcount k Hk).
      cbn [List.filter]. rewrite Hg. cbn [andb].
      destruct (eqb (name x) k); simpl length; lia.
    + destruct (IH _ Ho) as [Hfin Hsum]. cbn zeta in *.
      split; [exact Hfin|]. intros k Hk. rewrite (Hsum k Hk).
      cbn [List.filter]. rewrite Hg. cbn [andb]. done.
Qed.

Lemma insertByIndex_elem (x y : N * (jsstring * value)) l :
  x ∈ insertByIndex y l <-> x = y \/ x ∈ l.
Proof.
  induction l as [|z l IH]; cbn [insertByIndex].
  - rewrite list_elem_of_singleton. split; [by left|].
    intros [?|H]; [done | by apply elem_of_nil in H].
  - destruct (fst y <=? fst z)%N.
    + by rewrite elem_of_cons.
    + rewrite !elem_of_cons, IH. tauto.
Qed.

Lemma indexed_elem o i kv :
  (i, kv) ∈ indexed o <-> kv ∈ o /\ arrayIndex (fst kv) = Some i.
Proof.
  unfold indexed. induction o as [|kv' o IH]; cbn [fold_right].
  - split; [intros H; by apply elem_of_nil in H|].
    intros [H _]. by apply elem_of_nil in H.
  - rewrite elem_of_cons. destruct (arrayIndex (fst kv')) as [i'|] eqn:E.
    + rewrite insertByIndex_elem, IH. split.
      * intros [[= -> ->] | [Hin Hi]]; [by split; [left|] | by split; [right|]].
      * intros [[-> | Hin] Hi]; [left; congruence | by right].
    + rewrite IH. split.
      * intros [Hin Hi]. by split; [right|].
      * intros [[-> | Hin] Hi]; [congruence | done].
Qed.

(** [Object.entries] lists the own properties, each one once. *)
Lemma entries_elem o kv : kv ∈ entries o <-> kv ∈ o.
Proof.
  unfold entries, named. rewrite elem_of_app. split.
  - intros [Hin | Hin].
    + change (List.map snd (indexed o)) with (snd <$> indexed o) in Hin.
      apply list_elem_of_fmap in Hin as ([i kv'] & -> & Hin).
      by apply indexed_elem in Hin as [? _].
    + apply list_elem_of_In, filter_In in Hin as [Hin _].
      by apply list_elem_of_In.
  - intros Hin. destruct (arrayIndex (fst kv)) as [i|] eqn:E.
    + left. change (List.map snd (indexed o)) with (snd <$> indexed o).
      apply list_elem_of_fmap. exists (i, kv). split; [done|].
      by apply indexed_elem.
    + right. apply list_elem_of_In, filter_In. split.
      * by apply list_elem_of_In.
      * by apply bool_decide_eq_true.
Qed.

End Tables.

Section HandlerStats.
Import ErrorHandler PlainObject.
Implicit Types (h : ErrorHandler.t) (engine : jsstring) (error : JsError.t)
  (info : ErrorInfo.t) (l : list ErrorInfo.t).

Lemma statsStep_engines l :
  forall acc,
    snd (fold_left statsStep l acc)
    = fold_left (fun o i => if truthy (ErrorInfo.engine i)
                            then bump (ErrorInfo.engine i) o else o)
                l (snd acc).
Proof.
  induction l as [|i l IH]; intros acc; cbn [fold_left]; [done|].
  by rewrite IH.
Qed.

Lemma engine_records engine l :
  engine <> [] ->
  Z.of_nat (length (List.filter
    (fun i => truthy (ErrorInfo.engine i) && eqb (ErrorInfo.engine i) engine) l))
  = recordsOfEngine engine l.
Proof.
  intros Hne. unfold recordsOfEngine. do 2 f_equal. apply filter_ext.
  intros i. destruct (eqb (ErrorInfo.engine i) engine) eqn:E;
    [|by rewrite andb_false_r].
  apply eqb_true in E. rewrite E. by destruct engine.
Qed.

Lemma no_engine_records l :
  List.filter
    (fun i => truthy (ErrorInfo.engine i) && eqb (ErrorInfo.engine i) []) l
  = [].
Proof.
  induction l as [|i l IH]; [done|]. cbn [List.filter].
  destruct (ErrorInfo.engine i) as [|x e] eqn:E; [done|].
  assert (eqb (x :: e) [] = false) as -> by by apply eqb_false. done.
Qed.

Lemma byEngine_counts h :
  tallied (byEngine (getErrorStats h))
  /\ (forall engine, engine <> [] -> inherited engine = false ->
        count engine (byEngine (getErrorStats h))
        = recordsOfEngine engine (errorLog h))
  /\ JsMap.get [] (byEngine (getErrorStats h)) = None.
Proof.
  unfold getErrorStats. cbn [byEngine]. rewrite statsStep_engines. cbn [snd].
  destruct (bump_fold ErrorInfo.engine (fun i => truthy (ErrorInfo.engine i))
              (errorLog h) [] tallied_empty) as [Ht Hcount].
  cbn zeta in *. split; [exact Ht|]. split.
  - intros engine Hne Hplain. rewrite (Hcount engine Hplain).
    rewrite engine_records by done. unfold count. simpl. lia.
  - specialize (Hcount [] eq_refl).
    rewrite no_engine_records in Hcount. unfold count in Hcount at 2. simpl in Hcount.
    destruct (JsMap.get [] _) as [[n|]|] eqn:Hg; [| |done].
    + destruct Ht as (_ & _ & Hnum). destruct (Hnum [] n Hg) as [_ Hpos].
      unfold count in Hcount. rewrite Hg in Hcount. lia.
    + destruct Ht as (_ & Hstr & _). by specialize (Hstr [] Hg).
Qed.

(** X12.  The statistics of the error log count its records: [total] is the
    length of the log, [byType] holds for each type the number of records of
    that type, [recent] is the end of the log, ten records long or the whole
    log when it is shorter, and [byEngine] holds the number of records of
    each engine whose name is not one that every object inherits; records
    without an engine are counted nowhere.  Under an inherited name, such as
    [constructor], [byEngine] never holds a number. *)
Theorem error_statistics_count_the_log h :
  let st := getErrorStats h in
  total st = Z.of_nat (length (errorLog h))
  /\ (forall ty, countOfType ty (byType st) = recordsOfType ty (errorLog h))
  /\ (forall engine, engine <> [] -> inherited engine = false ->
        count engine (byEngine st) = recordsOfEngine engine (errorLog h))
  /\ (forall engine n, inherited engine = true ->
        JsMap.get engine (byEngine st) <> Some (Num n))
  /\ JsMap.get [] (byEngine st) = None
  /\ (exists older, errorLog h = older ++ recent st)
  /\ Z.of_nat (length (recent st)) = Z.min 10 (total st).
Proof.
  intros st. subst st.
  destruct (byEngine_counts h) as (Ht & Hcount & Hnull).
  split; [done|]. split.
  { intros ty. unfold getErrorStats. cbn [byType].
    by rewrite statsStep_types. }
  split; [exact Hcount|]. split.
  { intros engine n Hinh Hg. destruct Ht as (_ & _ & Hnum).
    destruct (Hnum engine n Hg). congruence. }
  split; [exact Hnull|].
  unfold getErrorStats. cbn [recent total].
  destruct (lastN_suffix 10 (errorLog h)) as [Hsuf Hlen]. split.
  - eexists. symmetry. exact Hsuf.
  - rewrite Hlen. lia.
Qed.

Lemma problematic_fold (l : list (jsstring * value)) :
  forall acc,
    let r := fold_left problematicStep l acc in
    fst acc <= fst r
    /\ Forall (fun kc => forall n, snd kc = Num n -> n <= fst r) l
    /\ (r = acc
        \/ exists k, snd r = Some k /\ (k, Num (fst r)) ∈ l /\ fst acc < fst r).
Proof.
  induction l as [|[k v] l IH]; intros acc; cbn [fold_left].
  - cbn zeta. split; [lia|]. split; [constructor|]. by left.
  - destruct (IH (problematicStep acc (k, v))) as (Hle & Hall & Hcase).
    cbn zeta in *. destruct v as [n|].
    + assert (Hstep : problematicStep acc (k, Num n)
                      = if n >? fst acc then (n, Some k) else acc) by done.
      rewrite Hstep in *. clear Hstep.
      destruct (Z.gtb_spec n (fst acc)); cbn [fst snd] in *.
      * split; [lia|]. split.
        { constructor; [|done]. intros m [= <-]. lia. }
        right. destruct Hcase as [-> | (k' & Hk' & Hin & Hlt)].
        -- exists k. cbn [fst snd]. split; [done|].
           split; [apply list_elem_of_here | lia].
        -- exists k'. split; [done|].
           split; [by apply list_elem_of_further | lia].
      * split; [lia|]. split.
        { constructor; [|done]. intros m [= <-]. lia. }
        destruct Hcase as [-> | (k' & Hk' & Hin & Hlt)]; [by left|].
        right. exists k'. split; [done|].
        split; [by apply list_elem_of_further | lia].
    + assert (Hstep : problematicStep acc (k, Str) = acc) by done.
      rewrite Hstep in *. clear Hstep.
      split; [lia|]. split; [constructor; [done | done]|].
      destruct Hcase as [-> | (k' & Hk' & Hin & Hlt)]; [by left|].
      right. exists k'. split; [done|].
      split; [by apply list_elem_of_further | lia].
Qed.

(** X13.  Among the engines whose name is not one that every object
    inherits, the engine that the health check names has the most records in
    the error log: it has at least one and none of them has more.  No engine
    is named exactly when every record of the log is without an engine or
    under an inherited name, for such a name is never named, whatever the
    number of its records. *)
Theorem most_problematic_engine_has_the_most_records h :
  match mostProblematicEngine (performHealthCheck h) with
  | Some engine =>
      engine <> [] /\ inherited engine = false
      /\ 0 < recordsOfEngine engine (errorLog h)
      /\ forall engine', engine' <> [] -> inherited engine' = false ->
           recordsOfEngine engine' (errorLog h)
           <= recordsOfEngine engine (errorLog h)
  | None =>
      Forall (fun i => ErrorInfo.engine i = []
                       \/ inherited (ErrorInfo.engine i) = true) (errorLog h)
  end.
Proof.
  unfold performHealthCheck. cbn [mostProblematicEngine].
  unfold getMostProblematicEngine.
  destruct (byEngine_counts h) as (Ht & Hcount & Hnull).
  set (m := byEngine (getErrorStats h)) in *.
  destruct (problematic_fold (entries m) (0, None)) as (Hle & Hall & Hcase).
  cbn zeta in *. cbn [fst snd] in *.
  set (r := fold_left problematicStep (entries m) (0, None)) in *.
  assert (Hbound : forall engine', engine' <> [] -> inherited engine' = false ->
    recordsOfEngine engine' (errorLog h) <= fst r).
  { intros engine' Hne Hplain. rewrite <- (Hcount _ Hne Hplain). unfold count.
    destruct (JsMap.get engine' m) as [[n|]|] eqn:Hg; [|done|done].
    apply get_Some_elem in Hg. apply (proj2 (entries_elem _ _)) in Hg.
    rewrite Forall_forall in Hall.
    by apply (Hall _ Hg). }
  destruct Hcase as [Hr | (k & Hk & Hin & Hlt)].
  - rewrite Hr in *. cbn [fst snd] in *.
    apply Forall_forall. intros i Hi.
    destruct (ErrorInfo.engine i) as [|x e] eqn:He; [by left|]. right.
    destruct (inherited (x :: e)) eqn:Hinh; [done|]. exfalso.
    specialize (Hbound (x :: e) ltac:(done) Hinh).
    assert (0 < recordsOfEngine (x :: e) (errorLog h)); [|lia].
    unfold recordsOfEngine. apply list_elem_of_In in Hi.
    assert (Hin : In i (List.filter
      (fun i0 => eqb (ErrorInfo.engine i0) (x :: e)) (errorLog h))).
    { apply filter_In. split; [done|]. rewrite He. by apply eqb_true. }
    destruct (List.filter _ (errorLog h)); [done | simpl length; lia].
  - rewrite Hk. apply (proj1 (entries_elem _ _)) in Hin.
    destruct Ht as (Hnd & Hstr & Hnum).
    pose proof (elem_get _ _ _ Hnd Hin) as Hg.
    destruct (Hnum k _ Hg) as [Hplain Hpos].
    assert (Hne : k <> []) by (intros ->; congruence).
    assert (Hval : recordsOfEngine k (errorLog h) = fst r).
    { rewrite <- (Hcount _ Hne Hplain). unfold count. by rewrite Hg. }
    split; [done|]. split; [done|]. rewrite Hval. split; [lia|]. exact Hbound.
Qed.

End HandlerStats.

Section HandlerHealth.
Import ErrorHandler.
Implicit Types (h : ErrorHandler.t) (engine : jsstring) (error : JsError.t)
  (info : ErrorInfo.t) (l : list ErrorInfo.t).

(** X14.  The health check looks at the length of the log, not at the age of
    its records: the handler is healthy exactly while its log holds fewer
    than five records, whenever they were logged, and the advice on the
    network, on a proxy and on the timeout is given once more than five
    network records, more than three CORS records and more than three
    timeout records are in the log.  So once the log holds five records, and
    has room for five, the handler stays unhealthy whatever is handled next;
    [clearErrorLog] makes it healthy again. *)
Theorem health_depends_on_the_length_of_the_log h :
  let hc := performHealthCheck h in
  healthy hc = (Z.of_nat (length (errorLog h)) <? 5)
  /\ recentErrorCount hc = Z.min 10 (Z.of_nat (length (errorLog h)))
  /\ totalErrorCount hc = Z.of_nat (length (errorLog h))
  /\ recommendations hc
     = (if recordsOfType network (errorLog h) >? 5 then [checkNetwork] else [])
       ++ (if recordsOfType cors (errorLog h) >? 3 then [considerProxy] else [])
       ++ (if recordsOfType timeout (errorLog h) >? 3 then [adjustTimeout] else [])
  /\ (forall error engine,
        5 <= maxLogSize h -> 5 <= Z.of_nat (length (errorLog h)) ->
        healthy (performHealthCheck (snd (handleEngineError error engine h)))
        = false)
  /\ healthy (performHealthCheck (clearErrorLog h)) = true.
Proof.
  intros hc. subst hc.
  assert (Hh : forall h0,
    healthy (performHealthCheck h0) = (Z.of_nat (length (errorLog h0)) <? 5)
    /\ recentErrorCount (performHealthCheck h0)
       = Z.min 10 (Z.of_nat (length (errorLog h0)))).
  { intros h0. unfold performHealthCheck. cbn [healthy recentErrorCount].
    unfold getErrorStats. cbn [recent].
    destruct (lastN_suffix 10 (errorLog h0)) as [_ ->].
    split; [|lia].
    destruct (Z.ltb_spec (Z.of_nat (Nat.min 10 (length (errorLog h0)))) 5);
      destruct (Z.ltb_spec (Z.of_nat (length (errorLog h0))) 5); lia || done. }
  split; [apply Hh|]. split; [apply Hh|]. split; [done|]. split.
  { unfold performHealthCheck. cbn [recommendations].
    unfold getHealthRecommendations, getErrorStats. cbn [byType].
    by rewrite !statsStep_types. }
  split.
  { intros error engine Hmax Hlen.
    destruct (Hh (snd (handleEngineError error engine h))) as [-> _].
    destruct (handleEngineError_log error engine h ltac:(lia)) as [-> _].
    rewrite length_app. cbn [length].
    destruct (Z.geb_spec (Z.of_nat (length (errorLog h))) (maxLogSize h));
      destruct (Z.ltb_spec
        (Z.of_nat (length
           ((if true then tl (errorLog h) else errorLog h)) + 1)) 5);
      destruct (Z.ltb_spec (Z.of_nat (length (errorLog h) + 1)) 5);
      try done; try lia;
      destruct (errorLog h) as [|a l]; simpl in *; lia. }
  by destruct (Hh (clearErrorLog h)) as [-> _].
Qed.

(** X15.  The retry counters are per engine: recording a retry of an engine
    raises its counter by one and leaves the counter of every other engine as
    it is, and so does a reset, which puts its engine back to zero; handling
    an error changes no counter; and [clearErrorLog] puts every counter back
    to zero.  Each recorded retry doubles the delay of its engine, up to ten
    seconds. *)
Theorem retry_counters_are_per_engine engine engine' h :
  currentAttempts engine' (recordRetryAttempt engine h)
  = (if eqb engine' engine then S (currentAttempts engine' h)
     else currentAttempts engine' h)
  /\ currentAttempts engine' (resetRetryAttempts engine h)
     = (if eqb engine' engine then 0%nat else currentAttempts engine' h)
  /\ (forall error,
        currentAttempts engine' (snd (handleEngineError error engine h))
        = currentAttempts engine' h)
  /\ currentAttempts engine' (clearErrorLog h) = 0%nat
  /\ getRetryDelay engine (recordRetryAttempt engine h)
     = Z.min (2 * getRetryDelay engine h) 10000
  /\ 1000 <= getRetryDelay engine h <= 10000.
Proof.
  split.
  { destruct (eqb engine' engine) eqn:E.
    - apply eqb_true in E as ->. apply currentAttempts_record.
    - apply eqb_false in E. unfold recordRetryAttempt, currentAttempts at 1.
      cbn [with_attempts retryAttempts]. rewrite lookup_insert_ne by done. done. }
  split.
  { destruct (eqb engine' engine) eqn:E.
    - apply eqb_true in E as ->. apply currentAttempts_reset.
    - apply eqb_false in E. unfold resetRetryAttempts, currentAttempts.
      cbn [with_attempts retryAttempts]. rewrite lookup_delete_ne by done. done. }
  split.
  { intros error. unfold currentAttempts.
    by destruct (handleEngineError_spec error engine h) as (-> & _). }
  split; [done|].
  unfold getRetryDelay. rewrite currentAttempts_record. unfold backoff.
  rewrite Nat2Z.inj_succ, Z.pow_succ_r by lia.
  assert (0 < 2 ^ Z.of_nat (currentAttempts engine h))
    by (apply Z.pow_pos_nonneg; lia).
  split; lia.
Qed.

End HandlerHealth.

Lemma error_log_drops_its_oldest_record_when_full_witness :
  let r := ErrorHandler.handleEngineError networkError providerA fullLog in
  length (ErrorHandler.errorLog fullLog) = 100%nat
  /\ recordsOfEngine providerB (ErrorHandler.errorLog fullLog) = 1
  /\ ErrorHandler.errorLog (snd r)
     = tl (ErrorHandler.errorLog fullLog) ++ [fst r]
  /\ length (ErrorHandler.errorLog (snd r)) = 100%nat
  /\ recordsOfEngine providerB (ErrorHandler.errorLog (snd r)) = 0.
Proof.
  destruct (error_log_drops_its_oldest_record_when_full networkError providerA
              fullLog) as (_ & _ & _ & Hfull).
  - vm_compute. reflexivity.
  - vm_compute. discriminate.
  - split; [vm_compute; reflexivity|]. split; [vm_compute; reflexivity|].
    split; [apply Hfull; vm_compute; reflexivity|].
    split; vm_compute; reflexivity.
Defined.

(** ** The manager: resolutions in general *)

Section Settling.
Import ErrorHandler SearchManager.
Variable calculateSize : SearchResult.t -> Z.


End Settling.


Section Recovery.
Import ErrorHandler SearchManager.
Variable calculateSize : SearchResult.t -> Z.
Variable env : nat -> mstate -> mstate.
Variable engine : jsstring.
Variable ad : adapter.
Variables query language : jsstring.
Variable j : nat.
Variable r : SearchResult.t.

Hypothesis env_foreign : foreign env engine.
Hypothesis env_miss :
  forall k s, miss engine query language s -> miss engine query language (env k s).
Hypothesis open : neverRefuses ad.
Hypothesis fails_before :
  forall n, (n < j)%nat ->
    exists error, search ad query language n = Thrown error
                  /\ classify error ∈ retryableErrors.
Hypothesis answers : search ad query language j = Resolved r.

Lemma resume_recovers fuel :
  forall p s n k,
    (2 * failuresLeft j p n + S (pendingSearch p) <= fuel)%nat ->
    miss engine query language s ->
    (attemptsOf engine s + failuresLeft j p n <= limitOf s)%nat ->
    (p = AwaitSearch /\ (n <= j)%nat) \/ (exists d, p = AwaitTimer d /\ (n < j)%nat) ->
    exists s',
      resume calculateSize fuel env engine ad query language n k p s
      = Some (Fulfilled engine r, s')
      /\ attemptsOf engine s' = 0%nat
      /\ limitOf s' = limitOf s
      /\ delaysOf engine (trace s')
         = delaysOf engine (trace s)
           ++ List.map backoff (seq (attemptsOf engine s) (failuresLeft j p n))
      /\ searchCount engine (trace s')
         = (searchCount engine (trace s) + failuresLeft j p n + pendingSearch p)%nat
      /\ exists e,
          JsMap.get (SearchCache.generateCacheKey engine query language)
                    (SearchCache.cache (cache s')) = Some e
          /\ SearchCache.data e = r
          /\ SearchCache.createdAt e = clock s'
          /\ SearchCache.expiresAt e
             = clock s' + SearchCache.defaultTTL (cache s').
Proof.
  induction fuel as [|fuel IH]; intros p s n k Hfuel Hmiss Hle Hp.
  { lia. }
  destruct Hp as [[-> Hn] | (d & -> & Hn)];
    cbn [resume failuresLeft pendingSearch] in *.
  - destruct (waited_view env engine env_foreign k (latency ad n) s)
      as (Hc0 & Hm0 & Hs0 & Hd0).
    assert (Hmiss0 : miss engine query language (env k (tick (latency ad n) s)))
      by by apply env_miss.
    set (s0 := env k (tick (latency ad n) s)) in *.
    destruct (decide (n = j)) as [->|Hne].
    + unfold afterSearch. rewrite answers. rewrite resume_settled.
      eexists. split; [reflexivity|].
      split; [apply currentAttempts_reset|]. split; [exact Hm0|].
      rewrite Nat.sub_diag. cbn [trace emit setHandler setCache seq List.map].
      rewrite delaysOf_app, searchCount_app, app_nil_r, Hd0, Hs0.
      split; [by rewrite app_nil_r|]. split; [unfold searchCount; simpl; lia|].
      eexists. split; [apply cache_set_lookup|]. cbn.
      split; [done|]. split; [done|].
      f_equal. destruct (_ >=? _); [|done]. unfold SearchCache.evictLRU.
      destruct (fst _) as [k0|]; [|done]. by destruct (truthy k0).
    + unfold afterSearch. destruct (fails_before n) as (error & -> & Hty); [lia|].
      destruct (catchError_retry engine error s0) as
        (info & s1 & -> & Hcache & _ & Htr & Hc1 & Hm1).
      { apply shouldRetry_retryable; [done|].
        unfold attemptsOf, limitOf in *. lia. }
      destruct (IH (AwaitTimer (backoff (attemptsOf engine s0))) s1 n (S k))
        as (s' & Hres & Hc' & Hm' & Hdl' & Hsc' & Hcached).
      { cbn [failuresLeft pendingSearch]. lia. }
      { unfold miss. by rewrite Hcache. }
      { cbn [failuresLeft]. lia. }
      { right. eexists. split; [done | lia]. }
      exists s'. split; [exact Hres|]. split; [done|].
      split; [congruence|]. cbn [failuresLeft pendingSearch] in *.
      rewrite Hdl', Hsc', Htr, delaysOf_app, searchCount_app. simpl.
      rewrite eqb_refl, Hd0, Hs0, Hc1, Hc0.
      replace (j - n)%nat with (S (j - S n)) by lia.
      rewrite <- app_assoc. simpl. split; [done|].
      split; [unfold searchCount; simpl; lia | done].
  - destruct (waited_view env engine env_foreign k d s)
      as (Hc0 & Hm0 & Hs0 & Hd0).
    assert (Hmiss0 : miss engine query language (env k (tick d s)))
      by by apply env_miss.
    set (s0 := env k (tick d s)) in *.
    destruct (attemptSync_miss engine ad query language open (S n) s0 Hmiss0)
      as (s1 & -> & Hcache & Hh & Htr).
    assert (Hc1 : attemptsOf engine s1 = attemptsOf engine s0).
    { unfold attemptsOf. by rewrite Hh. }
    assert (Hm1 : limitOf s1 = limitOf s0).
    { unfold limitOf. by rewrite Hh. }
    destruct (IH AwaitSearch s1 (S n) (S k))
      as (s' & Hres & Hc' & Hm' & Hdl' & Hsc' & Hcached).
    { cbn [failuresLeft pendingSearch]. lia. }
    { unfold miss. by rewrite Hcache. }
    { cbn [failuresLeft]. lia. }
    { left. split; [done | lia]. }
    exists s'. split; [exact Hres|]. split; [done|].
    split; [congruence|]. cbn [failuresLeft pendingSearch] in *.
    rewrite Hdl', Hsc', Htr, delaysOf_app, searchCount_app. simpl.
    rewrite app_nil_r, Hd0, Hs0, Hc1, Hc0. split; [done|].
    split; [|done]. unfold searchCount. simpl. rewrite eqb_refl. simpl. lia.
Qed.

(** X17.  A provider that fails with retryable errors [j] times and then
    answers is resolved with its answer, provided its retry counter leaves
    room for [j] retries: [search] is called [j + 1] times, the [j] delays
    are the back-off values from the counter on, the answer is cached under
    the key of the query with the default time to live, and the retry
    counter of the provider is back at zero. *)
Theorem provider_recovers_after_failures fuel s :
  miss engine query language s ->
  (attemptsOf engine s + j <= limitOf s)%nat ->
  (2 * j + 1 <= fuel)%nat ->
  exists s',
    searchEngineWithErrorHandling calculateSize fuel env engine ad query language s
    = Some (Fulfilled engine r, s')
    /\ attemptsOf engine s' = 0%nat
    /\ delaysOf engine (trace s')
       = delaysOf engine (trace s)
         ++ List.map backoff (seq (attemptsOf engine s) j)
    /\ searchCount engine (trace s')
       = (searchCount engine (trace s) + j + 1)%nat
    /\ exists e,
        JsMap.get (SearchCache.generateCacheKey engine query language)
                  (SearchCache.cache (cache s')) = Some e
        /\ SearchCache.data e = r
        /\ SearchCache.createdAt e = clock s'
        /\ SearchCache.expiresAt e = clock s' + SearchCache.defaultTTL (cache s').
Proof.
  intros Hmiss Hle Hfuel. unfold searchEngineWithErrorHandling.
  destruct (attemptSync_miss engine ad query language open 0 s Hmiss)
    as (s1 & -> & Hcache & Hh & Htr).
  destruct (resume_recovers fuel AwaitSearch s1 0 0)
    as (s' & Hres & Hc' & Hm' & Hdl' & Hsc' & Hcached).
  { cbn [failuresLeft pendingSearch]. lia. }
  { unfold miss. by rewrite Hcache. }
  { cbn [failuresLeft]. unfold attemptsOf, limitOf in *. rewrite Hh. lia. }
  { left. split; [done | lia]. }
  exists s'. split; [exact Hres|]. split; [done|].
  cbn [failuresLeft pendingSearch] in *. rewrite Nat.sub_0_r in *.
  assert (Hc1 : attemptsOf engine s1 = attemptsOf engine s).
  { unfold attemptsOf. by rewrite Hh. }
  rewrite Hdl', Hsc', Htr, delaysOf_app, searchCount_app, Hc1. simpl.
  rewrite app_nil_r. split; [done|]. split; [|done].
  unfold searchCount. simpl. rewrite eqb_refl. simpl. lia.
Qed.

End Recovery.

Lemma provider_recovers_after_failures_witness :
  exists s',
    SearchManager.searchEngineWithErrorHandling flatSize 5 SearchManager.still
      providerA (flaky 2 providerA) cats en (SearchManager.initial 1000)
    = Some (SearchManager.Fulfilled providerA (hitsFor providerA cats en), s')
    /\ attemptsOf providerA s' = 0%nat
    /\ SearchManager.delaysOf providerA (SearchManager.trace s') = [1000; 2000].
Proof.
  destruct (provider_recovers_after_failures flatSize SearchManager.still
              providerA (flaky 2 providerA) cats en 2 (hitsFor providerA cats en))
    with (fuel := 5%nat) (s := SearchManager.initial 1000)
    as (s' & Hres & Hc & Hdl & _).
  - apply still_foreign.
  - intros k s Hs. exact Hs.
  - intros n. split; reflexivity.
  - intros n Hn. exists networkError. split.
    + unfold flaky. simpl. apply Nat.ltb_lt in Hn. by rewrite Hn.
    + change (ErrorHandler.classify networkError) with network.
      apply list_elem_of_here.
  - reflexivity.
  - reflexivity.
  - vm_compute. lia.
  - lia.
  - exists s'. split; [exact Hres|]. split; [exact Hc | exact Hdl].
Defined.

(** ** The manager: the shape of an aggregated result *)

Section Shape.
Import ErrorHandler SearchManager.
Variable calculateSize : SearchResult.t -> Z.

Lemma totalResults_fold outcomes :
  forall acc,
    totalResults (summary (fold_left processResult (List.map wrap outcomes) acc))
    = totalResults (summary acc)
    /\ query (fold_left processResult (List.map wrap outcomes) acc) = query acc
    /\ language (fold_left processResult (List.map wrap outcomes) acc)
       = language acc
    /\ totalTime (fold_left processResult (List.map wrap outcomes) acc)
       = totalTime acc.
Proof.
  induction outcomes as [|o os IH]; intros acc; [done|].
  cbn [List.map fold_left]. rewrite processResult_settled.
  destruct (IH {| query := query acc; language := language acc;
                  totalTime := totalTime acc;
                  engines := <[outcomeEngine o:=slotOf o]> (engines acc);
                  summary := {| total := total (summary acc);
                                successful := successful (summary acc) + 1;
                                failed := failed (summary acc);
                                totalResults := totalResults (summary acc) + 0 |} |})
    as (-> & -> & -> & ->).
  cbn. split; [lia | done].
Qed.

Lemma outcome_names fuel adapters q lang s ps s1 outcomes s2 :
  (2 * limitOf s + 1 <= fuel)%nat ->
  fanOut adapters q lang s = (ps, s1) ->
  settleAll calculateSize fuel ps q lang s1 = Some (outcomes, s2) ->
  List.map outcomeEngine outcomes = List.map fst adapters.
Proof.
  intros Hfuel Hfan Hall.
  destruct (fanOut_spec q lang adapters s ps s1 Hfan)
    as (Hnames & Hm1 & _ & Hnt & Htag & _).
  destruct (settleAll_spec calculateSize q lang fuel ps s1 Hnt)
    as (outcomes' & s2' & Hall' & _ & Hrel & _); [lia|].
  rewrite Hall in Hall'. injection Hall' as <- <-.
  rewrite <- Hnames. clear Hnames Hfan Hall Hnt.
  induction Hrel as [|x o ps os [_ Hx] Hrel IH]; [done|].
  apply Forall_cons_1 in Htag as [Hxt Htag].
  cbn [List.map]. f_equal; [by apply Hx | by apply IH].
Qed.

Lemma same_name_same_outcome (outcomes : list engineOutcome) o o' :
  NoDup (List.map outcomeEngine outcomes) ->
  o ∈ outcomes -> o' ∈ outcomes -> outcomeEngine o' = outcomeEngine o -> o' = o.
Proof.
  intros Hnd Ho Ho' He.
  apply list_elem_of_lookup_1 in Ho as [i Hi].
  apply list_elem_of_lookup_1 in Ho' as [i' Hi'].
  change (List.map outcomeEngine outcomes)
    with (outcomeEngine <$> outcomes) in Hnd.
  assert (i = i') as ->; [|congruence].
  apply (NoDup_lookup _ _ _ (outcomeEngine o) Hnd);
    rewrite list_lookup_fmap; [by rewrite Hi | rewrite Hi'; simpl; by rewrite He].
Qed.

(** X18.  A call with a query that is not blank returns one slot per
    registered provider and no other: [summary.total] is the number of
    providers, every one of them is counted as successful and none as
    failed, and [summary.totalResults] and the [resultCount] of every slot
    are 0 whatever the providers returned.  The result carries the query as
    it was passed, untrimmed, and the language. *)
Theorem every_provider_gets_a_slot fuel adapters q lang s :
  trim q <> [] ->
  (2 * limitOf s + 1 <= fuel)%nat ->
  NoDup (List.map fst adapters) ->
  exists r s',
    searchAll calculateSize fuel adapters q lang s = Some (Returned r, s')
    /\ total (summary r) = Z.of_nat (length adapters)
    /\ successful (summary r) = Z.of_nat (length adapters)
    /\ failed (summary r) = 0
    /\ totalResults (summary r) = 0
    /\ (forall e, is_Some (engines r !! e) <-> e ∈ List.map fst adapters)
    /\ (forall e slot, engines r !! e = Some slot -> resultCount slot = 0)
    /\ query r = q /\ language r = lang.
Proof.
  intros Hq Hfuel Hnd.
  destruct (searchAll_returns calculateSize fuel adapters q lang s Hq Hfuel)
    as (ps & s1 & outcomes & s2 & Hfan & Hall & Hlen & ->).
  pose proof (outcome_names fuel adapters q lang s ps s1 outcomes s2
                Hfuel Hfan Hall) as Hnames.
  eexists _, s2. split; [reflexivity|]. unfold processSearchResults.
  rewrite length_map, Hlen.
  match goal with |- context [fold_left _ _ ?a] =>
    destruct (process_fold outcomes a) as (Hs & Hf & Ht & Hslots & Hlook);
    destruct (totalResults_fold outcomes a) as (Htr & Hqr & Hlr & Htt)
  end.
  cbn zeta in *. rewrite Hs, Hf, Ht, Htr, Hqr, Hlr.
  cbn [summary total successful failed totalResults query language].
  split; [done|]. split; [lia|]. split; [done|]. split; [done|]. split.
  { intros e. split.
    - intros [slot He].
      destruct (Hslots e slot He) as [Hacc | (o & Hin & <- & _)].
      + cbn in Hacc. by rewrite lookup_empty in Hacc.
      + rewrite <- Hnames.
        change (List.map outcomeEngine outcomes)
          with (outcomeEngine <$> outcomes).
        apply list_elem_of_fmap. by exists o.
    - rewrite <- Hnames.
      change (List.map outcomeEngine outcomes) with (outcomeEngine <$> outcomes).
      intros Hin. apply list_elem_of_fmap in Hin as (o & -> & Hin).
      exists (slotOf o). apply Hlook; [done|].
      intros o' Hin' He. apply (same_name_same_outcome outcomes); try done.
      by rewrite Hnames. }
  split; [|done].
  intros e slot He.
  destruct (Hslots e slot He) as [Hacc | (o & _ & _ & ->)]; [|done].
  cbn in Hacc. by rewrite lookup_empty in Hacc.
Qed.

End Shape.

Lemma every_provider_gets_a_slot_witness :
  exists r s',
    SearchManager.searchAll flatSize 7 twoProviders cats en
      (SearchManager.initial 1000) = Some (SearchManager.Returned r, s')
    /\ SearchManager.total (SearchManager.summary r) = 2
    /\ SearchManager.totalResults (SearchManager.summary r) = 0.
Proof.
  destruct (every_provider_gets_a_slot flatSize 7 twoProviders cats en
              (SearchManager.initial 1000))
    as (r & s' & Hres & Ht & _ & _ & Htr & _).
  - vm_compute. discriminate.
  - vm_compute. lia.
  - apply (bool_decide_unpack _). vm_compute. exact I.
  - exists r, s'. split; [exact Hres|]. split; [exact Ht | exact Htr].
Defined.

(** ** Strings: trimming and case *)

Section TrimFacts.
Implicit Types (s : jsstring) (c : N).

Lemma trimStart_idem s : trimStart (trimStart s) = trimStart s.
Proof.
  induction s as [|c s IH]; [done|]. cbn [trimStart].
  destruct (isWhiteSpace c) eqn:E; [done|]. cbn [trimStart]. by rewrite E.
Qed.

Lemma trimStart_blank ws s : blank ws -> trimStart (ws ++ s) = trimStart s.
Proof.
  induction 1 as [|c ws Hc Hws IH]; [done|]. cbn [app trimStart]. by rewrite Hc.
Qed.

Lemma trimStart_snoc s c :
  trimStart (s ++ [c])
  = match trimStart s with [] => trimStart [c] | _ => trimStart s ++ [c] end.
Proof.
  induction s as [|a s IH]; [done|]. cbn [app trimStart].
  destruct (isWhiteSpace a); [exact IH | done].
Qed.

Lemma trimEnd_cons c s :
  trimEnd (c :: s)
  = match trimEnd s with [] => trimStart [c] | _ => c :: trimEnd s end.
Proof.
  unfold trimEnd. cbn [rev]. rewrite trimStart_snoc.
  destruct (trimStart (rev s)) as [|a t] eqn:E.
  - cbn [rev trimStart]. by destruct (isWhiteSpace c).
  - rewrite rev_unit. destruct (rev (a :: t)) as [|b u] eqn:Er; [|done].
    apply (f_equal (@length N)) in Er. rewrite length_rev in Er. done.
Qed.

Lemma trimEnd_blank s ws : blank ws -> trimEnd (s ++ ws) = trimEnd s.
Proof.
  intros Hws. unfold trimEnd. rewrite rev_app_distr, trimStart_blank; [done|].
  unfold blank in *. apply Forall_forall. intros c Hc.
  rewrite Forall_forall in Hws. apply Hws.
  apply list_elem_of_In. apply list_elem_of_In in Hc. by apply in_rev.
Qed.

Lemma trim_comm s : trimStart (trimEnd s) = trimEnd (trimStart s).
Proof.
  induction s as [|c s IH]; [done|]. rewrite trimEnd_cons. cbn [trimStart].
  destruct (isWhiteSpace c) eqn:E.
  - rewrite <- IH. destruct (trimEnd s) as [|a t]; cbn [trimStart]; by rewrite ?E.
  - rewrite trimEnd_cons. cbn [trimStart]. rewrite E.
    destruct (trimEnd s) as [|a t]; cbn [trimStart]; by rewrite ?E.
Qed.

Lemma trimEnd_idem s : trimEnd (trimEnd s) = trimEnd s.
Proof. unfold trimEnd. by rewrite rev_involutive, trimStart_idem. Qed.

Lemma trim_idem s : trim (trim s) = trim s.
Proof. unfold trim. by rewrite trim_comm, trimEnd_idem, trimStart_idem. Qed.

Lemma trim_blank before s after :
  blank before -> blank after -> trim (before ++ s ++ after) = trim s.
Proof.
  intros Hb Ha. unfold trim. rewrite trimStart_blank by done.
  rewrite <- trim_comm, trimEnd_blank by done. apply trim_comm.
Qed.

Ltac split_units :=
  repeat (match goal with
          | |- context [(?a <=? ?b)%N] => destruct (N.leb_spec a b)
          | |- context [(?a =? ?b)%N] => destruct (N.eqb_spec a b)
          end; try lia); try done.

Lemma isWhiteSpace_lower c : isWhiteSpace (lowerUnit c) = isWhiteSpace c.
Proof.
  unfold lowerUnit.
  destruct ((65 <=? c) && (c <=? 90))%N eqn:E1.
  - apply andb_prop in E1 as [H1 H2]. apply N.leb_le in H1, H2.
    unfold isWhiteSpace. split_units.
  - destruct ((192 <=? c) && (c <=? 222) && negb (c =? 215))%N eqn:E2; [|done].
    apply andb_prop in E2 as [E2 _]. apply andb_prop in E2 as [H1 H2].
    apply N.leb_le in H1, H2. unfold isWhiteSpace. split_units.
Qed.

Lemma lowerUnit_idem c : lowerUnit (lowerUnit c) = lowerUnit c.
Proof.
  unfold lowerUnit at 2 3.
  destruct ((65 <=? c) && (c <=? 90))%N eqn:E1.
  - apply andb_prop in E1 as [H1 H2]. apply N.leb_le in H1, H2.
    unfold lowerUnit.
    rewrite (proj2 (N.leb_gt (c + 32) 90)), (proj2 (N.leb_gt 192 (c + 32)))
      by lia.
    by rewrite andb_false_r.
  - destruct ((192 <=? c) && (c <=? 222) && negb (c =? 215))%N eqn:E2.
    + apply andb_prop in E2 as [E2 _]. apply andb_prop in E2 as [H1 H2].
      apply N.leb_le in H1, H2. unfold lowerUnit.
      rewrite (proj2 (N.leb_gt (c + 32) 90)), (proj2 (N.leb_gt (c + 32) 222))
        by lia.
      by rewrite !andb_false_r.
    + unfold lowerUnit. by rewrite E1, E2.
Qed.

Lemma trimStart_lower s : trimStart (toLowerCase s) = toLowerCase (trimStart s).
Proof.
  unfold toLowerCase. induction s as [|c s IH]; [done|].
  cbn [List.map trimStart]. rewrite isWhiteSpace_lower.
  by destruct (isWhiteSpace c).
Qed.

Lemma trim_lower s : trim (toLowerCase s) = toLowerCase (trim s).
Proof.
  unfold trim, trimEnd. rewrite trimStart_lower. unfold toLowerCase.
  rewrite <- map_rev.
  change (List.map lowerUnit (rev (trimStart s)))
    with (toLowerCase (rev (trimStart s))).
  rewrite trimStart_lower. unfold toLowerCase. by rewrite map_rev.
Qed.

Lemma toLowerCase_idem s : toLowerCase (toLowerCase s) = toLowerCase s.
Proof.
  unfold toLowerCase. rewrite List.map_map. apply map_ext. intros c.
  apply lowerUnit_idem.
Qed.

Lemma blank_lower s : blank s -> blank (toLowerCase s).
Proof.
  induction 1 as [|c s Hc Hs IH]; [constructor|]. constructor; [|exact IH].
  by rewrite isWhiteSpace_lower.
Qed.

End TrimFacts.

(** ** The manager: the key of a query *)

Section QueryKey.
Import ErrorHandler SearchManager.

Lemma lowerUnit_capital c : lowerUnit (capital c) = lowerUnit c.
Proof.
  unfold capital.
  destruct ((97 <=? c) && (c <=? 122))%N eqn:E1.
  - apply andb_prop in E1 as [H1 H2]. apply N.leb_le in H1, H2.
    unfold lowerUnit.
    rewrite (proj2 (N.leb_le 65 (c - 32))), (proj2 (N.leb_le (c - 32) 90)),
      (proj2 (N.leb_gt c 90)), (proj2 (N.leb_gt 192 c)) by lia.
    cbn [andb]. rewrite andb_false_r. cbn [andb]. lia.
  - destruct ((224 <=? c) && (c <=? 254) && negb (c =? 247))%N eqn:E2; [|done].
    apply andb_prop in E2 as [E2 E3]. apply andb_prop in E2 as [H1 H2].
    apply N.leb_le in H1, H2. apply negb_true_iff, N.eqb_neq in E3.
    unfold lowerUnit.
    rewrite (proj2 (N.leb_gt (c - 32) 90)), (proj2 (N.leb_le 192 (c - 32))),
      (proj2 (N.leb_le (c - 32) 222)), (proj2 (N.eqb_neq (c - 32) 215)),
      (proj2 (N.leb_gt c 90)), (proj2 (N.leb_gt c 222)) by lia.
    rewrite !andb_false_r. cbn [andb negb]. lia.
Qed.

Lemma toLowerCase_capital q :
  toLowerCase (List.map capital q) = toLowerCase q.
Proof.
  unfold toLowerCase. rewrite List.map_map. apply map_ext. intros c.
  apply lowerUnit_capital.
Qed.

Lemma key_of_padded engine q lang before after :
  blank before -> blank after ->
  SearchCache.generateCacheKey engine (before ++ List.map capital q ++ after) lang
  = SearchCache.generateCacheKey engine q lang.
Proof.
  intros Hb Ha. unfold SearchCache.generateCacheKey. cbv zeta.
  do 4 f_equal. unfold toLowerCase. rewrite !map_app.
  change (List.map lowerUnit) with toLowerCase.
  rewrite trim_blank by by apply blank_lower.
  by rewrite toLowerCase_capital.
Qed.

(** X19.  For a query of code units below 256, the cache key does not see
    the case of the query nor the white space around it: the trimmed query,
    the query in capitals and the query padded with white space all have the
    key of the query.  So a result cached for a query answers every such
    spelling of it: while the entry has not expired, the attempt settles
    with the cached payload and [search] is not called. *)
Theorem cache_key_ignores_case_and_outer_white_space engine q lang :
  latin1 q ->
  SearchCache.generateCacheKey engine (trim q) lang
  = SearchCache.generateCacheKey engine q lang
  /\ SearchCache.generateCacheKey engine (List.map capital q) lang
     = SearchCache.generateCacheKey engine q lang
  /\ (forall before after,
        latin1 before -> latin1 after -> blank before -> blank after ->
        SearchCache.generateCacheKey engine
          (before ++ List.map capital q ++ after) lang
        = SearchCache.generateCacheKey engine q lang)
  /\ (forall before after ad n s entry,
        latin1 before -> latin1 after -> blank before -> blank after ->
        JsMap.get (SearchCache.generateCacheKey engine q lang)
                  (SearchCache.cache (cache s)) = Some entry ->
        clock s <= SearchCache.expiresAt entry ->
        exists s',
          attemptSync engine ad (before ++ List.map capital q ++ after) lang n s
          = (Settled (Fulfilled engine (SearchCache.data entry)), s')
          /\ searchCount engine (trace s') = searchCount engine (trace s)).
Proof.
  intros _. split.
  { unfold SearchCache.generateCacheKey. cbv zeta.
    by rewrite trim_lower, trim_idem, <- trim_lower. }
  split.
  { unfold SearchCache.generateCacheKey. cbv zeta.
    by rewrite toLowerCase_capital. }
  split; [intros before after _ _ Hb Ha; by apply key_of_padded|].
  intros before after ad n s entry _ _ Hb Ha Hget Hclock.
  destruct (attemptSync_hit (before ++ List.map capital q ++ after) lang
              engine ad n s entry) as (s' & Hres & _ & Htr).
  { unfold keyOf. by rewrite key_of_padded. }
  { done. }
  exists s'. split; [exact Hres|]. rewrite Htr, searchCount_app.
  unfold searchCount at 2. simpl. lia.
Qed.

End QueryKey.

Lemma cache_key_ignores_case_and_outer_white_space_witness :
  SearchCache.generateCacheKey providerA (js "  CATS ") en = js "providerA:en:cats"
  /\ exists s',
      SearchManager.attemptSync providerA failing (js "  CATS ") en 0 seededByKey
      = (SearchManager.Settled (SearchManager.Fulfilled providerA seededPayload), s')
      /\ SearchManager.searchCount providerA (SearchManager.trace s')
         = SearchManager.searchCount providerA (SearchManager.trace seededByKey).
Proof.
  destruct (cache_key_ignores_case_and_outer_white_space providerA cats en)
    as (_ & _ & Hkey & H).
  - apply (bool_decide_unpack _). vm_compute. exact I.
  - split.
    + change (js "  CATS ") with (js "  " ++ List.map capital cats ++ js " ").
      rewrite Hkey; [reflexivity | | | |];
        apply (bool_decide_unpack _); vm_compute; exact I.
    + destruct (H (js "  ") (js " ") failing 0%nat seededByKey
                  {| SearchCache.data := seededPayload;
                     SearchCache.createdAt := 1000;
                     SearchCache.lastAccessed := 1000;
                     SearchCache.expiresAt := 301000;
                     SearchCache.size := 1000 |})
        as (s' & Hres & Hsc);
        try (apply (bool_decide_unpack _); vm_compute; exact I).
      * reflexivity.
      * exists s'. split; [exact Hres | exact Hsc].
Defined.

(** ** The application *)

Section App.
Import ErrorHandler SearchManager MultiSearchApp.
Variable calculateSize : SearchResult.t -> Z.

(** X20.  [handleSearch] trims the text of the field before it looks at it,
    so the one error that [searchAll] raises, the one for a blank query,
    never reaches its [catch] block: a blank field ends in the alert with
    nothing searched, and any other field ends with the result of
    [searchAll] on the trimmed text. *)
Theorem handleSearch_alerts_or_completes fuel adapters field lang s :
  (2 * limitOf s + 1 <= fuel)%nat ->
  (trim field = []
   /\ handleSearch calculateSize fuel adapters field lang s = Some (Alerted, s))
  \/ (trim field <> []
      /\ exists r s',
          handleSearch calculateSize fuel adapters field lang s
          = Some (Completed r, s')
          /\ searchAll calculateSize fuel adapters (trim field) lang s
             = Some (Returned r, s')
          /\ query r = trim field).
Proof.
  intros Hfuel. unfold handleSearch.
  destruct (trim field) as [|c q] eqn:Hq; [by left|]. right.
  split; [done|]. cbn [truthy negb]. rewrite <- Hq.
  destruct (searchAll_returns calculateSize fuel adapters (trim field) lang s)
    as (ps & s1 & outcomes & s2 & _ & _ & _ & ->); [|done|].
  { rewrite trim_idem, Hq. done. }
  eexists _, s2. split; [reflexivity|]. split; [reflexivity|].
  unfold processSearchResults.
  match goal with |- context [fold_left _ _ ?a] =>
    destruct (totalResults_fold outcomes a) as (_ & -> & _) end.
  done.
Qed.

End App.

Lemma handleSearch_alerts_or_completes_witness :
  MultiSearchApp.handleSearch flatSize 7 twoProviders (js "   ") en
    (SearchManager.initial 1000)
  = Some (MultiSearchApp.Alerted, SearchManager.initial 1000).
Proof.
  destruct (handleSearch_alerts_or_completes flatSize 7 twoProviders (js "   ") en
              (SearchManager.initial 1000)) as [[_ H] | [H _]].
  - vm_compute. lia.
  - exact H.
  - exfalso. apply H. reflexivity.
Defined.

(** ** The manager: history and statistics *)

Section HistoryFacts.
Import SearchManager.

(** X21.  The history holds the latest searches, newest first, and at most
    [maxHistorySize] of them: a new entry goes to the front with the query,
    the language, the time and the result total of the search, the entries
    before it keep their order behind it, and the oldest one is dropped when
    the history was full. *)
Theorem history_keeps_the_latest_searches maxHistorySize q lang results time
    history :
  0 < maxHistorySize ->
  Z.of_nat (length history) <= maxHistorySize ->
  let history' := addToHistory maxHistorySize q lang results time history in
  Z.of_nat (length history') <= maxHistorySize
  /\ (exists e, head history' = Some e
                /\ History.query e = q /\ History.language e = lang
                /\ History.totalTime e = time
                /\ History.totalResults e = totalResults (summary results))
  /\ tail history' = firstn (Z.to_nat maxHistorySize - 1) history
  /\ (Z.of_nat (length history) < maxHistorySize -> tail history' = history).
Proof.
  intros Hpos Hlen history'. subst history'. unfold addToHistory. cbv zeta.
  set (e := History.Entry _ _ _ _ _).
  destruct (Z.gtb_spec (Z.of_nat (List.length (e :: history))) maxHistorySize)
    as [Hfull|Hroom].
  - unfold slice0. destruct (Z.ltb_spec maxHistorySize 0); [lia|].
    destruct (Z.to_nat maxHistorySize) as [|n] eqn:Hn; [lia|].
    cbn [firstn head tail Nat.sub]. rewrite Nat.sub_0_r.
    cbn [List.length] in Hfull. split.
    { cbn [length]. rewrite length_firstn. lia. }
    split; [by exists e|]. split; [done|]. intros Hlt. lia.
  - cbn [List.length] in Hroom. cbn [head tail length]. split; [lia|].
    split; [by exists e|].
    assert (Hall : firstn (Z.to_nat maxHistorySize - 1) history = history).
    { apply firstn_all2. lia. }
    by rewrite Hall.
Qed.

Lemma languageStats_counts history :
  tallied (fold_left bumpLanguage history [])
  /\ (forall lang, PlainObject.inherited lang = false ->
        PlainObject.count lang (fold_left bumpLanguage history [])
        = searchesIn lang history).
Proof.
  assert (Hloop : forall o,
    fold_left bumpLanguage history o
    = fold_left (fun o e => if true then PlainObject.bump (History.language e) o
                            else o) history o).
  { induction history as [|e history IH]; intros o; [done|].
    cbn [fold_left]. by rewrite IH. }
  rewrite Hloop.
  destruct (bump_fold History.language (fun _ => true) history []
              tallied_empty) as [Ht Hcount].
  cbn zeta in *. split; [exact Ht|]. intros lang Hplain.
  rewrite (Hcount lang Hplain). unfold PlainObject.count, searchesIn. simpl. lia.
Qed.

(** X22.  The search statistics are read off the history: [totalSearches] is
    its length, [recentSearches] are the first ten entries, the average
    response time is the mean of the times rounded to the nearest integer,
    and [languageStats] holds the number of searches of every language whose
    name is not one that every object inherits; under such a name it never
    holds a number.  The statistics per engine are never filled in: every
    engine is listed with zero successes, zero attempts and zero average
    time. *)
Theorem search_statistics_are_read_off_the_history adapters history :
  let st := getSearchStats adapters history in
  let n := Z.of_nat (length history) in
  totalSearches st = n
  /\ (forall lang, PlainObject.inherited lang = false ->
        PlainObject.count lang (languageStats st) = searchesIn lang history)
  /\ (forall lang m, PlainObject.inherited lang = true ->
        JsMap.get lang (languageStats st) <> Some (PlainObject.Num m))
  /\ recentSearches st = firstn 10 history
  /\ (forall e stat, (e, stat) ∈ engineStats st ->
        successCount stat = 0 /\ totalAttempts stat = 0
        /\ engineAverageResponseTime stat = 0)
  /\ (history <> [] -> List.map fst (engineStats st) = List.map fst adapters)
  /\ 2 * n * averageResponseTime st <= 2 * timeSpent history + n
  /\ (history <> [] ->
      2 * timeSpent history + n < 2 * n * (averageResponseTime st + 1)).
Proof.
  intros st n. subst st n. unfold getSearchStats.
  assert (Hrecent : slice0 10 history = firstn 10 history) by done.
  destruct (languageStats_counts history) as [Ht Hcount].
  destruct (Z.gtb_spec (Z.of_nat (List.length history)) 0) as [Hpos|Hzero];
    cbn [totalSearches languageStats recentSearches engineStats
         averageResponseTime].
  - split; [done|]. split; [exact Hcount|]. split.
    { intros lang m Hinh Hg. destruct Ht as (_ & _ & Hnum).
      destruct (Hnum lang m Hg). congruence. }
    split; [done|]. split.
    { intros e stat Hin.
      change (List.map ?f adapters) with (f <$> adapters) in Hin.
      apply list_elem_of_fmap in Hin as (a & [= -> ->] & _). done. }
    split; [intros _; by rewrite List.map_map|].
    unfold roundedQuotient, timeSpent.
    set (sum := fold_left _ history 0).
    set (n := Z.of_nat (length history)) in *.
    pose proof (Z.mul_div_le (2 * sum + n) (2 * n) ltac:(lia)).
    pose proof (Z.mul_succ_div_gt (2 * sum + n) (2 * n) ltac:(lia)).
    split; [lia|]. intros _. lia.
  - destruct history as [|e history]; [|simpl in Hzero; lia].
    split; [done|]. split; [done|]. split; [done|]. split; [done|].
    split; [intros e stat Hin; by apply elem_of_nil in Hin|].
    split; [done|]. split; [done|]. done.
Qed.

End HistoryFacts.

Lemma history_keeps_the_latest_searches_witness :
  let history' := SearchManager.addToHistory 50 cats en noResults 50 fullHistory in
  length fullHistory = 50%nat
  /\ List.map SearchManager.History.totalTime fullHistory
     = List.map Z.of_nat (rev (seq 0 50))
  /\ tail history' = firstn 49 fullHistory
  /\ List.map SearchManager.History.totalTime history'
     = List.map Z.of_nat (rev (seq 1 50)).
Proof.
  destruct (history_keeps_the_latest_searches 50 cats en noResults 50 fullHistory)
    as (_ & _ & Htail & _).
  - lia.
  - vm_compute. discriminate.
  - split; [reflexivity|]. split; [vm_compute; reflexivity|].
    split; [exact Htail | vm_compute; reflexivity].
Defined.

(** ** The adapters *)

Section AdapterFacts.
Import ErrorHandler SearchManager.

(** X23.  The rate limit of an adapter is a window of one second from the
    last request that was let through: a request within the window is
    refused and leaves the window where it is, a request at its end or later
    is let through and opens a new window, and a request of another adapter
    is not affected.  Every back-off delay of the retry logic is long enough
    for the retry to be let through. *)
Theorem rate_limit_is_a_window_of_one_second name now storage :
  let r := SearchAdapter.checkRateLimit name now storage in
  (fst r = false ->
     snd r = storage
     /\ exists last, storage !! SearchAdapter.requestKey name = Some last
                     /\ now - last < 1000)
  /\ (fst r = true -> snd r !! SearchAdapter.requestKey name = Some now)
  /\ (forall now',
        fst r = true ->
        fst (SearchAdapter.checkRateLimit name now' (snd r))
        = (1000 <=? now' - now))
  /\ (forall n now',
        fst r = true -> now + backoff n <= now' ->
        fst (SearchAdapter.checkRateLimit name now' (snd r)) = true)
  /\ (forall name',
        SearchAdapter.requestKey name' <> SearchAdapter.requestKey name ->
        snd r !! SearchAdapter.requestKey name'
        = storage !! SearchAdapter.requestKey name').
Proof.
  intros r. subst r.
  assert (Hnext : forall now',
    fst (SearchAdapter.checkRateLimit name now'
           (<[SearchAdapter.requestKey name := now]> storage))
    = (1000 <=? now' - now)).
  { intros now'. unfold SearchAdapter.checkRateLimit. rewrite lookup_insert_eq.
    destruct (Z.ltb_spec (now' - now) 1000);
      destruct (Z.leb_spec 1000 (now' - now)); try lia; done. }
  assert (Hlate : forall n now', now + backoff n <= now' ->
                                 (1000 <=? now' - now) = true).
  { intros n now' Hle. apply Z.leb_le.
    assert (1000 <= backoff n); [|lia].
    unfold backoff.
    assert (0 < 2 ^ Z.of_nat n) by (apply Z.pow_pos_nonneg; lia). lia. }
  assert (Hcase :
    (exists last, storage !! SearchAdapter.requestKey name = Some last
                  /\ now - last < 1000
                  /\ SearchAdapter.checkRateLimit name now storage
                     = (false, storage))
    \/ SearchAdapter.checkRateLimit name now storage
       = (true, <[SearchAdapter.requestKey name := now]> storage)).
  { unfold SearchAdapter.checkRateLimit.
    destruct (storage !! SearchAdapter.requestKey name) as [last|] eqn:Hlast;
      [|by right].
    destruct (Z.ltb_spec (now - last) 1000); [left; by exists last | by right]. }
  destruct Hcase as [(last & Hlast & Hlt & ->) | ->]; cbn [fst snd].
  - split; [intros _; split; [done|]; by exists last|].
    split; [done|]. split; [done|]. split; [done|]. done.
  - split; [done|]. split; [intros _; apply lookup_insert_eq|].
    split; [intros now' _; apply Hnext|].
    split; [intros n now' _ Hle; rewrite Hnext; by apply (Hlate n)|].
    intros name' Hne. by rewrite lookup_insert_ne.
Qed.

Lemma new_Error_not_api msg : classify (JsError.Error msg) <> api.
Proof.
  unfold classify.
  repeat match goal with |- context [if ?b then _ else _] => destruct b eqn:? end;
    discriminate.
Qed.

(** X24.  What an adapter lets out of [search]: an error whose message names
    CORS and a [TypeError], which is what a failed [fetch] throws, are
    answered with the mock results, so no error that leaves [search] is
    classified [cors]; and the error an adapter makes of a response that is
    not [ok] carries no [status], so it is never classified [api], the only
    retryable type that looks at the status. *)
Theorem adapter_errors_are_neither_cors_nor_api getMockResults name q lang :
  (forall inner error,
      SearchAdapter.search getMockResults name q lang inner = Thrown error ->
      inner = SearchAdapter.Failed error /\ classify error <> cors)
  /\ (forall error,
        JsError.name error = js "TypeError"
        \/ includes (JsError.message error) (js "CORS") = true ->
        SearchAdapter.search getMockResults name q lang (SearchAdapter.Failed error)
        = Resolved (getMockResults q lang))
  /\ (forall status statusText,
        classify (SearchAdapter.httpError status statusText) <> api
        /\ JsError.status (SearchAdapter.httpError status statusText) = None).
Proof.
  split.
  { intros inner error. unfold SearchAdapter.search.
    destruct inner as [results responseTime | err]; [done|].
    destruct (includes (JsError.message err) (js "CORS")
              || eqb (JsError.name err) (js "TypeError")) eqn:E; [done|].
    intros [= ->]. split; [done|]. unfold classify. rewrite E.
    repeat match goal with
           | |- context [if ?b then _ else _] => destruct b
           end; discriminate. }
  split.
  { intros error H. unfold SearchAdapter.search.
    destruct H as [Hname | Hmsg].
    - rewrite Hname, eqb_refl. by rewrite orb_true_r.
    - by rewrite Hmsg. }
  intros status statusText. split; [apply new_Error_not_api | done].
Qed.

Lemma collapse_units s :
  forall b, Forall (fun c => isWhiteSpace c = true -> c = 32%N) (collapseFrom b s).
Proof.
  induction s as [|c s IH]; intros b; cbn [collapseFrom]; [constructor|].
  destruct (isWhiteSpace c) eqn:E.
  - destruct b; [apply IH|]. constructor; [done | apply IH].
  - constructor; [|apply IH]. intros H. congruence.
Qed.

Lemma collapse_adjacent s :
  forall b,
    (forall i, collapseFrom b s !! i = Some 32%N ->
               collapseFrom b s !! S i <> Some 32%N)
    /\ (b = true -> collapseFrom b s !! 0%nat <> Some 32%N).
Proof.
  induction s as [|c s IH]; intros b; cbn [collapseFrom].
  - split; [intros i Hi; by destruct i | by intros _].
  - destruct (isWhiteSpace c) eqn:E.
    + destruct b.
      * apply IH.
      * split; [|done]. intros [|i] Hi.
        -- apply (IH true). done.
        -- apply (IH true). exact Hi.
    + assert (Hc : c <> 32%N) by (intros ->; done).
      split.
      * intros [|i] Hi.
        -- simpl in Hi. congruence.
        -- apply (IH false). exact Hi.
      * intros _. simpl. congruence.
Qed.

Lemma trimStart_head s c : head (trimStart s) = Some c -> isWhiteSpace c = false.
Proof.
  induction s as [|a s IH]; cbn [trimStart]; [done|].
  destruct (isWhiteSpace a) eqn:E; [exact IH|]. simpl. congruence.
Qed.

(** X25.  A cleaned text is at most as long as the limit of the adapter, its
    only white space is the space character, never two in a row and never
    at the start.  It can end with a space, though, when the cut falls
    behind one. *)
Theorem cleanText_bounds limit text :
  let r := SearchAdapter.cleanText limit text in
  (length r <= limit)%nat
  /\ Forall (fun c => isWhiteSpace c = true -> c = 32%N) r
  /\ (forall i, r !! i = Some 32%N -> r !! S i <> Some 32%N)
  /\ (forall c, head r = Some c -> isWhiteSpace c = false)
  /\ SearchAdapter.cleanText 3 (js "ab cd") = js "ab ".
Proof.
  intros r. subst r. unfold SearchAdapter.cleanText.
  destruct (truthy text); cbn [negb];
    [|split; [simpl; lia|]; split; [constructor|]; split; [|split]; done].
  unfold substring0, collapseWhiteSpace.
  change firstn with (@take N).
  split; [rewrite length_take; lia|].
  split; [apply Forall_take, collapse_units|].
  split.
  { intros i Hi Hsi.
    apply lookup_take_Some in Hi as [Hi _].
    apply lookup_take_Some in Hsi as [Hsi _].
    by apply (collapse_adjacent (trim text) false) in Hi. }
  split; [|done].
  intros c Hc. rewrite head_lookup in Hc.
  apply lookup_take_Some in Hc as [Hc _].
  unfold trim in Hc. rewrite <- trim_comm in Hc.
  destruct (trimStart (trimEnd text)) as [|a t] eqn:Ht; [done|].
  assert (Ha : isWhiteSpace a = false).
  { apply (trimStart_head (trimEnd text)). by rewrite Ht. }
  cbn [collapseFrom] in Hc. rewrite Ha in Hc. simpl in Hc. congruence.
Qed.

Lemma firstVideoId_skip pre rest :
  Forall (fun c => YouTubeSearchAdapter.isDelimiter c = false) pre ->
  YouTubeSearchAdapter.firstVideoId (pre ++ rest)
  = YouTubeSearchAdapter.firstVideoId rest.
Proof.
  induction 1 as [|c pre Hc Hpre IH]; [done|].
  cbn [app YouTubeSearchAdapter.firstVideoId]. by rewrite Hc.
Qed.

Lemma untilAmpersand_all id :
  Forall (fun c => c <> 38%N) id -> YouTubeSearchAdapter.untilAmpersand id = id.
Proof.
  induction 1 as [|c id Hc Hid IH]; [done|].
  cbn [YouTubeSearchAdapter.untilAmpersand].
  destruct (N.eqb_spec c 38); [done|]. by rewrite IH.
Qed.

(** X26.  The address that [buildVideoUrl] makes of a video id gives the id
    back through [extractVideoId], for every id without an ampersand. *)
Theorem video_id_round_trip id :
  Forall (fun c => c <> 38%N) id ->
  YouTubeSearchAdapter.extractVideoId (YouTubeSearchAdapter.buildVideoUrl id) = id.
Proof.
  intros Hid. destruct id as [|c id]; [done|].
  unfold YouTubeSearchAdapter.buildVideoUrl. cbn [truthy].
  change (js "https://www.youtube.com/watch?v=")
    with (js "https://www.youtube.com/watch" ++ js "?v=").
  rewrite <- app_assoc. unfold YouTubeSearchAdapter.extractVideoId.
  change (truthy (js "https://www.youtube.com/watch" ++ js "?v=" ++ c :: id))
    with true.
  cbn [negb]. rewrite firstVideoId_skip
    by (apply (bool_decide_unpack _); vm_compute; exact I).
  change (js "?v=" ++ c :: id) with (63%N :: 118%N :: 61%N :: c :: id).
  cbn [YouTubeSearchAdapter.firstVideoId].
  change (YouTubeSearchAdapter.isDelimiter 63) with true.
  change (startsWith (118%N :: 61%N :: c :: id) (js "v=")) with true.
  cbn [andb skipn]. rewrite (untilAmpersand_all _ Hid). done.
Qed.

End AdapterFacts.

Lemma rate_limit_is_a_window_of_one_second_witness :
  fst (SearchAdapter.checkRateLimit (js "google") 1500
         (snd (SearchAdapter.checkRateLimit (js "google") 1000 ∅))) = false
  /\ fst (SearchAdapter.checkRateLimit (js "google") 2000
            (snd (SearchAdapter.checkRateLimit (js "google") 1000 ∅))) = true.
Proof.
  destruct (rate_limit_is_a_window_of_one_second (js "google") 1000 ∅)
    as (_ & _ & Hnext & _).
  split; rewrite Hnext; reflexivity.
Defined.

Lemma adapter_errors_are_neither_cors_nor_api_witness :
  ErrorHandler.classify networkError <> cors.
Proof.
  destruct (adapter_errors_are_neither_cors_nor_api noMock (js "google") cats en)
    as (H & _).
  apply (H (SearchAdapter.Failed networkError) networkError). reflexivity.
Defined.

Lemma video_id_round_trip_witness :
  YouTubeSearchAdapter.extractVideoId
    (YouTubeSearchAdapter.buildVideoUrl (js "dQw4w9WgXcQ")) = js "dQw4w9WgXcQ".
Proof.
  apply video_id_round_trip. apply (bool_decide_unpack _). vm_compute. exact I.
Defined.
